(** * histocartography: feature extraction, instance-map merging, tissue mask

    A shallow embedding of
      - [histocartography/preprocessing/feature_extraction.py]
      - [histocartography/preprocessing/tissue_mask.py]
    and the properties of the specification that concern them.

    Conventions.
      - numpy integer arrays are lists of [Z]; a 2-D array is a list of rows;
      - Python exceptions are values of [exn], fallible code returns
        [result A] and is sequenced with stdpp's [x ← e; k] notation;
      - counts (results of [return_counts=True], [len]) are [nat];
      - numpy, scipy, skimage, cv2 and torch routines that compute
        floating-point numbers or process images are parameters (section
        variables, or the fields of a class of routines): the theorems
        hold for every behaviour of those routines, and the examples run
        on instances given next to the models. *)

From Stdlib Require Import ZArith QArith Qround Qcanon String Ascii.
From stdpp Require Import base tactics option list numbers sorting strings.

Local Open Scope Z_scope.

(** ** Python exceptions and results *)

Inductive exn : Set :=
| ValueError
| IndexError
| AssertionError
| NotImplementedError
| RuntimeError
| ZeroDivisionError
| Cv2Error.

Inductive result (A : Type) : Type :=
| Ok (a : A)
| Raise (e : exn).
Arguments Ok {A} a.
Arguments Raise {A} e.

#[global] Instance result_ret : MRet result := λ A a, Ok a.
#[global] Instance result_bind : MBind result := λ A B f m,
  match m with
  | Ok a => f a
  | Raise e => Raise e
  end.

#[global] Instance exn_eq_dec : EqDecision exn.
Proof. solve_decision. Defined.

Definition is_Ok {A} (r : result A) : Prop := ∃ a, r = Ok a.

(** [assert b] *)
Definition py_assert (b : bool) : result unit :=
  if b then Ok () else Raise AssertionError.

(** [for x in l: body x], stopping at the first exception *)
Fixpoint for_each {A} (body : A → result unit) (l : list A) : result unit :=
  match l with
  | [] => Ok ()
  | x :: l' => _ ← body x; for_each body l'
  end.

(** [for x in l: acc = body acc x], stopping at the first exception *)
Fixpoint for_fold {A S} (body : S → A → result S) (acc : S) (l : list A)
  : result S :=
  match l with
  | [] => Ok acc
  | x :: l' => acc' ← body acc x; for_fold body acc' l'
  end.

(** ** numpy on integer arrays *)

Module Numpy.

(** Number of occurrences of [x] in [a]. *)
Definition count (x : Z) (a : list Z) : nat :=
  length (filter (λ y, y = x) a).

(** [np.unique(a)]: the distinct values of [a] in ascending order. *)
Definition unique (a : list Z) : list Z :=
  merge_sort Z.le (remove_dups a).

(** [np.unique(a, return_counts=True)]: the distinct values in ascending
    order, and for each the number of times it comes up in [a]. *)
Definition unique_counts (a : list Z) : list Z * list nat :=
  let u := unique a in (u, (λ v, count v a) <$> u).

(** [a.argmax()]: index of the first maximum; [ValueError] on an empty
    array. *)
Fixpoint argmax_from (best_i best : nat) (i : nat) (l : list nat) : nat :=
  match l with
  | [] => best_i
  | x :: l' =>
      if decide (best < x)%nat then argmax_from i x (S i) l'
      else argmax_from best_i best (S i) l'
  end.

Definition argmax (l : list nat) : result nat :=
  match l with
  | [] => Raise ValueError
  | x :: l' => Ok (argmax_from 0 x 1 l')
  end.

(** [a.max()]: [ValueError] on an empty array. *)
Definition amax (l : list Z) : result Z :=
  match l with
  | [] => Raise ValueError
  | x :: l' => Ok (foldl Z.max x l')
  end.

(** [a[k]] for an index the code computed itself (non-negative). *)
Definition getitem {A} (a : list A) (k : nat) : result A :=
  match a !! k with
  | Some x => Ok x
  | None => Raise IndexError
  end.

(** [a.ravel()] of a 2-D array. *)
Definition ravel {A} (a : list (list A)) : list A := concat a.

(** Two 2-D arrays have the same shape (row by row). *)
Definition same_shape {A B} (a : list (list A)) (b : list (list B)) : bool :=
  bool_decide (length <$> a = length <$> b).

(** [b[a == i]]: the entries of [b] where [a] holds [i], in row-major
    order; [IndexError] when the boolean index does not have the shape of
    the indexed array. *)
Definition index_where_eq (b a : list (list Z)) (i : Z) : result (list Z) :=
  if same_shape a b then
    Ok ((filter (λ p, p.1 = i) (zip (ravel a) (ravel b))).*2)
  else Raise IndexError.

(** An index [i] into an axis of length [n] as numpy reads it: a negative
    index counts from the end, [IndexError] outside [-n, n). *)
Definition axis_index (n : nat) (i : Z) : result nat :=
  if decide (0 ≤ i < Z.of_nat n) then Ok (Z.to_nat i)
  else if decide (- Z.of_nat n ≤ i < 0) then Ok (Z.to_nat (i + Z.of_nat n))
  else Raise IndexError.

(** [np.concatenate(arrays)]: [ValueError] on an empty sequence. *)
Definition concatenate {A} (arrays : list (list A)) : result (list A) :=
  match arrays with
  | [] => Raise ValueError
  | _ => Ok (concat arrays)
  end.

End Numpy.

(** ** Python dictionaries with integer keys

    A [dict] keeps its keys in insertion order and each key once: an
    association list that is only extended at its end. *)

Module Dict.

Definition t (V : Type) : Type := list (Z * V).

Fixpoint get {V} (d : t V) (k : Z) : option V :=
  match d with
  | [] => None
  | (k', v) :: d' => if decide (k = k') then Some v else get d' k
  end.

Definition keys {V} (d : t V) : list Z := d.*1.
Definition values {V} (d : t V) : list V := d.*2.

(** [k in d] *)
Definition contains {V} (d : t V) (k : Z) : bool :=
  bool_decide (is_Some (get d k)).

(** [d[k].append(x)] on a [defaultdict(list)]: a missing key is created
    with an empty list first. *)
Fixpoint append {A} (d : t (list A)) (k : Z) (x : A) : t (list A) :=
  match d with
  | [] => [(k, [x])]
  | (k', vs) :: d' =>
      if decide (k = k') then (k', vs ++ [x]) :: d'
      else (k', vs) :: append d' k x
  end.

End Dict.

(** ** Instance-map feature merging: the translator *)

Module FeatureMerger.
Import Numpy.

(** An instance map: a 2-D integer array, 0 is the background. *)
Definition instance_map : Type := list (list Z).

(** merged-map id ↦ array of original-map ids *)
Definition translator : Type := Dict.t (list Z).

(** [FeatureMerger._check_translator_consistency] *)
Definition _check_translator_consistency
    (im mm : instance_map) (tr : translator) : result unit :=
  _ ← for_each (λ instance_id,
         _ ← py_assert (Dict.contains tr instance_id);
         py_assert (bool_decide
           (0 < length (default [] (Dict.get tr instance_id)))%nat))
       (unique (ravel mm));
  all_values ← concatenate (Dict.values tr);
  _ ← py_assert (bool_decide
         (length all_values = length (remove_dups all_values)));
  for_each (λ instance_id,
      py_assert (bool_decide (instance_id ∈ all_values)))
    (unique (ravel im)).

(** The body of the loop of [_get_translator] for the instance id [i]. *)
Definition assign (im mm : instance_map) (tr : translator) (i : Z)
  : result translator :=
  sel ← index_where_eq mm im i;
  let '(assignments, counts) := unique_counts sel in
  k ← argmax counts;
  assignment ← getitem assignments k;
  Ok (Dict.append tr assignment i).

(** [FeatureMerger._get_translator] *)
Definition _get_translator (im mm : instance_map) : result translator :=
  mx ← amax (ravel im);
  let nr_spx := mx + 1 in
  tr ← for_fold (assign im mm) [] (seqZ 1 (nr_spx - 1));
  _ ← _check_translator_consistency im mm tr;
  Ok tr.

End FeatureMerger.

(** ** Tensors: a shape and the values in row-major order *)

Module Tensor.

Record t (F : Type) : Type := mk { shape : list nat; data : list F }.
Arguments mk {F} shape data.
Arguments shape {F} _.
Arguments data {F} _.

Definition numel (sh : list nat) : nat := foldr Nat.mul 1%nat sh.

(** The invariant of an array: as many values as the shape says. *)
Definition wf {F} (a : t F) : Prop := length (data a) = numel (shape a).

(** [len(a.shape)] *)
Definition rank {F} (a : t F) : nat := length (shape a).

(** [a.shape[0]] and the number of values of one entry [a[i]]. *)
Definition len0 {F} (a : t F) : nat := hd 0%nat (shape a).
Definition row_size {F} (a : t F) : nat := numel (tail (shape a)).

(** [a[i]], flattened, for [i] in range. *)
Definition row {F} (a : t F) (i : nat) : list F :=
  take (row_size a) (drop (i * row_size a) (data a)).

Definition rows {F} (a : t F) : list (list F) := row a <$> seq 0 (len0 a).

End Tensor.

(** The mean over exact rationals, a reading of [torch.mean] that the
    examples use (0 for no value, where torch gives [nan]). *)
Definition Qc_mean (l : list Qc) : Qc :=
  (foldr Qcplus (Q2Qc 0) l / Q2Qc (inject_Z (Z.of_nat (length l))))%Qc.

(** ** Instance-map feature merging: averaging *)

Module AverageFeatureMerger.
Import Numpy.

Section Merge.
Context {F : Type}.
(** [torch.mean] of a sequence of values ([nan] for none). *)
Variable mean : list F → F.
(** What the memory handed out by [np.empty] holds. *)
Variable uninit : F.

(** [features[idx]] for an integer array [idx]: entries along axis 0. *)
Definition take_rows (features : Tensor.t F) (idx : list Z)
  : result (list (list F)) :=
  mapM (λ i, k ← axis_index (Tensor.len0 features) i;
             Ok (Tensor.row features k)) idx.

(** [rows.mean(axis=0)]: the elementwise mean of entries of [size] values. *)
Definition mean_axis0 (size : nat) (rows : list (list F)) : list F :=
  (λ j, mean (omap (λ r, r !! j) rows)) <$> seq 0 size.

(** [merged[i] = m]: the entry is replaced as a whole; the value must have
    the shape of an entry ([ValueError]: could not broadcast). *)
Definition set_row (size : nat) (merged : list (list F)) (i : Z) (m : list F)
  : result (list (list F)) :=
  k ← axis_index (length merged) i;
  if decide (length m = size) then Ok (<[k := m]> merged)
  else Raise ValueError.

(** One turn of the loop shared by the two merging functions:
[[
    for index, values in translator.items():
        merged_features[index - 1] = features[values - 1].mean(axis=0)
]]
    [size] is the number of values of one entry of [merged_features]. *)
Definition merge_step (features : Tensor.t F) (size : nat)
    (merged : list (list F)) (item : Z * list Z) : result (list (list F)) :=
  let '(index, values) := item in
  selected ← take_rows features ((λ v, v - 1) <$> values);
  set_row size merged (index - 1)
    (mean_axis0 (Tensor.row_size features) selected).

(** The loop, started on [merged_features = np.empty((len(translator), ...))]. *)
Definition merge_loop (features : Tensor.t F) (size : nat)
    (translator : Dict.t (list Z)) : result (list (list F)) :=
  for_fold (merge_step features size)
    (replicate (length translator) (replicate size uninit))
    translator.

(** [AverageFeatureMerger._merge_features] *)
Definition _merge_features (features : Tensor.t F)
    (translator : Dict.t (list Z)) : result (Tensor.t F) :=
  latent_dim ← getitem (Tensor.shape features) 1;
  merged ← merge_loop features latent_dim translator;
  Ok (Tensor.mk [length translator; latent_dim] (concat merged)).

(** [AverageFeatureMerger._merge_augmented_features] *)
Definition _merge_augmented_features (features : Tensor.t F)
    (translator : Dict.t (list Z)) : result (Tensor.t F) :=
  nr_augmentations ← getitem (Tensor.shape features) 1;
  latent_dim ← getitem (Tensor.shape features) 2;
  merged ← merge_loop features (nr_augmentations * latent_dim) translator;
  Ok (Tensor.mk [length translator; nr_augmentations; latent_dim]
        (concat merged)).

(** [AverageFeatureMerger.process] *)
Definition process (features : Tensor.t F) (translator : Dict.t (list Z))
  : result (Tensor.t F) :=
  if decide (Tensor.rank features = 2%nat) then
    _merge_features features translator
  else if decide (Tensor.rank features = 3%nat) then
    _merge_augmented_features features translator
  else Raise NotImplementedError.

End Merge.
End AverageFeatureMerger.

(** ** Python slices and rounding *)

Module Py.

(** One bound of a slice over a sequence of [len] items, as
    [slice.indices] computes it: a negative bound counts from the end, and
    the result is clipped to [0, len]. *)
Definition slice_bound (len : nat) (i : Z) : nat :=
  if decide (i < 0) then Z.to_nat (Z.max 0 (i + Z.of_nat len))
  else Z.to_nat (Z.min i (Z.of_nat len)).

(** [start:stop] over [len] items: first position and number of items. *)
Definition slice_range (len : nat) (start stop : Z) : nat * nat :=
  let a := slice_bound len start in
  let b := slice_bound len stop in
  (a, (b - a)%nat).

(** [l[start:stop]] *)
Definition slice {A} (l : list A) (start stop : Z) : list A :=
  let '(a, n) := slice_range (length l) start stop in take n (drop a l).

(** [round(x)] of a float with the value [x]: to the nearest integer, a tie
    to the even one. *)
Definition round (x : Q) : Z :=
  let n := Qnum x in
  let d := Z.pos (Qden x) in
  let f := n `div` d in
  let r2 := 2 * (n `mod` d) in
  if decide (r2 < d) then f
  else if decide (d < r2) then f + 1
  else if Z.even f then f else f + 1.

End Py.

(** ** 2-D arrays as lists of rows *)

Module Array2.

(** [a.shape[0]], [a.shape[1]] *)
Definition height {A} (a : list (list A)) : nat := length a.
Definition width {A} (a : list (list A)) : nat := length (default [] (head a)).

(** An array of [h] rows of [w] entries. *)
Definition rect {A} (h w : nat) (a : list (list A)) : Prop :=
  length a = h ∧ Forall (λ row, length row = w) a.

#[global] Instance rect_dec {A} h w (a : list (list A)) : Decision (rect h w a).
Proof. unfold rect. apply _. Defined.

(** [a[x][y]] *)
Definition at_ {A} (a : list (list A)) (x y : nat) : option A :=
  a !! x ≫= λ row, row !! y.

(** [a[x0:x1, y0:y1]] *)
Definition slice2 {A} (a : list (list A)) (x0 x1 y0 y1 : Z) : list (list A) :=
  (λ row, Py.slice row y0 y1) <$> Py.slice a x0 x1.

(** The array [base] after a write through a view whose corner is
    [(xa, ya)]: where [src] holds [Some v], the entry becomes [v]. *)
Definition paste {A} (base : list (list A)) (xa ya : nat)
    (src : list (list (option A))) : list (list A) :=
  imap (λ x row,
    imap (λ y old,
      if decide (xa ≤ x ∧ ya ≤ y)%nat
      then default old (mjoin (at_ src (x - xa) (y - ya)))
      else old) row) base.

End Array2.

(** ** skimage.measure.regionprops *)

Module Skimage.
Import Numpy.

(** A region: its label and the coordinates [(row, col)] of its pixels in
    row-major order. *)
Record region : Type := { label : Z; coords : list (nat * nat) }.

(** The pixels of a label image with their coordinates, row-major. *)
Definition pixels (a : list (list Z)) : list ((nat * nat) * Z) :=
  concat (imap (λ r row, imap (λ c v, ((r, c), v)) row) a).

Definition coords_of (a : list (list Z)) (l : Z) : list (nat * nat) :=
  (filter (λ p, p.2 = l) (pixels a)).*1.

(** One region per positive label that occurs, in ascending label order. *)
Definition regionprops (label_image : list (list Z)) : list region :=
  (λ l, {| label := l; coords := coords_of label_image l |})
    <$> filter (λ l, 0 < l) (unique (ravel label_image)).

Definition rows_of (r : region) : list Z := (λ p, Z.of_nat p.1) <$> coords r.
Definition cols_of (r : region) : list Z := (λ p, Z.of_nat p.2) <$> coords r.

Definition minimum (l : list Z) : Z := foldr Z.min (default 0 (head l)) l.
Definition maximum (l : list Z) : Z := foldr Z.max (default 0 (head l)) l.

(** [region.bbox]: [(min_row, min_col, max_row, max_col)], half-open. *)
Definition bbox (r : region) : Z * Z * Z * Z :=
  (minimum (rows_of r), minimum (cols_of r),
   maximum (rows_of r) + 1, maximum (cols_of r) + 1).

(** [region.centroid]: the mean row and the mean column. *)
Definition mean_coord (l : list Z) : Q :=
  Qmake (foldr Z.add 0 l) (Pos.of_nat (length l)).
Definition centroid (r : region) : Q * Q :=
  (mean_coord (rows_of r), mean_coord (cols_of r)).

End Skimage.

(** ** InstanceMapPatchDataset *)

Module InstanceMapPatchDataset.
Import Numpy.

(** A pixel of an RGB image: three [uint8] channels; an image: its rows. *)
Abbreviation rgb := (Z * Z * Z)%type (only parsing).
Abbreviation image := (list (list (Z * Z * Z))) (only parsing).

Record t : Type := mk {
  image_ : image;
  instance_map : list (list Z);
  properties : list Skimage.region;
  patch_size : nat * nat * nat;
  fill_value : option Z
}.

(** [InstanceMapPatchDataset.__init__] (the transform is a parameter of
    [__getitem__]). *)
Definition __init__ (img : image) (imap : list (list Z)) (size : nat)
    (fill : option Z) : t :=
  {| image_ := img; instance_map := imap;
     properties := Skimage.regionprops imap;
     patch_size := (size, size, 3%nat); fill_value := fill |}.

(** The crop window [(min_x, max_x, min_y, max_y)] that
    [_get_instance_patch] reads, after the clipping to the image. *)
Definition crop_window (self : t) (region_property : Skimage.region)
  : Z * Z * Z * Z :=
  let size0 := Z.of_nat (patch_size self).1.1 in
  let size1 := Z.of_nat (patch_size self).1.2 in
  (* Extract center *)
  let '(center_x, center_y) := Skimage.centroid region_property in
  let center_x := Py.round center_x in
  let center_y := Py.round center_y in
  (* Extract only super pixel *)
  let '(bmin_x, bmin_y, bmax_x, bmax_y) := Skimage.bbox region_property in
  let x_length := bmax_x - bmin_x in
  let y_length := bmax_y - bmin_y in
  (* Handle no mask scenario and too large instance maps *)
  let '(min_x, max_x) :=
    if decide (fill_value self = None ∨ x_length > size0)
    then (center_x - size0 `div` 2, center_x + size0 `div` 2)
    else (bmin_x, bmax_x) in
  let '(min_y, max_y) :=
    if decide (fill_value self = None ∨ y_length > size1)
    then (center_y - size1 `div` 2, center_y + size1 `div` 2)
    else (bmin_y, bmax_y) in
  (* Handle border cases *)
  let min_x := Z.max 0 min_x in
  let min_y := Z.max 0 min_y in
  let max_x := Z.min (Z.of_nat (Array2.height (image_ self))) max_x in
  let max_y := Z.min (Z.of_nat (Array2.width (image_ self))) max_y in
  (min_x, max_x, min_y, max_y).

(** The masked write of [_get_instance_patch],
[[
    image_region = self.image[min_x:max_x, min_y:max_y]
    mask_region = (self.instance_map != region_property.label)[
        min_x:max_x, min_y:max_y]
    if self.fill_value is not None:
        image_region[mask_region] = self.fill_value
]]
    [image_region] is a view of [self.image], so the write goes to the
    image itself: the result is [self.image] after it. [IndexError] when
    the mask does not have the shape of the view. *)
Definition fill_outside (self : t) (region_property : Skimage.region)
    (window : Z * Z * Z * Z) : result image :=
  let '(min_x, max_x, min_y, max_y) := window in
  let mask_region :=
    Array2.slice2
      ((λ row : list Z,
          (λ v, bool_decide (v ≠ Skimage.label region_property)) <$> row)
         <$> instance_map self)
      min_x max_x min_y max_y in
  match fill_value self with
  | Some fill =>
      if same_shape mask_region
           (Array2.slice2 (image_ self) min_x max_x min_y max_y)
      then Ok (Array2.paste (image_ self)
                 (Py.slice_bound (Array2.height (image_ self)) min_x)
                 (Py.slice_bound (Array2.width (image_ self)) min_y)
                 ((λ row : list bool, (λ m : bool,
                      if m then Some (fill, fill, fill) else None) <$> row)
                    <$> mask_region))
      else Raise IndexError
  | None => Ok (image_ self)
  end.

(** The copy into the patch,
[[
    output_image[
        image_top_left[0] : image_top_left[0] + x_length,
        image_top_left[1] : image_top_left[1] + y_length,
    ] = image_region
]]
    where [image_region] is read from [img], the image after the masked
    write. [ValueError] when the region does not have the shape of the
    slice it is assigned to. *)
Definition copy_region (self : t) (window : Z * Z * Z * Z) (img : image)
  : result image :=
  let '(min_x, max_x, min_y, max_y) := window in
  let size0 := (patch_size self).1.1 in
  let size1 := (patch_size self).1.2 in
  let x_length := max_x - min_x in
  let y_length := max_y - min_y in
  let background := default 255 (fill_value self) in
  let output_image :=
    replicate size0 (replicate size1 (background, background, background)) in
  let image_top_left :=
    ((Z.of_nat size0 - x_length) `div` 2, (Z.of_nat size1 - y_length) `div` 2) in
  let image_region := Array2.slice2 img min_x max_x min_y max_y in
  let '(xa, xn) :=
    Py.slice_range size0 image_top_left.1 (image_top_left.1 + x_length) in
  let '(ya, yn) :=
    Py.slice_range size1 image_top_left.2 (image_top_left.2 + y_length) in
  if bool_decide (Array2.rect xn yn image_region)
  then Ok (Array2.paste output_image xa ya
             ((λ row : list rgb, Some <$> row) <$> image_region))
  else Raise ValueError.

(** [InstanceMapPatchDataset._get_instance_patch]: the patch, and
    [self.image] as the call leaves it. *)
Definition _get_instance_patch (self : t) (region_property : Skimage.region)
  : result (image * image) :=
  let window := crop_window self region_property in
  let '(min_x, max_x, min_y, max_y) := window in
  let x_length := max_x - min_x in
  let y_length := max_y - min_y in
  _ ← py_assert (bool_decide (x_length ≤ Z.of_nat (patch_size self).1.1));
  _ ← py_assert (bool_decide (y_length ≤ Z.of_nat (patch_size self).1.2));
  img ← fill_outside self region_property window;
  output_image ← copy_region self window img;
  Ok (output_image, img).

End InstanceMapPatchDataset.

(** ** DeepFeatureExtractor *)

Module DeepFeatureExtractor.
Import Numpy InstanceMapPatchDataset.

(** [self.image = img] *)
Definition with_image (self : t) (img : image) : t :=
  {| image_ := img; instance_map := instance_map self;
     properties := properties self; patch_size := patch_size self;
     fill_value := fill_value self |}.

Section Deep.
Context {T E : Type}.
(** [self.dataset_transform] on the PIL image of a patch: resize, to
    tensor, normalise. *)
Variable dataset_transform : image → T.
(** The backbone without its classifier, in evaluation mode, on one sample
    of a batch: the embedding, of [num_features] values. *)
Variable model : T → list E.
(** [self.patch_feature_extractor.num_features] *)
Variable num_features : nat.
(** What the memory handed out by [torch.empty] holds. *)
Variable uninit : E.

(** [InstanceMapPatchDataset.__getitem__]: the item, and the dataset as the
    call leaves it. *)
Definition __getitem__ (self : t) (index : nat) : result ((nat * T) * t) :=
  region ← getitem (properties self) index;
  '(input_image, img) ← _get_instance_patch self region;
  let transformed_image := dataset_transform input_image in
  Ok ((index, transformed_image), with_image self img).

(** [InstanceMapPatchDataset.__len__] *)
Definition __len__ (self : t) : nat := length (properties self).

(** The loader fetches the items of one batch, one index after the other
    on the same dataset object ([num_workers = 0]; worker processes would
    each write to a copy of the dataset), and collates them. *)
Definition load_batch (self : t) (indices : list nat)
  : result (list (nat * T) * t) :=
  for_fold (λ '(items, self) index,
      '(item, self') ← __getitem__ self index;
      Ok (items ++ [item], self'))
    ([], self) indices.

(** [PatchFeatureExtractor.__call__] before [squeeze]: one row per sample. *)
Definition patch_feature_extractor (patch : list T) : list (list E) :=
  model <$> patch.

(** [features[i, :] = embeddings] for the index tensor [i] of a batch and
    the squeezed output of the extractor. [squeeze] drops the axes of
    length 1: with one feature and several samples what is left has the
    shape [[B]], which does not broadcast to [[B, 1]] ([RuntimeError], as
    for rows that do not have [num_features] values); with one sample the
    row that is left broadcasts to the one row written. *)
Definition store (features : list (list E)) (i : list nat)
    (embeddings : list (list E)) : result (list (list E)) :=
  if bool_decide (Forall (λ row, length row = num_features) embeddings) then
    if bool_decide (num_features = 1 ∧ 1 < length i)%nat then Raise RuntimeError
    else
      for_fold (λ features '(k, row),
          if decide (k < length features)%nat then Ok (<[k := row]> features)
          else Raise IndexError)
        features (zip i embeddings)
  else Raise RuntimeError.

(** The loop of [_extract_features] over the batches of the loader,
[[
    for i, image_batch in image_loader:
        embeddings = self.patch_feature_extractor(image_batch)
        features[i, :] = embeddings
]]
    [schedule] lists the indices of each batch in the order in which the
    batches arrive. *)
Definition extract_loop (schedule : list (list nat)) (image_dataset : t)
    (features : list (list E)) : result (list (list E)) :=
  '(features, _) ← for_fold (λ '(features, self) indices,
      '(batch, self') ← load_batch self indices;
      let i := batch.*1 in
      let image_batch := batch.*2 in
      let embeddings := patch_feature_extractor image_batch in
      features' ← store features i embeddings;
      Ok (features', self'))
    (features, image_dataset) schedule;
  Ok features.

(** [_extract_features] for a given order of the batches. *)
Definition _extract_features_on (schedule : list (list nat)) (size : nat)
    (fill_value : option Z) (input_image : image)
    (instance_map : list (list Z)) : result (list (list E)) :=
  let image_dataset := __init__ input_image instance_map size fill_value in
  let features :=
    replicate (__len__ image_dataset) (replicate num_features uninit) in
  extract_loop schedule image_dataset features.

(** The batches of [DataLoader(shuffle=False, batch_size=...)] over [n]
    items: consecutive indices, the last batch may be shorter. *)
Definition sequential_batches (batch_size n : nat) : list (list nat) :=
  (λ k, take batch_size (drop (k * batch_size) (seq 0 n)))
    <$> seq 0 ((n + batch_size - 1) `div` batch_size).

(** [DeepFeatureExtractor._extract_features], with [self.size],
    [self.mask] (the fill value is 255 when set) and [self.batch_size];
    the loader refuses a batch size that is not positive. *)
Definition _extract_features (size : nat) (mask : bool) (batch_size : nat)
    (input_image : image) (instance_map : list (list Z))
  : result (list (list E)) :=
  let fill_value := if mask then Some 255 else None in
  if decide (batch_size = 0)%nat then Raise ValueError
  else
    _extract_features_on
      (sequential_batches batch_size
         (length (Skimage.regionprops instance_map)))
      size fill_value input_image instance_map.

End Deep.
End DeepFeatureExtractor.

(** ** HandcraftedFeatureExtractor *)

Module HandcraftedFeatureExtractor.
Import Numpy.

(** The region properties and the co-occurrence statistics the extractor
    asks for, in the order of the source. *)
Inductive shape_prop : Set :=
| area | convex_area | eccentricity | equivalent_diameter | euler_number
| extent | filled_area | major_axis_length | minor_axis_length | orientation
| perimeter | solidity.

Inductive glcm_prop : Set :=
| contrast | dissimilarity | homogeneity | energy | ASM.

(** The numeric routines of numpy, scipy, skimage and cv2 that the
    extractor calls, over a type [F] of floating-point values. *)
Class Lib (F : Type) : Type := {
  (** [region[name]] *)
  region_prop : shape_prop → Skimage.region → F;
  (** [count / mask_size], an integer by an integer *)
  true_divide : nat → nat → F;
  np_mean : list Z → F;
  np_std : list Z → F;
  np_median : list Z → F;
  scipy_skew : list Z → F;
  (** [cv2.cvtColor(..., cv2.COLOR_RGB2GRAY)] on one pixel *)
  rgb2gray : Z * Z * Z → Z;
  (** [skimage.filters.rank.entropy(img_gray, disk(3))] *)
  rank_entropy : list (list Z) → list (list F);
  (** [cv2.mean(img, mask=...)[0]], given the values under the mask *)
  cv2_mean : list F → F;
  (** [greycoprops(P, prop)[0, 0]] for a matrix [P] of counts *)
  greycoprops : list (list nat) → glcm_prop → F
}.

(** [np.histogram(codes, bins=np.arange(0, 257, 32))]: 8 bins of width 32,
    the last one closed on the right. *)
Definition histogram (codes : list Z) : list nat :=
  (λ k, length (filter (λ c, 32 * k ≤ c < 32 * (k + 1) ∨ (k = 7 ∧ c = 256))
                  codes))
    <$> seqZ 0 8.

(** [a[idx[0], idx[1]]] for coordinates inside [a]. *)
Definition take_at {A} (a : list (list A)) (idx : list (nat * nat)) : list A :=
  omap (λ p, Array2.at_ a p.1 p.2) idx.

(** [np.where(mask != 0)]: the coordinates of the nonzero entries,
    row-major. *)
Definition where_nonzero (mask : list (list Z)) : list (nat * nat) :=
  (filter (λ p, p.2 ≠ 0) (Skimage.pixels mask)).*1.

(** [greycomatrix(image, [1], [0])]: entry [(i, j)] counts the pixels of
    gray level [i] whose right neighbour has gray level [j], over 256
    levels. *)
Definition greycomatrix (image : list (list Z)) : list (list nat) :=
  let pairs := concat ((λ row : list Z, zip row (drop 1 row)) <$> image) in
  (λ i, (λ j, length (filter (λ p, p = (i, j)) pairs)) <$> seqZ 0 256)
    <$> seqZ 0 256.

(** [np.vstack(rows)]: [ValueError] without rows. *)
Definition vstack {A} (rows : list (list A)) : result (list (list A)) :=
  match rows with
  | [] => Raise ValueError
  | _ => Ok rows
  end.

Section Extract.
Context {F : Type} `{Lib F}.

(** [HandcraftedFeatureExtractor._color_features_per_channel] *)
Definition _color_features_per_channel (img_rgb_ch img_rgb_sq_ch : list (list Z))
    (mask_idx : list (nat * nat)) (mask_size : nat) : list F :=
  let codes := take_at img_rgb_ch mask_idx in
  let hist := histogram codes in  (* 8 bins *)
  let feats_ := (λ count, true_divide count mask_size) <$> hist in
  let color_mean := np_mean codes in
  let color_std := np_std codes in
  let color_median := np_median codes in
  let color_skewness := scipy_skew codes in
  let codes := take_at img_rgb_sq_ch mask_idx in
  let color_energy := np_mean codes in
  feats_ ++ [color_mean; color_std; color_median; color_skewness; color_energy].

(** The shape features of a region. *)
Definition feats_shape (region : Skimage.region) : list F :=
  [region_prop area region; region_prop convex_area region;
   region_prop eccentricity region; region_prop equivalent_diameter region;
   region_prop euler_number region; region_prop extent region;
   region_prop filled_area region; region_prop major_axis_length region;
   region_prop minor_axis_length region; region_prop orientation region;
   region_prop perimeter region; region_prop solidity region].

(** The texture features: the mean entropy under the mask and the
    statistics of the co-occurrence matrix without its first row and
    column. *)
Definition feats_texture (img_entropy : list (list F)) (sp_gray : list (list Z))
    (mask_idx : list (nat * nat)) : list F :=
  let entropy := cv2_mean (take_at img_entropy mask_idx) in
  let glcm := greycomatrix sp_gray in
  let filt_glcm := drop 1 <$> drop 1 glcm in
  [entropy; greycoprops filt_glcm contrast;
   greycoprops filt_glcm dissimilarity; greycoprops filt_glcm homogeneity;
   greycoprops filt_glcm energy; greycoprops filt_glcm ASM].

(** The body of the loop of [_extract_features] for one region.
    [cv2.bitwise_and] refuses a mask that does not have the size of the
    image. *)
Definition sp_feats (input_image : list (list (Z * Z * Z)))
    (instance_map img_gray : list (list Z))
    (img_square : list (list (Z * Z * Z))) (img_entropy : list (list F))
    (region : Skimage.region) : result (list F) :=
  let sp_mask :=
    (λ row : list Z,
       (λ v, if decide (v = Skimage.label region) then 1 else 0) <$> row)
      <$> instance_map in
  if same_shape input_image sp_mask then
    let sp_rgb :=
      zip_with (zip_with (λ (px : Z * Z * Z) (m : Z),
                            if decide (m = 0) then (0, 0, 0) else px))
        input_image sp_mask in
    let sp_gray :=
      zip_with (zip_with (λ g m, (g * m) `mod` 256)) img_gray sp_mask in
    let mask_size := length (filter (λ m, m ≠ 0) (ravel sp_mask)) in
    let mask_idx := where_nonzero sp_mask in
    (* (rgb color space) [13 x 3 features] *)
    let feats_r :=
      _color_features_per_channel
        ((λ row : list (Z * Z * Z), (λ px, px.1.1) <$> row) <$> sp_rgb)
        ((λ row : list (Z * Z * Z), (λ px, px.1.1) <$> row) <$> img_square)
        mask_idx mask_size in
    let feats_g :=
      _color_features_per_channel
        ((λ row : list (Z * Z * Z), (λ px, px.1.2) <$> row) <$> sp_rgb)
        ((λ row : list (Z * Z * Z), (λ px, px.1.2) <$> row) <$> img_square)
        mask_idx mask_size in
    let feats_b :=
      _color_features_per_channel
        ((λ row : list (Z * Z * Z), (λ px, px.2) <$> row) <$> sp_rgb)
        ((λ row : list (Z * Z * Z), (λ px, px.2) <$> row) <$> img_square)
        mask_idx mask_size in
    let feats_color := concat [feats_r; feats_g; feats_b] in
    Ok (feats_shape region ++ feats_color
          ++ feats_texture img_entropy sp_gray mask_idx)
  else Raise Cv2Error.

(** [HandcraftedFeatureExtractor._extract_features]; [np.square] of a
    [uint8] image wraps around. *)
Definition _extract_features (input_image : list (list (Z * Z * Z)))
    (instance_map : list (list Z)) : result (list (list F)) :=
  let img_gray := (λ row : list (Z * Z * Z), rgb2gray <$> row) <$> input_image in
  let img_square :=
    (λ row : list (Z * Z * Z),
       (λ px, ((px.1.1 * px.1.1) `mod` 256, (px.1.2 * px.1.2) `mod` 256,
               (px.2 * px.2) `mod` 256)) <$> row) <$> input_image in
  let img_entropy := rank_entropy img_gray in
  (* For each super-pixel *)
  let regions := Skimage.regionprops instance_map in
  node_feat ← mapM (sp_feats input_image instance_map img_gray img_square
                      img_entropy) regions;
  vstack node_feat.

End Extract.

(** The calls themselves as values: an instance of the library in which
    every routine returns the call it was asked, by name and arguments. *)
#[warnings="-register-all"]
Inductive call : Type :=
| Call (name : string) (ints : list Z) (args : list call).

#[export] Instance symbolic : Lib call := {|
  region_prop p region :=
    Call "regionprops"
      [match p with
       | area => 0 | convex_area => 1 | eccentricity => 2
       | equivalent_diameter => 3 | euler_number => 4 | extent => 5
       | filled_area => 6 | major_axis_length => 7 | minor_axis_length => 8
       | orientation => 9 | perimeter => 10 | solidity => 11
       end; Skimage.label region] [];
  true_divide a b := Call "true_divide" [Z.of_nat a; Z.of_nat b] [];
  np_mean codes := Call "np.mean" codes [];
  np_std codes := Call "np.std" codes [];
  np_median codes := Call "np.median" codes [];
  scipy_skew codes := Call "scipy.stats.skew" codes [];
  rgb2gray px := (px.1.1 * 4899 + px.1.2 * 9617 + px.2 * 1868 + 8192) ≫ 14;
  rank_entropy img :=
    imap (λ r row, imap (λ c _, Call "rank.entropy" [Z.of_nat r; Z.of_nat c] [])
                     row) img;
  cv2_mean values := Call "cv2.mean" [] values;
  greycoprops P p :=
    Call "greycoprops"
      (match p with
       | contrast => 0 | dissimilarity => 1 | homogeneity => 2
       | energy => 3 | ASM => 4
       end :: (Z.of_nat <$> concat P)) []
|}.

End HandcraftedFeatureExtractor.

(** ** Tissue mask *)

Module TissueMask.
Import Numpy.

(** The image routines of cv2, skimage and scipy that the tissue mask
    calls. Gray values after smoothing are floating-point numbers: they are
    read as rationals. *)
Class Lib : Type := {
  (** [cv2.cvtColor(..., cv2.COLOR_RGB2GRAY)] on one pixel *)
  rgb2gray : Z * Z * Z → Z;
  (** [skimage.filters.gaussian(image, sigma=sigma, mode="nearest",
      preserve_range=True)] *)
  gaussian : Q → list (list Q) → list (list Q);
  (** [skimage.filters.threshold_otsu] of a flat array *)
  threshold_otsu : list Q → result Q;
  (** [scipy.ndimage.label(mask)[0]] *)
  ndimage_label : list (list Z) → list (list Z);
  (** [cv2.dilate(mask, np.ones((k, k)), iterations=n)] *)
  cv2_dilate : list (list Z) → nat → nat → list (list Z);
  (** [cv2.resize(image, (width, height), interpolation=cv2.INTER_NEAREST)] *)
  cv2_resize : list (list Z) → nat → nat → result (list (list Z));
  cv2_resize_rgb : list (list (Z * Z * Z)) → nat → nat
                   → result (list (list (Z * Z * Z)))
}.

(** [x < y] on gray values; a comparison with [nan] is false. *)
Definition Qltb (x y : Q) : bool := negb (Qle_bool y x).

(** The input of [get_tissue_mask]: an [(m, n, 3)] colour thumbnail or an
    [(m, n)] grayscale one. *)
Inductive thumbnail_image : Type :=
| Color (a : list (list (Z * Z * Z)))
| Gray (a : list (list Q)).

(** [a.mean() < bound] for an array of integers; the mean of no value is
    [nan]. *)
Definition mean_lt (a : list Z) (bound : Q) : bool :=
  match a with
  | [] => false
  | _ => Qltb (Qmake (foldr Z.add 0 a) (Pos.of_nat (length a))) bound
  end.

Section Mask.
Context `{Lib}.

(** One turn of the thresholding loop of [get_tissue_mask]. *)
Definition threshold_step (sigma : Q) (thumbnail : list (list Q))
  : result (list (list Q)) :=
  (* gaussian smoothing of grayscale thumbnail *)
  let thumbnail :=
    if Qltb 0 sigma then gaussian sigma thumbnail else thumbnail in
  (* get threshold to keep analysis region *)
  thresh ←
    match threshold_otsu (filter (λ v, Qltb 0 v = true) (ravel thumbnail)) with
    | Raise ValueError => Ok 0%Q  (* all values are zero *)
    | r => r
    end;
  (* replace pixels outside analysis region with upper quantile pixels *)
  Ok ((λ row : list Q, (λ v, if Qltb v thresh then 0%Q else v) <$> row)
        <$> thumbnail).

Fixpoint thresholding (steps : nat) (sigma : Q) (thumbnail : list (list Q))
  : result (list (list Q)) :=
  match steps with
  | O => Ok thumbnail
  | S steps' =>
      thumbnail' ← threshold_step sigma thumbnail;
      thresholding steps' sigma thumbnail'
  end.

(** [get_tissue_mask]: the labelled regions and the mask of the largest
    one. *)
Definition get_tissue_mask (image : thumbnail_image)
    (n_thresholding_steps : nat) (sigma : Q) (min_size : Z)
  : result (list (list Z) * list (list bool)) :=
  let thumbnail :=
    match image with
    | Color a =>
        (* grayscale thumbnail (inverted); COLOR_BGR2GRAY reads the first
           channel as blue *)
        (λ row : list (Z * Z * Z),
           (λ px, inject_Z (255 - rgb2gray (px.2, px.1.2, px.1.1))) <$> row)
          <$> a
    | Gray a => a
    end in
  thumbnail ← thresholding n_thresholding_steps sigma thumbnail;
  (* convert to binary *)
  let mask :=
    (λ row : list Q, (λ v, if Qltb 0 v then 1 else 0) <$> row) <$> thumbnail in
  (* find connected components *)
  let labeled := ndimage_label mask in
  (* only keep *)
  let '(unique, counts) :=
    unique_counts (filter (λ l, 0 < l) (ravel labeled)) in
  let small :=
    (filter (λ uc, Z.of_nat uc.2 < min_size) (zip unique counts)).*1 in
  let labeled :=
    (λ row : list Z, (λ l, if bool_decide (l ∈ small) then 0 else l) <$> row)
      <$> labeled in
  (* largest tissue region *)
  k ← argmax counts;
  largest ← getitem unique k;
  let mask :=
    (λ row : list Z, (λ l, bool_decide (l = largest)) <$> row) <$> labeled in
  Ok (labeled, mask).

(** The attributes of a [GaussianTissueMask]. *)
Record t : Type := mk {
  n_thresholding_steps : nat;
  sigma : Q;
  min_size : Z;
  kernel_size : nat;
  dilation_steps : nat;
  background_gray_value : Q;
  downsampling_factor : nat
}.

(** [GaussianTissueMask._downsample] *)
Definition _downsample (image : list (list (Z * Z * Z)))
    (downsampling_factor : nat) : result (list (list (Z * Z * Z))) :=
  if decide (downsampling_factor = 0%nat) then Raise ZeroDivisionError
  else
    let new_height := (Array2.height image `div` downsampling_factor)%nat in
    let new_width := (Array2.width image `div` downsampling_factor)%nat in
    cv2_resize_rgb image new_width new_height.

(** [GaussianTissueMask._upsample] *)
Definition _upsample (image : list (list Z)) (new_height new_width : nat)
  : result (list (list Z)) :=
  cv2_resize image new_width new_height.

(** One turn of the loop of [process]: [None] for [break], else the image
    and the tissue mask after the writes. *)
Definition detect_step (self : t) (image_gray : list (list Z))
    (image : list (list (Z * Z * Z))) (tissue_mask : list (list Z))
  : result (option (list (list (Z * Z * Z)) * list (list Z))) :=
  '(_, mask_) ← get_tissue_mask (Color image) (n_thresholding_steps self)
                  (sigma self) (min_size self);
  let mask_ :=
    cv2_dilate
      ((λ row : list bool, (λ b : bool, if b then 1 else 0) <$> row) <$> mask_)
      (kernel_size self) (dilation_steps self) in
  if same_shape mask_ image_gray then
    let image_masked :=
      zip_with (zip_with (λ m g, (m * g) `mod` 256)) mask_ image_gray in
    if mean_lt (filter (λ v, 0 < v) (ravel image_masked))
         (background_gray_value self)
    then
      Ok (Some
            (zip_with (zip_with (λ (px : Z * Z * Z) (m : Z),
                                   if decide (m ≠ 0) then (255, 255, 255) else px))
               image mask_,
             zip_with (zip_with (λ (old m : Z), if decide (m ≠ 0) then 1 else old))
               tissue_mask mask_))
    else Ok None
  else Raise ValueError.

(** The loop [while True: ...] of [process], with a bound on the number of
    turns: [None] when the bound is reached before the loop is left. *)
Fixpoint detect (fuel : nat) (self : t) (image_gray : list (list Z))
    (image : list (list (Z * Z * Z))) (tissue_mask : list (list Z))
  : option (result (list (list Z))) :=
  match fuel with
  | O => None
  | S fuel' =>
      match detect_step self image_gray image tissue_mask with
      | Raise e => Some (Raise e)
      | Ok None => Some (Ok tissue_mask)
      | Ok (Some (image', tissue_mask')) =>
          detect fuel' self image_gray image' tissue_mask'
      end
  end.

(** [GaussianTissueMask.process] *)
Definition process (fuel : nat) (self : t) (image : list (list (Z * Z * Z)))
  : option (result (list (list Z))) :=
  (* Downsample image *)
  let original_height := Array2.height image in
  let original_width := Array2.width image in
  match (if decide (downsampling_factor self ≠ 1%nat)
         then _downsample image (downsampling_factor self)
         else Ok image) with
  | Raise e => Some (Raise e)
  | Ok image =>
      let tissue_mask :=
        replicate (Array2.height image) (replicate (Array2.width image) 0) in
      let image_gray :=
        (λ row : list (Z * Z * Z), rgb2gray <$> row) <$> image in
      (* Detect tissue region *)
      match detect fuel self image_gray image tissue_mask with
      | None => None
      | Some (Raise e) => Some (Raise e)
      | Some (Ok tissue_mask) =>
          Some (_upsample tissue_mask original_height original_width)
      end
  end.

End Mask.
End TissueMask.

(** ** A reference instance of the image routines

    Executable readings of the routines, used by the examples: exact on
    integer gray levels and without smoothing (the examples run with
    [sigma = 0], where [gaussian] is not called). *)

Module Reference.
Import Numpy.

(** 8-bit [RGB2GRAY] in fixed point: 0.299 R + 0.587 G + 0.114 B. *)
Definition rgb2gray (px : Z * Z * Z) : Z :=
  (px.1.1 * 4899 + px.1.2 * 9617 + px.2 * 1868 + 8192) ≫ 14.

(** Otsu's threshold over integer gray levels: the level [t] that
    maximises the between-class variance of [values ≤ t] and [values > t],
    the first one of several. An array of one value or none is refused, as
    by the skimage release of the source. *)
Definition between_class_variance (values : list Z) (t : Z) : Q :=
  let low := filter (λ v, v ≤ t) values in
  let high := filter (λ v, t < v) values in
  let w1 := Z.of_nat (length low) in
  let w2 := Z.of_nat (length high) in
  let m1 := Qmake (foldr Z.add 0 low) (Pos.of_nat (length low)) in
  let m2 := Qmake (foldr Z.add 0 high) (Pos.of_nat (length high)) in
  (inject_Z (w1 * w2) * ((m1 - m2) * (m1 - m2)))%Q.

Definition threshold_otsu (image : list Q) : result Q :=
  let values := Qfloor <$> image in
  let levels := unique values in
  match reverse levels with
  | [] | [_] => Raise ValueError
  | _ :: candidates_rev =>
      let candidates := reverse candidates_rev in
      let best :=
        foldl (λ best t,
                 if TissueMask.Qltb (between_class_variance values best)
                      (between_class_variance values t)
                 then t else best)
          (default 0 (head candidates)) candidates in
      Ok (inject_Z best)
  end.

(** Connected components with 4-connectivity, numbered in the order in
    which a row-major scan meets them. *)
Definition neighbours (a : list (list Z)) (r c : nat) : list Z :=
  omap (λ p : option Z, p)
    [Array2.at_ a r (c + 1); Array2.at_ a (r + 1) c;
     (if decide (c = 0%nat) then None else Array2.at_ a r (c - 1));
     (if decide (r = 0%nat) then None else Array2.at_ a (r - 1) c)].

Definition relax (a : list (list Z)) : list (list Z) :=
  imap (λ r row,
    imap (λ c v,
      if decide (v = 0) then 0
      else foldr Z.min v (filter (λ n, n ≠ 0) (neighbours a r c))) row) a.

Definition ndimage_label (mask : list (list Z)) : list (list Z) :=
  let w := Array2.width mask in
  let seeds :=
    imap (λ r row,
      imap (λ c v, if decide (v = 0) then 0 else Z.of_nat (r * w + c + 1)) row)
      mask in
  let settled := Nat.iter (length (ravel mask)) relax seeds in
  let roots := unique (filter (λ l, l ≠ 0) (ravel settled)) in
  (λ row : list Z,
     (λ l, if decide (l = 0) then 0
           else Z.of_nat (S (length (filter (λ root, root < l) roots)))) <$> row)
    <$> settled.

(** Dilation by a [k] × [k] block of ones anchored at its centre; pixels
    outside the image do not count. *)
Definition dilate_once (k : nat) (a : list (list Z)) : list (list Z) :=
  imap (λ r row,
    imap (λ c v,
      foldr Z.max v
        (omap (λ p : nat * nat,
                 if decide (k `div` 2 ≤ r + p.1 ∧ k `div` 2 ≤ c + p.2)%nat
                 then Array2.at_ a (r + p.1 - k `div` 2) (c + p.2 - k `div` 2)
                 else None)
           (i ← seq 0 k; j ← seq 0 k; [(i, j)]))) row) a.

Definition cv2_dilate (a : list (list Z)) (k iterations : nat)
  : list (list Z) :=
  Nat.iter iterations (dilate_once k) a.

(** Nearest-neighbour resize: the pixel [(y, x)] of the result is the pixel
    [(⌊y·h/h'⌋, ⌊x·w/w'⌋)] of the source. *)
Definition cv2_resize {A} (a : list (list A)) (new_width new_height : nat)
  : result (list (list A)) :=
  if decide (new_width = 0 ∨ new_height = 0 ∨ ravel a = [])%nat
  then Raise Cv2Error
  else
    Ok ((λ y,
           omap (λ x,
                   Array2.at_ a
                     (Nat.min (y * Array2.height a `div` new_height)
                        (Array2.height a - 1))
                     (Nat.min (x * Array2.width a `div` new_width)
                        (Array2.width a - 1)))
             (seq 0 new_width))
          <$> seq 0 new_height).

#[export] Instance lib : TissueMask.Lib := {|
  TissueMask.rgb2gray := rgb2gray;
  TissueMask.gaussian _ image := image;
  TissueMask.threshold_otsu := threshold_otsu;
  TissueMask.ndimage_label := ndimage_label;
  TissueMask.cv2_dilate := cv2_dilate;
  TissueMask.cv2_resize := cv2_resize;
  TissueMask.cv2_resize_rgb := cv2_resize
|}.

End Reference.

(** ** FeatureMerger as a pipeline step

    The deprecated class: it computes the translator itself, after an
    optional downsampling of the two maps. Its two merging methods have
    the text of those of [AverageFeatureMerger], whose model stands for
    both. *)

Module FeatureMergerStep.
Import Numpy.

Section Process.
Context {F : Type}.
Variable mean : list F → F.
Variable uninit : F.
(** [cv2.resize(image, (width, height), interpolation=cv2.INTER_NEAREST)]
    on an integer map *)
Variable cv2_resize : list (list Z) → nat → nat → result (list (list Z)).

(** [FeatureMerger._downsample]: the source hands [(new_height, new_width)]
    to [cv2.resize], which reads the pair as [(width, height)]. *)
Definition _downsample (image : list (list Z)) (downsampling_factor : nat)
  : result (list (list Z)) :=
  if decide (downsampling_factor = 0%nat) then Raise ZeroDivisionError
  else
    let height := Array2.height image in
    let width := Array2.width image in
    let new_height := (height `div` downsampling_factor)%nat in
    let new_width := (width `div` downsampling_factor)%nat in
    cv2_resize image new_height new_width.

(** [FeatureMerger.process] *)
Definition process (downsampling_factor : nat)
    (instance_map merged_instance_map : list (list Z))
    (features : Tensor.t F) : result (Tensor.t F) :=
  '(instance_map, merged_instance_map) ←
    (if decide (downsampling_factor ≠ 1%nat) then
       instance_map ← _downsample instance_map downsampling_factor;
       merged_instance_map ←
         _downsample merged_instance_map downsampling_factor;
       Ok (instance_map, merged_instance_map)
     else Ok (instance_map, merged_instance_map));
  translator ←
    FeatureMerger._get_translator instance_map merged_instance_map;
  if decide (Tensor.rank features = 2%nat) then
    AverageFeatureMerger._merge_features mean uninit features translator
  else if decide (Tensor.rank features = 3%nat) then
    AverageFeatureMerger._merge_augmented_features mean uninit features
      translator
  else Raise NotImplementedError.

End Process.
End FeatureMergerStep.

(** ** Python strings

    A [str] is the list of its characters. *)

Module Str.

Abbreviation str := (list ascii) (only parsing).

(** A literal. *)
Definition lit (s : string) : str := list_ascii_of_string s.

(** [s.startswith(p)], [s.endswith(p)] *)
Definition startswith (s p : str) : bool := bool_decide (p `prefix_of` s).
Definition endswith (s p : str) : bool := bool_decide (p `suffix_of` s).

(** [s.split(sep)] for a separator of one character: the pieces between
    the occurrences of [sep], one more than there are occurrences. *)
Fixpoint split (sep : ascii) (s : str) : list str :=
  match s with
  | [] => [[]]
  | c :: s' =>
      if decide (c = sep) then [] :: split sep s'
      else match split sep s' with
           | w :: ws => (c :: w) :: ws
           | [] => [[c]]
           end
  end.

(** [s.replace(old, new)] for single characters. *)
Definition replace (old new : ascii) (s : str) : str :=
  (λ c, if decide (c = old) then new else c) <$> s.

End Str.

(** ** DeepFeatureExtractor: the name of the architecture *)

Module DeepFeatureExtractorName.
Import Str.

(** [DeepFeatureExtractor._preprocess_architecture]; unpacking the pieces
    of the URL into five names raises [ValueError] when there are not
    five of them. *)
Definition _preprocess_architecture (architecture : str) : result str :=
  if startswith architecture (lit "s3://mlflow") then
    match split "/"%char (drop 5 architecture) with
    | [_; experiment_id; run_id; _; metric] =>
        Ok (lit "MLflow(" ++ experiment_id ++ lit "," ++ run_id ++ lit ","
              ++ metric ++ lit ")")
    | _ => Raise ValueError
    end
  else if endswith architecture (lit ".pth") then
    Ok (lit "Local(" ++ replace "/"%char "_"%char architecture ++ lit ")")
  else Ok architecture.

End DeepFeatureExtractorName.

(** ** AugmentedDeepFeatureExtractor *)

Module AugmentedDeepFeatureExtractor.
Import Numpy InstanceMapPatchDataset DeepFeatureExtractor.

(** The [transforms.Lambda] entries that [__init__] composes. *)
Inductive transform : Set :=
| rotate (angle : Z)
| hflip
| vflip.

(** [AugmentedDeepFeatureExtractor.__init__]: [self.transforms], one
    composition per rotation and flip, the rotations in the outer loop. *)
Definition __init__ (rotations : option (list Z))
    (flips : option (list string)) : list (list transform) :=
  let rotations := default [0] rotations in
  let flips := default ["n"%string] flips in
  angle ← rotations;
  flip ← flips;
  let t := [rotate angle] in
  let t := if decide (flip = "h"%string) then t ++ [hflip] else t in
  let t := if decide (flip = "v"%string) then t ++ [vflip] else t in
  [t].

Section Augmented.
Context {T E : Type}.
(** [self.dataset_transform] after [set_augmentation(augmentor)]: resize,
    the augmentor, to tensor, normalise. *)
Variable augmented_transform : list transform → image → T.
Variable model : T → list E.
Variable num_features : nat.
Variable uninit : E.

(** [features[j, i, :] = embeddings] for the index tensor [j] of a batch
    and the squeezed output of the extractor (see
    [DeepFeatureExtractor.store]). *)
Definition store (features : list (list (list E))) (j : list nat) (i : nat)
    (embeddings : list (list E)) : result (list (list (list E))) :=
  if bool_decide (Forall (λ row, length row = num_features) embeddings) then
    if bool_decide (num_features = 1 ∧ 1 < length j)%nat then Raise RuntimeError
    else
      for_fold (λ features '(k, row),
          match features !! k with
          | Some entry =>
              if decide (i < length entry)%nat
              then Ok (<[k := <[i := row]> entry]> features)
              else Raise IndexError
          | None => Raise IndexError
          end)
        features (zip j embeddings)
  else Raise RuntimeError.

(** The inner loop of [_extract_features] for the augmentation of index
    [i], over the batches of the loader. *)
Definition extract_pass (schedule : list (list nat))
    (state : list (list (list E)) * t) (item : nat * list transform)
  : result (list (list (list E)) * t) :=
  let '(i, transform) := item in
  (* image_dataset.set_augmentation(transform) *)
  let dataset_transform := augmented_transform transform in
  for_fold (λ '(features, self) indices,
      '(batch, self') ← load_batch dataset_transform self indices;
      let j := batch.*1 in
      let image_batch := batch.*2 in
      let embeddings := patch_feature_extractor model image_batch in
      features' ← store features j i embeddings;
      Ok (features', self'))
    state schedule.

(** [AugmentedDeepFeatureExtractor._extract_features] for a given order of
    the batches, the same in every pass. *)
Definition _extract_features_on (schedule : list (list nat))
    (transforms : list (list transform)) (size : nat) (fill_value : option Z)
    (input_image : image) (instance_map : list (list Z))
  : result (list (list (list E))) :=
  (* AugmentedInstanceMapPatchDataset: the dataset of the parent class,
     whose transform is set before every pass *)
  let image_dataset :=
    InstanceMapPatchDataset.__init__ input_image instance_map size fill_value in
  let features :=
    replicate (__len__ image_dataset)
      (replicate (length transforms) (replicate num_features uninit)) in
  '(features, _) ←
    for_fold (extract_pass schedule) (features, image_dataset)
      (imap pair transforms);
  Ok features.

(** [AugmentedDeepFeatureExtractor._extract_features] with the loader of
    the source. *)
Definition _extract_features (transforms : list (list transform))
    (size : nat) (mask : bool) (batch_size : nat)
    (input_image : image) (instance_map : list (list Z))
  : result (list (list (list E))) :=
  let fill_value := if mask then Some 255 else None in
  if decide (batch_size = 0)%nat then Raise ValueError
  else
    _extract_features_on
      (sequential_batches batch_size
         (length (Skimage.regionprops instance_map)))
      transforms size fill_value input_image instance_map.

End Augmented.
End AugmentedDeepFeatureExtractor.

(** ** AnnotationPostProcessor *)

Module AnnotationPostProcessor.
Import Numpy.

(** [AnnotationPostProcessor.process]: the annotation is copied, and the
    copy gets the background index wherever the tissue mask is zero;
    [IndexError] when the mask does not have the shape of the
    annotation. *)
Definition process (background_index : Z) (annotation tissue_mask : list (list Z))
  : result (list (list Z)) :=
  let outside :=
    (λ row : list Z, (λ m, negb (bool_decide (m ≠ 0))) <$> row) <$> tissue_mask in
  if same_shape outside annotation then
    Ok (zip_with (zip_with (λ (a : Z) (o : bool),
                              if o then background_index else a))
          annotation outside)
  else Raise IndexError.

(** [AnnotationPostProcessor.process_and_save]: nothing is saved. *)
Definition process_and_save (background_index : Z) (output_name : string)
    (annotation tissue_mask : list (list Z)) : result (list (list Z)) :=
  process background_index annotation tissue_mask.

End AnnotationPostProcessor.

(** * Notions used in the statements *)

Section TranslatorNotions.
Import Numpy FeatureMerger.

(** Number of pixels that carry [i] in the original map and [b] in the
    merged map. *)
Definition overlap (im mm : instance_map) (i b : Z) : nat :=
  length (filter (λ p, p = (i, b)) (zip (ravel im) (ravel mm))).

(** [a] is the merged label that covers the plurality of the pixels of the
    original instance [i]; of several such labels, the smallest. *)
Definition is_plurality (im mm : instance_map) (i a : Z) : Prop :=
  (0 < overlap im mm i a)%nat ∧
  ∀ b, (overlap im mm i b ≤ overlap im mm i a)%nat ∧
       (overlap im mm i b = overlap im mm i a → a ≤ b).

(** The translator lists [i] under the merged label [a]. *)
Definition assigned (tr : translator) (a i : Z) : Prop :=
  ∃ vs, Dict.get tr a = Some vs ∧ i ∈ vs.

End TranslatorNotions.

(** The identity translator over [n] instances: every id [k] of [1..n] is a
    key, listed with the one id [k]; the keys stand in any order. *)
Definition identity_translator (n : nat) (tr : Dict.t (list Z)) : Prop :=
  tr ≡ₚ (λ k, (k, [k])) <$> seqZ 1 (Z.of_nat n).

(** A result that is not the given exception. *)
Definition never {A} (e : exn) (r : result A) : Prop := r ≠ Raise e.

(** The invariant of a region of an [h] × [w] label image: the bounding
    box lies in the image and the rounded centroid in the bounding box. *)
Definition valid_region (h w : nat) (rp : Skimage.region) : Prop :=
  let '(bmin_x, bmin_y, bmax_x, bmax_y) := Skimage.bbox rp in
  let '(cx, cy) := Skimage.centroid rp in
  (0 ≤ bmin_x ≤ Py.round cx ∧ Py.round cx < bmax_x ≤ Z.of_nat h) ∧
  (0 ≤ bmin_y ≤ Py.round cy ∧ Py.round cy < bmax_y ≤ Z.of_nat w).

Section DatasetNotions.
Import InstanceMapPatchDataset.
Context {T E : Type}.
Context (dataset_transform : list (list (Z * Z * Z)) → T) (model : T → list E).

(** A dataset over an [h] × [w] image and an instance map of the same
    shape, with the regions [__init__] computed; the image may have been
    written to by earlier extractions. *)
Definition wf_dataset (h w : nat) (self : t) : Prop :=
  Array2.rect h w (image_ self) ∧ Array2.rect h w (instance_map self) ∧
  properties self = Skimage.regionprops (instance_map self).


(** The item of index [index] on the dataset [self]: the transformed patch
    of the region [index], cut from [self.image] as it is. *)
Definition item_of (self : t) (index : nat) (item : nat * T) : Prop :=
  ∃ rp patch img,
    properties self !! index = Some rp ∧
    _get_instance_patch self rp = Ok (patch, img) ∧
    item = (index, dataset_transform patch).

End DatasetNotions.

(** A stand-in for the transform and the backbone of the examples: the
    patch as it is, and as its embedding the sums of its red and of its
    green channel. *)
Definition sum_model (patch : list (list (Z * Z * Z))) : list Z :=
  [foldr Z.add 0 ((λ px, px.1.1) <$> Numpy.ravel patch);
   foldr Z.add 0 ((λ px, px.1.2) <$> Numpy.ravel patch)].

Section HandcraftedNotions.
Import HandcraftedFeatureExtractor.
Context {F : Type} `{Lib F}.

(** The colour features of one channel: the 8 histogram fractions of the
    codes under the mask, then their mean, standard deviation, median and
    skewness, then the mean of the squared channel. *)
Definition colour_layout (feats : list F) : Prop :=
  ∃ codes squares mask_size,
    feats = ((λ count, true_divide count mask_size) <$> histogram codes)
            ++ [np_mean codes; np_std codes; np_median codes;
                scipy_skew codes; np_mean squares].

(** The texture features: the entropy, then contrast, dissimilarity,
    homogeneity, energy and ASM of one co-occurrence matrix. *)
Definition texture_layout (feats : list F) : Prop :=
  ∃ entropy P,
    feats = [entropy; greycoprops P contrast; greycoprops P dissimilarity;
             greycoprops P homogeneity; greycoprops P energy;
             greycoprops P ASM].

(** The layout of the feature vector of a region: the 12 shape features,
    the colour features of the channels R, G and B, the texture
    features. *)
Definition feature_layout (region : Skimage.region) (row : list F) : Prop :=
  ∃ feats_r feats_g feats_b feats_tex,
    row = feats_shape region ++ (feats_r ++ feats_g ++ feats_b) ++ feats_tex ∧
    colour_layout feats_r ∧ colour_layout feats_g ∧ colour_layout feats_b ∧
    texture_layout feats_tex.

(** The values of one channel of the image at the pixels of a region, in
    row-major order. *)
Definition region_codes (img : list (list (Z * Z * Z))) (region : Skimage.region)
    (channel : Z * Z * Z → Z) : list Z :=
  omap (λ p, channel <$> Array2.at_ img p.1 p.2) (Skimage.coords region).

(** The 13 colour features of one channel, from the codes of the channel at
    the pixels of a region of [area] pixels: the 8 histogram counts divided
    by the area, the mean, standard deviation, median and skewness of the
    codes, and the mean of their squares as [uint8] holds them. *)
Definition colour_features (codes : list Z) (area : nat) : list F :=
  ((λ count, true_divide count area) <$> histogram codes)
  ++ [np_mean codes; np_std codes; np_median codes; scipy_skew codes;
      np_mean ((λ c, (c * c) `mod` 256) <$> codes)].

(** The gray image with the pixels outside the region set to 0. *)
Definition region_gray (img : list (list (Z * Z * Z))) (imap : list (list Z))
    (region : Skimage.region) : list (list Z) :=
  zip_with (zip_with (λ (px : Z * Z * Z) (l : Z),
                        if decide (l = Skimage.label region)
                        then rgb2gray px `mod` 256 else 0))
    img imap.

(** The 6 texture features of a region: the mean of the local entropy of
    the gray image over the pixels of the region, then contrast,
    dissimilarity, homogeneity, energy and ASM of the co-occurrence matrix
    of the gray image of the region, without the row and the column of the
    gray level 0. *)
Definition texture_features (img : list (list (Z * Z * Z)))
    (imap : list (list Z)) (region : Skimage.region) : list F :=
  let img_gray := (λ row : list (Z * Z * Z), rgb2gray <$> row) <$> img in
  let P := drop 1 <$> drop 1 (greycomatrix (region_gray img imap region)) in
  [cv2_mean (take_at (rank_entropy img_gray) (Skimage.coords region));
   greycoprops P contrast; greycoprops P dissimilarity;
   greycoprops P homogeneity; greycoprops P energy; greycoprops P ASM].

(** The feature vector of a region: the 12 shape features, the colour
    features of the channels R, G and B in this order, the texture
    features. *)
Definition feature_row (img : list (list (Z * Z * Z))) (imap : list (list Z))
    (region : Skimage.region) : list F :=
  feats_shape region
  ++ (colour_features (region_codes img region (λ px, px.1.1))
        (length (Skimage.coords region))
      ++ colour_features (region_codes img region (λ px, px.1.2))
           (length (Skimage.coords region))
      ++ colour_features (region_codes img region (λ px, px.2))
           (length (Skimage.coords region)))
  ++ texture_features img imap region.

End HandcraftedNotions.

(** A thumbnail without a positive gray value. *)
Definition no_positive (a : list (list Q)) : Prop :=
  Forall (Forall (λ v, TissueMask.Qltb 0 v = false)) a.

(** The index condition of one entry of the translator against a result
    of [m] entries and [n] rows of features, as numpy reads indices. *)
Definition item_in_range (m n : nat) (item : Z * list Z) : Prop :=
  - Z.of_nat m ≤ item.1 - 1 < Z.of_nat m ∧
  Forall (λ v, - Z.of_nat n ≤ v - 1 < Z.of_nat n) item.2.

(** The mean of integers, rounded down: a stand-in for the examples. *)
Definition Z_mean (l : list Z) : Z := foldr Z.add 0 l `div` Z.of_nat (length l).

(** The pixel [(x, y)] lies in the crop window of the region and does not
    carry its label: the masked write of the region overwrites it. *)
Definition masked_out (self : InstanceMapPatchDataset.t)
    (rp : Skimage.region) (x y : nat) : Prop :=
  ∃ min_x max_x min_y max_y,
    InstanceMapPatchDataset.crop_window self rp = (min_x, max_x, min_y, max_y) ∧
    (Z.to_nat min_x ≤ x < Z.to_nat max_x)%nat ∧
    (Z.to_nat min_y ≤ y < Z.to_nat max_y)%nat ∧
    Array2.at_ (InstanceMapPatchDataset.instance_map self) x y
      ≠ Some (Skimage.label rp).

Section AugmentationNotions.
Import AugmentedDeepFeatureExtractor.

(** The composition that [__init__] builds for one rotation and one
    flip: the rotation, then the flip if it is ["h"] or ["v"]. *)
Definition composition (angle : Z) (flip : string) : list transform :=
  rotate angle ::
    (if decide (flip = "h"%string) then [hflip]
     else if decide (flip = "v"%string) then [vflip] else []).

End AugmentationNotions.

Section TissueNotions.
Import Numpy TissueMask.
Context `{Lib}.

(** The grayscale thumbnail that [get_tissue_mask] thresholds: the inverted
    gray values of a colour thumbnail, a grayscale one as it is. *)
Definition gray_thumbnail (image : thumbnail_image) : list (list Q) :=
  match image with
  | Color a =>
      (λ row : list (Z * Z * Z),
         (λ px, inject_Z (255 - rgb2gray (px.2, px.1.2, px.1.1))) <$> row) <$> a
  | Gray a => a
  end.

(** The connected components of the positive pixels of a thresholded
    thumbnail. *)
Definition regions_of (thumbnail : list (list Q)) : list (list Z) :=
  ndimage_label
    ((λ row : list Q, (λ v, if Qltb 0 v then 1 else 0) <$> row) <$> thumbnail).

End TissueNotions.

Section AugmentedNotions.
Context {T E : Type} (model : T → list E).

(** The entry [(k, i)] of a 3-D array. *)
Definition at3 (features : list (list (list E))) (k i : nat) : option (list E) :=
  features !! k ≫= (.!! i).

(** Writing the embeddings of a list of items at their indices, in the
    column [i]. *)
Definition write_column (i : nat) (features : list (list (list E)))
    (items : list (nat * T)) : list (list (list E)) :=
  foldl (λ features item,
           match features !! item.1 with
           | Some entry => <[item.1 := <[i := model item.2]> entry]> features
           | None => features
           end)
    features items.

End AugmentedNotions.

(** * Properties *)

(** ** The error monad and loops *)

Lemma bind_Ok {A B} (m : result A) (f : A → result B) b :
  m ≫= f = Ok b ↔ ∃ a, m = Ok a ∧ f a = Ok b.
Proof.
  destruct m as [a|e]; simpl.
  - split; [eauto | intros (a' & [= <-] & ?); done].
  - split; [done | intros (a' & [=] & _)].
Qed.

Lemma py_assert_Ok b : py_assert b = Ok () ↔ b = true.
Proof. destruct b; simpl; split; done. Qed.

Lemma for_each_Ok {A} (body : A → result unit) l :
  for_each body l = Ok () ↔ ∀ x, x ∈ l → body x = Ok ().
Proof.
  induction l as [|x l IH]; simpl.
  - split; [intros _ x Hx; inversion Hx | done].
  - rewrite bind_Ok. split.
    + intros ([] & Hx & Hl) y [->|Hy]%elem_of_cons; [done|]. by apply IH.
    + intros H. exists (). split; [apply H; left|apply IH; intros; apply H; by right].
Qed.

Lemma for_fold_app {A S} (body : S → A → result S) acc l1 l2 :
  for_fold body acc (l1 ++ l2)
  = for_fold body acc l1 ≫= λ acc', for_fold body acc' l2.
Proof.
  revert acc. induction l1 as [|x l1 IH]; intros acc; simpl; [done|].
  destruct (body acc x); simpl; [apply IH | done].
Qed.

(** ** numpy *)

Section NumpyFacts.
Import Numpy.

Lemma elem_of_unique x a : x ∈ unique a ↔ x ∈ a.
Proof. unfold unique. rewrite merge_sort_Permutation. apply elem_of_remove_dups. Qed.

Lemma NoDup_unique a : NoDup (unique a).
Proof. unfold unique. rewrite merge_sort_Permutation. apply NoDup_remove_dups. Qed.

Lemma StronglySorted_lookup_le (l : list Z) i j x y :
  StronglySorted Z.le l → l !! i = Some x → l !! j = Some y → (i < j)%nat → x ≤ y.
Proof.
  intros Hs. revert i j. induction Hs as [|z l Hs IH Hall]; intros i j Hi Hj Hlt.
  - done.
  - destruct j as [|j]; [lia|]. destruct i as [|i]; simpl in *.
    + injection Hi as ->. rewrite Forall_forall in Hall.
      apply Hall. eapply list_elem_of_lookup_2, Hj.
    + eapply IH; eauto. lia.
Qed.

(** [np.unique] is strictly ascending. *)
Lemma unique_ascending a i j x y :
  unique a !! i = Some x → unique a !! j = Some y → (i < j)%nat → x < y.
Proof.
  intros Hi Hj Hlt.
  assert (x ≤ y).
  { eapply (StronglySorted_lookup_le (unique a)); eauto.
    apply (StronglySorted_merge_sort Z.le). }
  assert (x ≠ y); [|lia].
  intros ->. pose proof (NoDup_unique a) as Hnd.
  rewrite NoDup_alt in Hnd. specialize (Hnd _ _ _ Hi Hj). lia.
Qed.

Lemma unique_nil_inv a : unique a = [] → a = [].
Proof.
  intros H. destruct a as [|x a]; [done|].
  assert (x ∈ unique (x :: a)) as Hx by (apply elem_of_unique; left).
  rewrite H in Hx. inversion Hx.
Qed.

Lemma count_pos x a : x ∈ a ↔ (0 < count x a)%nat.
Proof.
  unfold count. induction a as [|y a IH]; simpl.
  - split; [intros H; inversion H | lia].
  - rewrite filter_cons. rewrite elem_of_cons. destruct (decide (y = x)) as [->|Hne]; simpl.
    + split; [lia | by left].
    + rewrite <- IH. split; [intros [->|?]; done | by right].
Qed.

Lemma argmax_from_spec (pre l : list nat) bi b :
  pre !! bi = Some b →
  (∀ j x, pre !! j = Some x → (x ≤ b)%nat ∧ (x = b → (bi ≤ j)%nat)) →
  ∃ m, (pre ++ l) !! argmax_from bi b (length pre) l = Some m ∧
       ∀ j x, (pre ++ l) !! j = Some x → (x ≤ m)%nat ∧ (x = m → (argmax_from bi b (length pre) l ≤ j)%nat).
Proof.
  revert pre bi b. induction l as [|x l IH]; intros pre bi b Hbi Hmax; simpl.
  - rewrite app_nil_r. eauto.
  - replace (pre ++ x :: l) with ((pre ++ [x]) ++ l) by (by rewrite <- app_assoc).
    replace (S (length pre)) with (length (pre ++ [x])) by (rewrite length_app; simpl; lia).
    assert (bi < length pre)%nat by (eapply lookup_lt_Some; eauto).
    destruct (decide (b < x)%nat) as [Hlt|Hge]; apply IH.
    + rewrite lookup_app_r by lia. by rewrite Nat.sub_diag.
    + intros j y Hj. destruct (decide (j < length pre)%nat).
      * rewrite lookup_app_l in Hj by done. destruct (Hmax _ _ Hj). lia.
      * rewrite lookup_app_r in Hj by lia.
        destruct (j - length pre)%nat eqn:E; simpl in Hj; [|by destruct n0].
        injection Hj as <-. lia.
    + rewrite lookup_app_l by lia. done.
    + intros j y Hj. destruct (decide (j < length pre)%nat).
      * rewrite lookup_app_l in Hj by done. by apply Hmax.
      * rewrite lookup_app_r in Hj by lia.
        destruct (j - length pre)%nat eqn:E; simpl in Hj; [|by destruct n0].
        injection Hj as <-. lia.
Qed.

(** [argmax] returns the first position of the largest count. *)
Lemma argmax_spec l k :
  argmax l = Ok k →
  ∃ m, l !! k = Some m ∧
       ∀ j x, l !! j = Some x → (x ≤ m)%nat ∧ (x = m → (k ≤ j)%nat).
Proof.
  destruct l as [|x l]; simpl; [done|]. intros [= <-].
  apply (argmax_from_spec [x] l 0 x); [done|].
  intros [|j] y; simpl; [intros [= ->]; lia | by destruct j].
Qed.

Lemma argmax_Ok l : l ≠ [] → is_Ok (argmax l).
Proof. destruct l; [done|]. intros _. eexists. reflexivity. Qed.

Lemma length_remove_dups_le (l : list Z) : (length (remove_dups l) ≤ length l)%nat.
Proof.
  induction l as [|x l IH]; simpl; [done|].
  destruct (decide_rel _ x l); simpl; lia.
Qed.

(** [len(a) == len(set(a))] holds exactly when [a] has no duplicates. *)
Lemma length_remove_dups_NoDup (l : list Z) :
  length l = length (remove_dups l) ↔ NoDup l.
Proof.
  induction l as [|x l IH]; simpl.
  - split; [constructor | done].
  - pose proof (length_remove_dups_le l).
    destruct (decide_rel _ x l) as [Hin|Hnin]; simpl.
    + split; [lia | intros Hnd; apply NoDup_cons in Hnd as [? _]; done].
    + rewrite NoDup_cons. split.
      * intros [= Hlen]. split; [done | by apply IH].
      * intros [_ Hnd]. f_equal. by apply IH.
Qed.

End NumpyFacts.

(** ** Dictionaries *)

Section DictFacts.
Context {A : Type}.
Implicit Types d : Dict.t (list A).

Lemma get_append d k x k' :
  Dict.get (Dict.append d k x) k'
  = if decide (k' = k) then Some (default [] (Dict.get d k) ++ [x])
    else Dict.get d k'.
Proof.
  induction d as [|[k0 vs] d IH]; simpl.
  - repeat case_decide; done.
  - destruct (decide (k = k0)) as [->|Hne]; simpl.
    + repeat case_decide; done.
    + rewrite IH. repeat case_decide; congruence.
Qed.

Lemma values_append d k x :
  concat (Dict.values (Dict.append d k x)) ≡ₚ concat (Dict.values d) ++ [x].
Proof.
  unfold Dict.values. induction d as [|[k0 vs] d IH]; simpl; [done|].
  case_decide; simpl.
  - by rewrite <- !app_assoc, (Permutation_app_comm [x]).
  - by rewrite IH, app_assoc.
Qed.

Lemma get_Some_values d k vs : Dict.get d k = Some vs → vs ∈ Dict.values d.
Proof.
  unfold Dict.values. induction d as [|[k0 vs0] d IH]; simpl; [done|].
  case_decide; [intros [= ->]; left | right; auto].
Qed.

End DictFacts.

(** ** The translator *)

Section Translator.
Import Numpy FeatureMerger.




Lemma count_selected (zs : list (Z * Z)) i b :
  count b (filter (λ p, p.1 = i) zs).*2 = length (filter (λ p, p = (i, b)) zs).
Proof.
  unfold count. induction zs as [|[x y] zs IH]; [done|].
  rewrite (filter_cons (λ p, p.1 = i)), (filter_cons (λ p, p = (i, b))).
  destruct (decide ((x, y).1 = i)) as [Hx|Hx]; simpl in Hx.
  - subst x. rewrite fmap_cons, filter_cons. simpl snd.
    destruct (decide (y = b)) as [->|Hy].
    + rewrite decide_True by done. simpl. f_equal. apply IH.
    + rewrite decide_False by congruence. apply IH.
  - rewrite decide_False by congruence. apply IH.
Qed.

Lemma overlap_pos_elem_of im mm i a : (0 < overlap im mm i a)%nat → i ∈ ravel im.
Proof.
  unfold overlap. intros Hpos.
  destruct (filter _ _) as [|p l] eqn:E; simpl in Hpos; [lia|].
  assert (p ∈ filter (λ p, p = (i, a)) (zip (ravel im) (ravel mm))) as Hp
    by (rewrite E; left).
  apply list_elem_of_filter in Hp as [-> Hin].
  by apply elem_of_zip_l in Hin.
Qed.

Lemma assign_Ok im mm tr i tr' :
  assign im mm tr i = Ok tr' →
  ∃ a, tr' = Dict.append tr a i ∧ is_plurality im mm i a.
Proof.
  unfold assign, index_where_eq. destruct (same_shape im mm); [|done]. simpl.
  set (zs := zip (ravel im) (ravel mm)).
  set (sel := (filter (λ p, p.1 = i) zs).*2).
  intros (k & Hk & (a & Ha & [= <-])%bind_Ok)%bind_Ok.
  exists a. split; [done|].
  unfold getitem in Ha. destruct (unique sel !! k) as [a'|] eqn:Hka; [|done].
  injection Ha as ->.
  apply argmax_spec in Hk as (m & Hm & Hmax).
  rewrite list_lookup_fmap, Hka in Hm. injection Hm as <-.
  assert (a ∈ sel) as Hin.
  { apply elem_of_unique. eapply list_elem_of_lookup_2, Hka. }
  assert (∀ b, overlap im mm i b = count b sel) as Hov.
  { intros b. unfold overlap, sel. by rewrite count_selected. }
  split; [rewrite Hov; by apply count_pos|].
  intros b. rewrite !Hov.
  destruct (decide (b ∈ sel)) as [Hb|Hb].
  - apply elem_of_unique, list_elem_of_lookup_1 in Hb as [j Hj].
    destruct (Hmax j (count b sel)) as [Hle Heq].
    { by rewrite list_lookup_fmap, Hj. }
    split; [done|]. intros Hc. specialize (Heq Hc).
    destruct (decide (k = j)) as [->|Hne]; [simplify_eq; lia|].
    assert (a < b); [|lia].
    eapply (unique_ascending sel k j); eauto; lia.
  - apply count_pos in Hin. rewrite count_pos in Hb. lia.
Qed.

(** An absent instance id makes the loop body raise [ValueError]. *)
Lemma assign_absent im mm tr i :
  same_shape im mm = true → i ∉ ravel im → assign im mm tr i = Raise ValueError.
Proof.
  intros Hsh Hi. unfold assign, index_where_eq. rewrite Hsh. simpl.
  destruct (filter (λ p, p.1 = i) (zip (ravel im) (ravel mm))) as [|[x y] l] eqn:E.
  - done.
  - exfalso. apply Hi.
    assert ((x, y) ∈ filter (λ p, p.1 = i) (zip (ravel im) (ravel mm))) as Hp
      by (rewrite E; left).
    apply list_elem_of_filter in Hp as [Hx Hin]. simpl in Hx. subst.
    by apply elem_of_zip_l in Hin.
Qed.

Lemma assigned_append tr a i b j :
  assigned tr a i → assigned (Dict.append tr b j) a i.
Proof.
  intros (vs & Hget & Hin). unfold assigned. rewrite get_append.
  case_decide as Hab; [subst b|eauto].
  rewrite Hget. simpl. eexists; split; [done|]. apply elem_of_app. by left.
Qed.

Lemma assigned_append_new tr a i : assigned (Dict.append tr a i) a i.
Proof.
  unfold assigned. rewrite get_append, decide_True by done.
  eexists; split; [done|]. apply elem_of_app. right. left.
Qed.

Lemma fold_assign_Ok im mm l tr0 tr :
  for_fold (assign im mm) tr0 l = Ok tr →
  concat (Dict.values tr) ≡ₚ concat (Dict.values tr0) ++ l ∧
  (∀ a i, assigned tr0 a i → assigned tr a i) ∧
  (∀ i, i ∈ l → ∃ a, is_plurality im mm i a ∧ assigned tr a i).
Proof.
  revert tr0. induction l as [|i l IH]; intros tr0; simpl.
  - intros [= <-]. rewrite app_nil_r. split; [done|]. split; [done|].
    intros i Hi. inversion Hi.
  - intros (tr1 & H1 & Hrest)%bind_Ok.
    apply assign_Ok in H1 as (a & -> & Hpl).
    apply IH in Hrest as (Hperm & Hmono & Hall).
    split; [|split].
    + rewrite Hperm, values_append, <- app_assoc. done.
    + intros b j Hbj. by apply Hmono, assigned_append.
    + intros j [->|Hj]%elem_of_cons; [|by apply Hall].
      exists a. split; [done|]. apply Hmono, assigned_append_new.
Qed.

(** What [_check_translator_consistency] accepts. *)
Lemma check_translator_consistency_Ok im mm tr :
  _check_translator_consistency im mm tr = Ok () ↔
    (∀ l, l ∈ ravel mm → ∃ vs, Dict.get tr l = Some vs ∧ vs ≠ []) ∧
    tr ≠ [] ∧
    NoDup (concat (Dict.values tr)) ∧
    (∀ i, i ∈ ravel im → i ∈ concat (Dict.values tr)).
Proof.
  unfold _check_translator_consistency.
  rewrite bind_Ok. setoid_rewrite bind_Ok. setoid_rewrite bind_Ok.
  split.
  - intros ([] & H1 & all_values & Hc & [] & Hd & H3).
    rewrite for_each_Ok in H1. rewrite for_each_Ok in H3.
    apply py_assert_Ok, bool_decide_eq_true, length_remove_dups_NoDup in Hd.
    assert (tr ≠ [] ∧ all_values = concat (Dict.values tr)) as [Hne ->].
    { destruct tr; [done|]. simpl in Hc. by injection Hc as <-. }
    split; [|split; [done|split; [done|]]].
    + intros l Hl. rewrite <- elem_of_unique in Hl. specialize (H1 _ Hl).
      apply bind_Ok in H1 as ([] & Hin & Hlen).
      apply py_assert_Ok, bool_decide_eq_true in Hin as [vs Hvs].
      apply py_assert_Ok, bool_decide_eq_true in Hlen.
      rewrite Hvs in Hlen. simpl in Hlen. exists vs. split; [done|].
      intros ->. simpl in Hlen. lia.
    + intros i Hi. rewrite <- elem_of_unique in Hi. specialize (H3 _ Hi).
      by apply py_assert_Ok, bool_decide_eq_true in H3.
  - intros (H1 & Hne & Hd & H3). exists (). split.
    { apply for_each_Ok. intros l Hl. rewrite elem_of_unique in Hl.
      destruct (H1 _ Hl) as (vs & Hvs & Hnil). apply bind_Ok. exists (). split.
      - apply py_assert_Ok, bool_decide_eq_true. by exists vs.
      - apply py_assert_Ok, bool_decide_eq_true. rewrite Hvs. simpl.
        destruct vs; [done|simpl; lia]. }
    exists (concat (Dict.values tr)). split; [by destruct tr|].
    exists (). split.
    { by apply py_assert_Ok, bool_decide_eq_true, length_remove_dups_NoDup. }
    apply for_each_Ok. intros i Hi. rewrite elem_of_unique in Hi.
    apply py_assert_Ok, bool_decide_eq_true. auto.
Qed.

Lemma get_translator_Ok im mm tr :
  _get_translator im mm = Ok tr →
  ∃ mx, amax (ravel im) = Ok mx ∧
        for_fold (assign im mm) [] (seqZ 1 mx) = Ok tr ∧
        _check_translator_consistency im mm tr = Ok ().
Proof.
  unfold _get_translator.
  intros (mx & Hmx & Hrest)%bind_Ok. cbv zeta in Hrest.
  apply bind_Ok in Hrest as (tr' & Hfold & Hrest).
  apply bind_Ok in Hrest as ([] & Hcheck & [= <-]).
  exists mx. replace (mx + 1 - 1) with mx in Hfold by lia. done.
Qed.

End Translator.

Section TranslatorClaims.
Import Numpy FeatureMerger.

Lemma amax_elem_of (l : list Z) mx : amax l = Ok mx → ∀ x, x ∈ l → x ≤ mx.
Proof.
  destruct l as [|y l]; simpl; [done|]. intros [= <-].
  assert (∀ l acc, acc ≤ foldl Z.max acc l ∧ ∀ x, x ∈ l → x ≤ foldl Z.max acc l)
    as Hfold.
  { clear. induction l as [|z l IH]; intros acc; simpl.
    - split; [lia | intros x Hx; inversion Hx].
    - destruct (IH (acc `max` z)) as [H1 H2]. split; [lia|].
      intros x [->|Hx]%elem_of_cons; [lia | auto]. }
  destruct (Hfold l y) as [H1 H2].
  intros x [->|Hx]%elem_of_cons; auto.
Qed.

(** C3. Whenever [_get_translator] returns a translator: every label of
    the merged map is a key with a non-empty list, no original id is listed
    twice, the ids listed are exactly the values of the original map, and
    the translator went through [_check_translator_consistency], which
    raises unless these hold. *)
Theorem get_translator_consistent (im mm : instance_map) (tr : translator) :
  _get_translator im mm = Ok tr →
  (∀ l, l ∈ ravel mm → ∃ vs, Dict.get tr l = Some vs ∧ vs ≠ []) ∧
  NoDup (concat (Dict.values tr)) ∧
  (∀ i, i ∈ concat (Dict.values tr) ↔ i ∈ ravel im) ∧
  _check_translator_consistency im mm tr = Ok ().
Proof.
  intros (mx & Hmx & Hfold & Hcheck)%get_translator_Ok.
  pose proof Hcheck as (Hkeys & _ & Hnd & Hsub)%check_translator_consistency_Ok.
  apply fold_assign_Ok in Hfold as (Hperm & _ & Hall).
  repeat split; try done; [|by apply Hsub].
  intros Hi. rewrite Hperm in Hi. simpl in Hi.
  destruct (Hall _ Hi) as (a & [Hpos _] & _).
  by eapply overlap_pos_elem_of.
Qed.

Lemma get_translator_consistent_witness :
  let im := [[1; 2]; [3; 3]] in
  let mm := [[1; 1]; [2; 2]] in
  let tr := [(1, [1; 2]); (2, [3])] in
  _get_translator im mm = Ok tr ∧
  NoDup (concat (Dict.values tr)) ∧
  (∀ i, i ∈ concat (Dict.values tr) ↔ i ∈ ravel im).
Proof.
  intros im mm tr.
  assert (_get_translator im mm = Ok tr) as H by (vm_compute; reflexivity).
  split; [exact H|].
  destruct (get_translator_consistent im mm tr H) as (_ & Hnd & Heq & _).
  split; [exact Hnd | exact Heq].
Defined.

(** C4, as amended. [_get_translator] visits every id from 1 to the largest
    label. It returns a translator only if each of them occurs in the
    original map (the labels are exactly 1..max), and then each id is listed
    under the merged label that covers the plurality of its pixels, the
    smallest such label in case of a tie. *)
Theorem get_translator_plurality (im mm : instance_map) (tr : translator) :
  _get_translator im mm = Ok tr →
  ∃ mx, amax (ravel im) = Ok mx ∧
        (∀ i, i ∈ ravel im ↔ 1 ≤ i ≤ mx) ∧
        (∀ i, 1 ≤ i ≤ mx → ∃ a, is_plurality im mm i a ∧ assigned tr a i).
Proof.
  intros (mx & Hmx & Hfold & Hcheck)%get_translator_Ok.
  apply check_translator_consistency_Ok in Hcheck as (_ & _ & _ & Hsub).
  apply fold_assign_Ok in Hfold as (Hperm & _ & Hall). simpl in Hperm.
  exists mx. split; [done|]. split.
  - intros i. split.
    + intros Hi. pose proof (amax_elem_of _ _ Hmx _ Hi).
      apply Hsub in Hi. rewrite Hperm in Hi. apply elem_of_seqZ in Hi. lia.
    + intros Hi. destruct (Hall i) as (a & [Hpos _] & _).
      { apply elem_of_seqZ. lia. }
      by eapply overlap_pos_elem_of.
  - intros i Hi. apply Hall, elem_of_seqZ. lia.
Qed.

Lemma get_translator_plurality_witness :
  let im := [[1; 2; 2]; [3; 3; 2]] in
  let mm := [[1; 1; 2]; [2; 2; 1]] in
  let tr := [(1, [1; 2]); (2, [3])] in
  _get_translator im mm = Ok tr ∧
  ∃ mx, amax (ravel im) = Ok mx ∧
        (∀ i, i ∈ ravel im ↔ 1 ≤ i ≤ mx) ∧
        (∀ i, 1 ≤ i ≤ mx → ∃ a, is_plurality im mm i a ∧ assigned tr a i).
Proof.
  intros im mm tr.
  assert (_get_translator im mm = Ok tr) as H by (vm_compute; reflexivity).
  split; [exact H | exact (get_translator_plurality im mm tr H)].
Defined.

Lemma assign_Ok_or_ValueError im mm tr i :
  same_shape im mm = true →
  is_Ok (assign im mm tr i) ∨ assign im mm tr i = Raise ValueError.
Proof.
  intros Hsh. unfold assign, index_where_eq. rewrite Hsh. cbn [mbind result_bind].
  set (sel := (filter (λ p, p.1 = i) (zip (ravel im) (ravel mm))).*2).
  unfold unique_counts.
  destruct (argmax ((λ v, count v sel) <$> unique sel)) as [k|e] eqn:Hk.
  - left. cbn [mbind result_bind].
    apply argmax_spec in Hk as (m & Hm & _).
    rewrite list_lookup_fmap in Hm. unfold getitem.
    destruct (unique sel !! k) as [a|]; [|done]. by eexists.
  - right. destruct (unique sel) as [|u us]; simpl in Hk; [|done].
    by injection Hk as <-.
Qed.

Lemma fold_assign_gap im mm l tr i :
  same_shape im mm = true → i ∈ l → i ∉ ravel im →
  for_fold (assign im mm) tr l = Raise ValueError.
Proof.
  intros Hsh Hin Hi. revert tr. induction l as [|j l IH]; intros tr.
  - inversion Hin.
  - simpl. destruct (decide (j = i)) as [->|Hne].
    + by rewrite assign_absent.
    + destruct (assign_Ok_or_ValueError im mm tr j Hsh) as [[tr' ->]| ->]; [|done].
      simpl. apply IH. apply elem_of_cons in Hin as [?|?]; [congruence | done].
Qed.

(** An id between 1 and the largest label that does not occur in the
    original map makes [_get_translator] raise [ValueError]. *)
Lemma get_translator_gap im mm mx i :
  same_shape im mm = true → amax (ravel im) = Ok mx →
  1 ≤ i ≤ mx → i ∉ ravel im →
  _get_translator im mm = Raise ValueError.
Proof.
  intros Hsh Hmx Hi Habs. unfold _get_translator. rewrite Hmx.
  cbn [mbind result_bind]. rewrite (fold_assign_gap im mm _ [] i); try done.
  apply elem_of_seqZ. lia.
Qed.

(** A tie: the instance 1 has one pixel under the merged label 5 and one
    under 3; it goes to 3, the smaller label. *)
Example get_translator_tie :
  _get_translator [[1; 1]] [[5; 3]] = Raise AssertionError ∧
  for_fold (assign [[1; 1]] [[5; 3]]) [] [1] = Ok [(3, [1])].
Proof. vm_compute. split; reflexivity. Qed.

(** The check goes over all values of the two maps, the background 0
    included: an original map with background pixels is refused, since 0
    is never listed. *)
Example get_translator_background :
  _get_translator [[0; 1]] [[1; 1]] = Raise AssertionError ∧
  _get_translator [[1; 1]] [[0; 0]] = Ok [(0, [1])].
Proof. vm_compute. split; reflexivity. Qed.

(** C4 as stated fails: labels 1 and 3 are present, 2 is absent; the loop
    does not skip 2 but raises on it. *)
Lemma get_translator_gap_raises :
  let im := [[1; 3]] in
  let mm := [[1; 1]] in
  unique (ravel im) = [1; 3] ∧
  assign im mm [(1, [1])] 2 = Raise ValueError ∧
  _get_translator im mm = Raise ValueError.
Proof. vm_compute. repeat split; reflexivity. Qed.

End TranslatorClaims.

(** ** Averaging features *)

Section TensorFacts.
Context {F : Type}.
Implicit Types (a : Tensor.t F) (data : list F).

Lemma concat_chunks data (s n : nat) :
  length data = (n * s)%nat →
  concat ((λ i, take s (drop (i * s) data)) <$> seq 0 n) = data.
Proof.
  revert data. induction n as [|n IH]; intros data Hlen; simpl.
  - destruct data; [done | simpl in Hlen; lia].
  - rewrite drop_0, <- fmap_S_seq, <- list_fmap_compose.
    transitivity (take s data ++ drop s data); [|apply take_drop]. f_equal.
    rewrite <- (IH (drop s data)) by (rewrite length_drop; lia). f_equal.
    apply list_fmap_ext. intros _ i _. simpl.
    rewrite drop_drop. do 2 f_equal; lia.
Qed.

Lemma concat_rows a : Tensor.wf a → Tensor.shape a ≠ [] → concat (Tensor.rows a) = Tensor.data a.
Proof.
  unfold Tensor.wf, Tensor.rows, Tensor.row, Tensor.len0, Tensor.row_size.
  destruct (Tensor.shape a) as [|n sh]; [done|]. simpl. intros Hlen _.
  by apply concat_chunks.
Qed.

Lemma length_row a i :
  Tensor.wf a → Tensor.shape a ≠ [] → (i < Tensor.len0 a)%nat →
  length (Tensor.row a i) = Tensor.row_size a.
Proof.
  unfold Tensor.wf, Tensor.row, Tensor.len0, Tensor.row_size.
  destruct (Tensor.shape a) as [|n sh]; [done|]. simpl. intros Hlen _ Hi.
  rewrite length_take, length_drop. nia.
Qed.

Lemma lookup_rows a i :
  (i < Tensor.len0 a)%nat → Tensor.rows a !! i = Some (Tensor.row a i).
Proof.
  intros Hi. unfold Tensor.rows. rewrite list_lookup_fmap, lookup_seq_lt by done.
  done.
Qed.

Lemma length_rows a : length (Tensor.rows a) = Tensor.len0 a.
Proof. unfold Tensor.rows. by rewrite length_fmap, length_seq. Qed.

End TensorFacts.


Lemma never_bind {A B} e (m : result A) (f : A → result B) :
  never e m → (∀ a, never e (f a)) → never e (m ≫= f).
Proof.
  intros H1 H2. destruct m as [a|e']; [apply H2|].
  intros [= ->]. by apply H1.
Qed.

Lemma never_for_fold {A S} e (body : S → A → result S) acc l :
  (∀ acc x, never e (body acc x)) → never e (for_fold body acc l).
Proof.
  intros Hbody. revert acc. induction l as [|x l IH]; intros acc; simpl.
  - done.
  - apply never_bind; auto.
Qed.

Lemma never_mapM {A B} e (f : A → result B) l :
  (∀ x, never e (f x)) → never e (mapM f l).
Proof.
  intros Hf. induction l as [|x l IH]; simpl; [done|].
  apply never_bind; [done|]. intros y. apply never_bind; [done|]. done.
Qed.

Lemma axis_index_Ok n i :
  0 ≤ i < Z.of_nat n → Numpy.axis_index n i = Ok (Z.to_nat i).
Proof. intros Hi. unfold Numpy.axis_index. by rewrite decide_True. Qed.

Lemma never_axis_index e n i : e ≠ IndexError → never e (Numpy.axis_index n i).
Proof. unfold Numpy.axis_index, never. repeat case_decide; congruence. Qed.

Lemma never_getitem {A} e (l : list A) k : e ≠ IndexError → never e (Numpy.getitem l k).
Proof. unfold Numpy.getitem, never. destruct (l !! k); congruence. Qed.

Section MergeFacts.
Import Numpy AverageFeatureMerger.
Context {F : Type} (mean : list F → F) (uninit : F).
Implicit Types (features : Tensor.t F) (tr : Dict.t (list Z)).

Lemma never_merge_step e features size merged item :
  e ≠ IndexError → e ≠ ValueError →
  never e (merge_step mean features size merged item).
Proof.
  intros H1 H2. destruct item as [index values]. simpl.
  apply never_bind.
  - apply never_mapM. intros i. apply never_bind; [by apply never_axis_index|done].
  - intros sel. unfold set_row. apply never_bind; [by apply never_axis_index|].
    intros k. unfold never. case_decide; congruence.
Qed.

Lemma never_merge_features features tr :
  never NotImplementedError (_merge_features mean uninit features tr).
Proof.
  unfold _merge_features. apply never_bind; [by apply never_getitem|].
  intros d. apply never_bind; [|done].
  apply never_for_fold. intros. by apply never_merge_step.
Qed.

Lemma never_merge_augmented_features features tr :
  never NotImplementedError (_merge_augmented_features mean uninit features tr).
Proof.
  unfold _merge_augmented_features. apply never_bind; [by apply never_getitem|].
  intros a. apply never_bind; [by apply never_getitem|].
  intros d. apply never_bind; [|done].
  apply never_for_fold. intros. by apply never_merge_step.
Qed.

(** C5. [AverageFeatureMerger.process] hands a rank-2 matrix to
    [_merge_features] and a rank-3 matrix to [_merge_augmented_features];
    it raises [NotImplementedError] exactly for the other ranks. *)
Theorem process_rank_dispatch features tr :
  (process mean uninit features tr = Raise NotImplementedError
   ↔ Tensor.rank features ≠ 2%nat ∧ Tensor.rank features ≠ 3%nat) ∧
  (Tensor.rank features = 2%nat →
   process mean uninit features tr = _merge_features mean uninit features tr) ∧
  (Tensor.rank features = 3%nat →
   process mean uninit features tr
   = _merge_augmented_features mean uninit features tr).
Proof.
  unfold process. split; [split|split].
  - destruct (decide (Tensor.rank features = 2%nat)) as [E2|N2].
    + intros Hr. by apply never_merge_features in Hr.
    + destruct (decide (Tensor.rank features = 3%nat)) as [E3|N3]; [|done].
      intros Hr. by apply never_merge_augmented_features in Hr.
  - intros [N2 N3]. by rewrite !decide_False.
  - intros E2. by rewrite decide_True.
  - intros E3. rewrite decide_False by lia. by rewrite decide_True.
Qed.

End MergeFacts.

Example process_rank_examples :
  let mean := λ l : list Z, foldr Z.add 0 l `div` Z.of_nat (length l) in
  AverageFeatureMerger.process mean 0 (Tensor.mk [2]%nat [10; 20]) [(1, [1])]
  = Raise NotImplementedError ∧
  AverageFeatureMerger.process mean 0
    (Tensor.mk [1; 1; 1; 2]%nat [10; 20]) [(1, [1])]
  = Raise NotImplementedError ∧
  AverageFeatureMerger.process mean 0
    (Tensor.mk [3; 2]%nat [10; 20; 30; 40; 5; 7]) [(2, [3]); (1, [1; 2])]
  = Ok (Tensor.mk [2; 2]%nat [20; 30; 5; 7]) ∧
  AverageFeatureMerger.process mean 0
    (Tensor.mk [2; 2; 1]%nat [10; 20; 30; 40]) [(1, [1; 2])]
  = Ok (Tensor.mk [1; 2; 1]%nat [20; 30]).
Proof. vm_compute. repeat split; reflexivity. Qed.


Section MergeIdentity.
Import Numpy AverageFeatureMerger.
Context {F : Type} (mean : list F → F) (uninit : F).
Implicit Types (features : Tensor.t F) (tr : Dict.t (list Z)).

(** The mean of one value is that value. *)
Hypothesis mean_one : ∀ x, mean [x] = x.

Lemma mean_axis0_singleton (r : list F) : mean_axis0 mean (length r) [r] = r.
Proof.
  unfold mean_axis0. apply list_eq. intros j. rewrite list_lookup_fmap.
  destruct (decide (j < length r)%nat) as [Hj|Hj].
  - rewrite lookup_seq_lt by done. simpl.
    destruct (lookup_lt_is_Some_2 r j Hj) as [x Hx]. rewrite Hx. simpl.
    by rewrite mean_one.
  - rewrite lookup_seq_ge, lookup_ge_None_2 by lia. done.
Qed.

Lemma merge_step_identity features merged k :
  Tensor.wf features → Tensor.shape features ≠ [] →
  length merged = Tensor.len0 features →
  1 ≤ k ≤ Z.of_nat (Tensor.len0 features) →
  merge_step mean features (Tensor.row_size features) merged (k, [k])
  = Ok (<[Z.to_nat (k - 1) := Tensor.row features (Z.to_nat (k - 1))]> merged).
Proof.
  intros Hwf Hsh Hlen Hk. simpl.
  rewrite axis_index_Ok by lia. simpl.
  unfold set_row. rewrite axis_index_Ok by lia. simpl.
  rewrite <- (length_row features (Z.to_nat (k - 1))) by (done || lia).
  rewrite mean_axis0_singleton. by rewrite decide_True.
Qed.

Lemma merge_fold_identity features l merged :
  Tensor.wf features → Tensor.shape features ≠ [] →
  length merged = Tensor.len0 features →
  Forall (λ item, item.2 = [item.1] ∧ 1 ≤ item.1 ≤ Z.of_nat (Tensor.len0 features)) l →
  ∃ merged',
    for_fold (merge_step mean features (Tensor.row_size features)) merged l
      = Ok merged' ∧
    length merged' = Tensor.len0 features ∧
    ∀ i, (i < Tensor.len0 features)%nat →
         merged' !! i = if decide (Z.of_nat i + 1 ∈ l.*1)
                        then Some (Tensor.row features i) else merged !! i.
Proof.
  intros Hwf Hsh. revert merged.
  induction l as [|[k vs] l IH]; intros merged Hlen Hall.
  - exists merged. split; [done|]. split; [done|]. intros i Hi.
    rewrite decide_False; [done|]. intros H. inversion H.
  - apply Forall_cons in Hall as [[Hvs Hk] Hall]. simpl in Hvs, Hk. subst vs.
    cbn [for_fold]. rewrite merge_step_identity by done. cbn [mbind result_bind].
    destruct (IH (<[Z.to_nat (k - 1) := Tensor.row features (Z.to_nat (k - 1))]> merged))
      as (merged' & Hfold & Hlen' & Hget); [by rewrite length_insert|done|].
    exists merged'. split; [done|]. split; [done|]. intros i Hi.
    rewrite (Hget i Hi). cbn [fmap list_fmap fst].
    destruct (decide (Z.of_nat i + 1 ∈ l.*1)) as [Hin|Hnin].
    + rewrite decide_True; [done|]. by right.
    + destruct (decide (Z.of_nat i + 1 = k)) as [<-|Hne].
      * rewrite decide_True by left.
        replace (Z.to_nat (Z.of_nat i + 1 - 1)) with i by lia.
        apply list_lookup_insert_eq. lia.
      * rewrite decide_False.
        -- apply list_lookup_insert_ne. lia.
        -- intros [?|?]%elem_of_cons; done.
Qed.

Lemma merge_loop_identity features tr :
  Tensor.wf features → Tensor.shape features ≠ [] →
  identity_translator (Tensor.len0 features) tr →
  merge_loop mean uninit features (Tensor.row_size features) tr
  = Ok (Tensor.rows features).
Proof.
  intros Hwf Hsh Hid. unfold merge_loop.
  assert (length tr = Tensor.len0 features) as Hlen.
  { rewrite Hid, length_fmap, length_seqZ. lia. }
  destruct (merge_fold_identity features tr
              (replicate (length tr) (replicate (Tensor.row_size features) uninit)))
    as (merged' & -> & Hlen' & Hget); try done.
  - by rewrite length_replicate.
  - rewrite Hid. apply Forall_fmap, Forall_forall. intros k Hk%elem_of_seqZ.
    simpl. split; [done|lia].
  - f_equal. apply list_eq. intros i.
    destruct (decide (i < Tensor.len0 features)%nat) as [Hi|Hi].
    + rewrite (Hget i Hi), lookup_rows by done. rewrite decide_True; [done|].
      rewrite Hid, <- list_fmap_compose. simpl.
      apply list_elem_of_fmap. exists (Z.of_nat i + 1). split; [done|].
      apply elem_of_seqZ. lia.
    + rewrite !lookup_ge_None_2; [done| rewrite length_rows; lia | lia].
Qed.

(** C6. Merging with the identity translator returns the input, for a
    matrix of rank 2 and of rank 3 alike, in whatever order the dictionary
    holds its keys, given that the mean of one value is that value. *)
Theorem merge_identity features tr :
  Tensor.wf features →
  Tensor.rank features = 2%nat ∨ Tensor.rank features = 3%nat →
  identity_translator (Tensor.len0 features) tr →
  process mean uninit features tr = Ok features.
Proof.
  intros Hwf Hrank Hid.
  assert (length tr = Tensor.len0 features) as Hlen.
  { rewrite Hid, length_fmap, length_seqZ. lia. }
  destruct features as [sh data]. unfold process, Tensor.rank in *. simpl in *.
  destruct Hrank as [Hr|Hr].
  - destruct sh as [|n [|d [|? ?]]]; try done. rewrite decide_True by done.
    unfold _merge_features. simpl.
    assert (Tensor.row_size (Tensor.mk [n; d] data) = d) as Hrs
      by (unfold Tensor.row_size; simpl; lia).
    pose proof (merge_loop_identity _ tr Hwf ltac:(done) Hid) as Hloop.
    rewrite Hrs in Hloop. rewrite Hloop. simpl.
    rewrite concat_rows by done. simpl. by rewrite Hlen.
  - destruct sh as [|n [|a [|d [|? ?]]]]; try done.
    rewrite decide_False by done. rewrite decide_True by done.
    unfold _merge_augmented_features. simpl.
    assert (Tensor.row_size (Tensor.mk [n; a; d] data) = (a * d)%nat) as Hrs
      by (unfold Tensor.row_size; simpl; lia).
    pose proof (merge_loop_identity _ tr Hwf ltac:(done) Hid) as Hloop.
    rewrite Hrs in Hloop. rewrite Hloop. simpl.
    rewrite concat_rows by done. simpl. by rewrite Hlen.
Qed.

End MergeIdentity.

(** The mean of one value over exact rationals is that value. *)
Lemma Qc_mean_one (x : Qc) : Qc_mean [x] = x.
Proof.
  unfold Qc_mean. simpl. apply Qc_is_canon. simpl.
  rewrite !Qred_correct. destruct x as [q Hq]. simpl. field.
Qed.

Lemma merge_identity_witness :
  let features :=
    Tensor.mk [2; 2]%nat [Q2Qc (1 # 2); Q2Qc 2; Q2Qc 3; Q2Qc (7 # 4)] in
  let tr := [(2, [2]); (1, [1])] in
  Tensor.wf features ∧ identity_translator 2 tr ∧
  AverageFeatureMerger.process Qc_mean (Q2Qc 0) features tr = Ok features.
Proof.
  intros features tr.
  assert (Tensor.wf features) as Hwf by reflexivity.
  assert (identity_translator 2 tr) as Hid by apply Permutation_swap.
  split; [exact Hwf|]. split; [exact Hid|].
  apply (merge_identity Qc_mean (Q2Qc 0) Qc_mean_one features tr Hwf).
  - left. reflexivity.
  - exact Hid.
Defined.

(** ** Slices and views *)

Example python_semantics :
  Py.slice [1; 2; 3; 4; 5] (-2) 10 = [4; 5] ∧
  Py.slice [1; 2; 3; 4; 5] 3 1 = [] ∧
  Py.round (1 # 2) = 0 ∧ Py.round (3 # 2) = 2 ∧ Py.round (5 # 2) = 2 ∧
  Py.round (7 # 4) = 2 ∧ Py.round (-1 # 2) = 0 ∧
  Numpy.axis_index 3 (-1) = Ok 2%nat ∧ Numpy.axis_index 3 3 = Raise IndexError ∧
  Numpy.unique_counts [3; 1; 3; 2; 3; 1] = ([1; 2; 3], [2; 1; 3]%nat) ∧
  Numpy.argmax [2; 5; 5; 1]%nat = Ok 1%nat.
Proof. vm_compute. repeat split; reflexivity. Qed.

Section SliceFacts.
Context {A : Type}.
Implicit Types l : list A.

Lemma slice_bound_in_range (len : nat) (i : Z) :
  0 ≤ i ≤ Z.of_nat len → Py.slice_bound len i = Z.to_nat i.
Proof. intros Hi. unfold Py.slice_bound. rewrite decide_False by lia. lia. Qed.

Lemma slice_bound_le (len : nat) (i : Z) : (Py.slice_bound len i ≤ len)%nat.
Proof. unfold Py.slice_bound. case_decide; lia. Qed.

Lemma slice_range_in_range (len : nat) (i j : Z) :
  0 ≤ i → i ≤ j → j ≤ Z.of_nat len →
  Py.slice_range len i j = (Z.to_nat i, Z.to_nat (j - i)).
Proof.
  intros. unfold Py.slice_range.
  rewrite !slice_bound_in_range by lia. f_equal. lia.
Qed.

Lemma length_slice l (i j : Z) :
  0 ≤ i → i ≤ j → j ≤ Z.of_nat (length l) →
  length (Py.slice l i j) = Z.to_nat (j - i).
Proof.
  intros. unfold Py.slice. rewrite slice_range_in_range by lia.
  rewrite length_take, length_drop. lia.
Qed.

Lemma lookup_slice l (i j : Z) (k : nat) :
  0 ≤ i → i ≤ j → j ≤ Z.of_nat (length l) → (k < Z.to_nat (j - i))%nat →
  Py.slice l i j !! k = l !! (Z.to_nat i + k)%nat.
Proof.
  intros. unfold Py.slice. rewrite slice_range_in_range by lia.
  rewrite lookup_take_lt by done. apply lookup_drop.
Qed.

End SliceFacts.

Section Array2Facts.
Context {A : Type}.
Implicit Types a : list (list A).

Lemma rect_lookup (h w : nat) a x row :
  Array2.rect h w a → a !! x = Some row → length row = w.
Proof.
  intros [_ Hall] Hx. rewrite Forall_forall in Hall.
  eapply Hall, list_elem_of_lookup_2, Hx.
Qed.

Lemma rect_width (h w : nat) a :
  Array2.rect h w a → (0 < h)%nat → Array2.width a = w.
Proof.
  intros [Hlen Hall] Hh. unfold Array2.width.
  destruct a as [|row a]; simpl in *; [lia|].
  by apply Forall_cons in Hall as [? _].
Qed.

Lemma rect_slice2 (h w : nat) a (x0 x1 y0 y1 : Z) :
  Array2.rect h w a →
  0 ≤ x0 → x0 ≤ x1 → x1 ≤ Z.of_nat h → 0 ≤ y0 → y0 ≤ y1 → y1 ≤ Z.of_nat w →
  Array2.rect (Z.to_nat (x1 - x0)) (Z.to_nat (y1 - y0))
    (Array2.slice2 a x0 x1 y0 y1).
Proof.
  intros Hrect ? ? ? ? ? ?. pose proof Hrect as [Hlen Hall].
  unfold Array2.slice2. split.
  - rewrite length_fmap, length_slice by lia. done.
  - apply Forall_fmap, Forall_forall. intros row Hrow. simpl.
    apply length_slice; try lia.
    assert (row ∈ a) as Hin.
    { unfold Py.slice in Hrow. destruct (Py.slice_range _ _ _) as [p n].
      by eapply subseteq_drop, subseteq_take. }
    rewrite Forall_forall in Hall. rewrite (Hall _ Hin). done.
Qed.

Lemma at_slice2 (h w : nat) a (x0 x1 y0 y1 : Z) (i j : nat) :
  Array2.rect h w a →
  0 ≤ x0 → x0 ≤ x1 → x1 ≤ Z.of_nat h → 0 ≤ y0 → y0 ≤ y1 → y1 ≤ Z.of_nat w →
  (i < Z.to_nat (x1 - x0))%nat → (j < Z.to_nat (y1 - y0))%nat →
  Array2.at_ (Array2.slice2 a x0 x1 y0 y1) i j
  = Array2.at_ a (Z.to_nat x0 + i) (Z.to_nat y0 + j).
Proof.
  intros Hrect ? ? ? ? ? ? Hi Hj. pose proof Hrect as [Hlen Hall].
  unfold Array2.at_, Array2.slice2.
  rewrite list_lookup_fmap, lookup_slice by lia.
  destruct (a !! (Z.to_nat x0 + i)%nat) as [row|] eqn:Hrow; simpl; [|done].
  apply lookup_slice; try lia.
  rewrite (rect_lookup _ _ _ _ _ Hrect Hrow). done.
Qed.

Lemma rect_paste (h w : nat) a xa ya src :
  Array2.rect h w a → Array2.rect h w (Array2.paste a xa ya src).
Proof.
  intros [Hlen Hall]. unfold Array2.paste. split.
  - by rewrite length_imap.
  - apply Forall_forall. intros row Hrow.
    apply list_elem_of_lookup_1 in Hrow as [x Hx].
    rewrite list_lookup_imap in Hx.
    destruct (a !! x) as [row0|] eqn:Hrow0; simpl in Hx; [|done].
    injection Hx as <-. rewrite length_imap.
    rewrite Forall_forall in Hall.
    eapply Hall, list_elem_of_lookup_2, Hrow0.
Qed.

Lemma at_paste a xa ya src (x y : nat) :
  Array2.at_ (Array2.paste a xa ya src) x y
  = (λ old, if decide (xa ≤ x ∧ ya ≤ y)%nat
            then default old (mjoin (Array2.at_ src (x - xa) (y - ya)))
            else old) <$> Array2.at_ a x y.
Proof.
  unfold Array2.at_ at 1 3, Array2.paste. rewrite list_lookup_imap.
  destruct (a !! x) as [row|]; simpl; [|done].
  by rewrite list_lookup_imap.
Qed.

Lemma at_replicate (h w : nat) (v : A) (x y : nat) :
  (x < h)%nat → (y < w)%nat →
  Array2.at_ (replicate h (replicate w v)) x y = Some v.
Proof.
  intros Hx Hy. unfold Array2.at_.
  rewrite lookup_replicate_2 by done. simpl. by apply lookup_replicate_2.
Qed.

Lemma rect_replicate (h w : nat) (v : A) :
  Array2.rect h w (replicate h (replicate w v)).
Proof.
  split; [apply length_replicate|].
  apply Forall_replicate, length_replicate.
Qed.

Lemma at_is_Some (h w : nat) a (x y : nat) :
  Array2.rect h w a → (x < h)%nat → (y < w)%nat → is_Some (Array2.at_ a x y).
Proof.
  intros Hrect Hx Hy. pose proof Hrect as [Hlen _]. unfold Array2.at_.
  destruct (lookup_lt_is_Some_2 a x) as [row Hrow]; [lia|].
  rewrite Hrow. simpl. apply lookup_lt_is_Some_2.
  rewrite (rect_lookup _ _ _ _ _ Hrect Hrow). done.
Qed.

Lemma at_outside (h w : nat) a (x y : nat) :
  Array2.rect h w a → ¬ (x < h ∧ y < w)%nat → Array2.at_ a x y = None.
Proof.
  intros Hrect Hout. pose proof Hrect as [Hlen _]. unfold Array2.at_.
  destruct (a !! x) as [row|] eqn:Hrow; [simpl|done].
  apply lookup_ge_None_2. rewrite (rect_lookup _ _ _ _ _ Hrect Hrow).
  apply lookup_lt_Some in Hrow. lia.
Qed.

End Array2Facts.

Section Array2Maps.
Context {A B : Type}.

Lemma rect_fmap2 (f : A → B) (h w : nat) (a : list (list A)) :
  Array2.rect h w a → Array2.rect h w ((λ row : list A, f <$> row) <$> a).
Proof.
  intros [Hlen Hall]. split; [by rewrite length_fmap|].
  apply Forall_fmap. eapply Forall_impl; [exact Hall|].
  intros row Hrow. simpl. by rewrite length_fmap.
Qed.

Lemma at_fmap2 (f : A → B) (a : list (list A)) (x y : nat) :
  Array2.at_ ((λ row : list A, f <$> row) <$> a) x y = f <$> Array2.at_ a x y.
Proof.
  unfold Array2.at_. rewrite list_lookup_fmap.
  destruct (a !! x) as [row|]; simpl; [|done]. apply list_lookup_fmap.
Qed.

Lemma same_shape_rect (h w : nat) (a : list (list A)) (b : list (list B)) :
  Array2.rect h w a → Array2.rect h w b → Numpy.same_shape a b = true.
Proof.
  intros [Ha Halla] [Hb Hallb]. apply bool_decide_eq_true.
  assert (∀ C (c : list (list C)), Forall (λ row, length row = w) c →
            length <$> c = replicate (length c) w) as Hrep.
  { intros C c Hall. induction Hall as [|row c Hrow _ IH]; csimpl; [done|].
    by rewrite Hrow, IH. }
  rewrite (Hrep _ a Halla), (Hrep _ b Hallb). congruence.
Qed.

Lemma at_zip_with2 {C} (f : A → B → C) (a : list (list A)) (b : list (list B)) x y :
  Array2.at_ (zip_with (zip_with f) a b) x y
  = va ← Array2.at_ a x y; vb ← Array2.at_ b x y; Some (f va vb).
Proof.
  unfold Array2.at_. rewrite lookup_zip_with.
  destruct (a !! x) as [ra|]; simpl; [|done].
  destruct (b !! x) as [rb|]; simpl.
  - rewrite lookup_zip_with. by destruct (ra !! y).
  - by destruct (ra !! y).
Qed.

Lemma rect_zip_with2 {C} (f : A → B → C) (h w : nat)
    (a : list (list A)) (b : list (list B)) :
  Array2.rect h w a → Array2.rect h w b →
  Array2.rect h w (zip_with (zip_with f) a b).
Proof.
  intros [Hla Ha] [Hlb Hb]. split.
  - rewrite length_zip_with. lia.
  - apply Forall_forall. intros row Hrow.
    apply list_elem_of_lookup_1 in Hrow as [x Hx].
    apply lookup_zip_with_Some in Hx as (ra & rb & -> & Hra & Hrb).
    rewrite length_zip_with.
    rewrite Forall_forall in Ha. rewrite Forall_forall in Hb.
    rewrite (Ha ra), (Hb rb) by (by eapply list_elem_of_lookup_2). lia.
Qed.

Lemma zip_with2_ext {C} (f g : A → B → C) (a : list (list A)) (b : list (list B)) :
  (∀ x y, f x y = g x y) →
  zip_with (zip_with f) a b = zip_with (zip_with g) a b.
Proof.
  intros Hfg. revert b. induction a as [|ra a IH]; intros [|rb b]; try done.
  cbn [zip_with]. rewrite IH. f_equal.
  clear IH. revert rb. induction ra as [|x ra IH]; intros [|y rb]; try done.
  cbn [zip_with]. by rewrite Hfg, IH.
Qed.

Lemma zip_with2_fmap2 {A' B' C} (f : A' → B' → C) (g : A → A') (h : B → B')
    (a : list (list A)) (b : list (list B)) :
  zip_with (zip_with f) ((λ row : list A, g <$> row) <$> a)
    ((λ row : list B, h <$> row) <$> b)
  = zip_with (zip_with (λ x y, f (g x) (h y))) a b.
Proof.
  revert b. induction a as [|ra a IH]; intros [|rb b]; try done.
  rewrite !fmap_cons. cbn [zip_with]. rewrite IH. f_equal.
  by rewrite zip_with_fmap_l, zip_with_fmap_r.
Qed.

End Array2Maps.

(** ** Patch extraction *)

Section PatchFacts.
Import InstanceMapPatchDataset.


Lemma half_bounds (n : nat) :
  0 ≤ Z.of_nat n `div` 2 ∧ 2 * (Z.of_nat n `div` 2) ≤ Z.of_nat n.
Proof.
  split; [apply Z.div_pos; lia | apply Z.mul_div_le; lia].
Qed.

Lemma crop_window_bounds (self : t) (rp : Skimage.region) (h w : nat) :
  Array2.rect h w (image_ self) → valid_region h w rp →
  let '(min_x, max_x, min_y, max_y) := crop_window self rp in
  (0 ≤ min_x ≤ max_x ∧ max_x ≤ Z.of_nat h ∧
   max_x - min_x ≤ Z.of_nat (patch_size self).1.1) ∧
  (0 ≤ min_y ≤ max_y ∧ max_y ≤ Z.of_nat w ∧
   max_y - min_y ≤ Z.of_nat (patch_size self).1.2).
Proof.
  intros Himg. unfold valid_region, crop_window, Skimage.bbox, Skimage.centroid.
  intros [Hx Hy].
  assert (Array2.height (image_ self) = h) as -> by apply Himg.
  assert (Array2.width (image_ self) = w) as ->
    by (eapply rect_width; [exact Himg | lia]).
  pose proof (half_bounds (patch_size self).1.1).
  pose proof (half_bounds (patch_size self).1.2).
  repeat case_decide; simpl; lia.
Qed.

Lemma fill_outside_spec (self : t) rp (h w : nat) min_x max_x min_y max_y :
  Array2.rect h w (image_ self) → Array2.rect h w (instance_map self) →
  (0 < h)%nat →
  0 ≤ min_x ≤ max_x → max_x ≤ Z.of_nat h → 0 ≤ min_y ≤ max_y → max_y ≤ Z.of_nat w →
  ∃ img,
    fill_outside self rp (min_x, max_x, min_y, max_y) = Ok img ∧
    Array2.rect h w img ∧
    ∀ x y, Array2.at_ img x y =
       (λ old, match fill_value self with
               | Some fill =>
                   if decide ((Z.to_nat min_x ≤ x < Z.to_nat max_x)%nat ∧
                              (Z.to_nat min_y ≤ y < Z.to_nat max_y)%nat ∧
                              Array2.at_ (instance_map self) x y
                                ≠ Some (Skimage.label rp))
                   then (fill, fill, fill) else old
               | None => old
               end) <$> Array2.at_ (image_ self) x y.
Proof.
  intros Himg Hmap Hh Hx1 Hx2 Hy1 Hy2.
  assert (Array2.height (image_ self) = h) as Hheight by apply Himg.
  assert (Array2.width (image_ self) = w) as Hwidth by (by eapply rect_width).
  unfold fill_outside. destruct (fill_value self) as [fill|].
  2:{ exists (image_ self). split; [done|]. split; [done|]. intros x y.
      by destruct (Array2.at_ (image_ self) x y). }
  set (mask := (λ row : list Z, (λ v : Z, bool_decide (v ≠ Skimage.label rp)) <$> row)
                <$> instance_map self).
  assert (Array2.rect h w mask) as Hmask by (subst mask; by apply (rect_fmap2 _ h w)).
  rewrite (same_shape_rect (Z.to_nat (max_x - min_x)) (Z.to_nat (max_y - min_y)))
    by (apply (rect_slice2 h w); (done || lia)).
  eexists. split; [done|]. split; [by apply rect_paste|].
  intros x y. rewrite at_paste. rewrite Hheight, Hwidth.
  rewrite !slice_bound_in_range by lia.
  destruct (Array2.at_ (image_ self) x y) as [old|] eqn:Hold; [simpl|reflexivity]. f_equal.
  assert (x < h ∧ y < w)%nat as [Hxh Hyw].
  { unfold Array2.at_ in Hold. apply bind_Some in Hold as (row & Hrow & Hy).
    split.
    - apply lookup_lt_Some in Hrow. unfold Array2.height in Hheight. lia.
    - apply lookup_lt_Some in Hy. by rewrite (rect_lookup _ _ _ _ _ Himg Hrow) in Hy. }
  destruct (decide (Z.to_nat min_x ≤ x ∧ Z.to_nat min_y ≤ y)%nat) as [[Hx Hy]|Hout].
  - destruct (decide (x < Z.to_nat max_x ∧ y < Z.to_nat max_y)%nat) as [[Hx' Hy']|Hout].
    + rewrite at_fmap2.
      rewrite (at_slice2 h w) by (done || lia). unfold mask. rewrite at_fmap2.
      replace (Z.to_nat min_x + (x - Z.to_nat min_x))%nat with x by lia.
      replace (Z.to_nat min_y + (y - Z.to_nat min_y))%nat with y by lia.
      destruct (at_is_Some h w (instance_map self) x y Hmap Hxh Hyw) as [v Hv].
      rewrite Hv. simpl.
      destruct (decide (v = Skimage.label rp)) as [->|Hne].
      * rewrite bool_decide_eq_false_2 by (intros ?; done). simpl.
        rewrite decide_False; [done|]. intros (_ & _ & Hc). done.
      * rewrite bool_decide_eq_true_2 by done. simpl.
        rewrite decide_True; [done|]. repeat split; try lia. congruence.
    + rewrite decide_False by lia.
      match goal with |- context [Array2.at_ ?s ?i ?j] =>
        assert (Array2.at_ s i j = None) as ->; [|done] end.
      rewrite at_fmap2.
      pose proof (rect_slice2 h w mask min_x max_x min_y max_y Hmask) as [Hl Hall]; try lia.
      unfold Array2.at_.
      destruct (Array2.slice2 mask min_x max_x min_y max_y !! (x - Z.to_nat min_x)%nat) as [row|] eqn:Hrow; [|done].
      simpl. rewrite lookup_ge_None_2; [done|].
      apply lookup_lt_Some in Hrow as Hr. rewrite Hl in Hr.
      rewrite Forall_forall in Hall. rewrite (Hall row) by (eapply list_elem_of_lookup_2, Hrow).
      lia.
  - rewrite decide_False by lia. done.
Qed.

Lemma copy_region_spec (self : t) (img : image) (h w : nat) min_x max_x min_y max_y :
  Array2.rect h w img →
  0 ≤ min_x ≤ max_x → max_x ≤ Z.of_nat h →
  max_x - min_x ≤ Z.of_nat (patch_size self).1.1 →
  0 ≤ min_y ≤ max_y → max_y ≤ Z.of_nat w →
  max_y - min_y ≤ Z.of_nat (patch_size self).1.2 →
  let size0 := (patch_size self).1.1 in
  let size1 := (patch_size self).1.2 in
  let bg := default 255 (fill_value self) in
  let xl := Z.to_nat (max_x - min_x) in
  let yl := Z.to_nat (max_y - min_y) in
  let top := ((size0 - xl) `div` 2)%nat in
  let left := ((size1 - yl) `div` 2)%nat in
  ∃ patch,
    copy_region self (min_x, max_x, min_y, max_y) img = Ok patch ∧
    Array2.rect size0 size1 patch ∧
    ∀ x y, (x < size0)%nat → (y < size1)%nat →
       Array2.at_ patch x y =
       if decide ((top ≤ x < top + xl)%nat ∧ (left ≤ y < left + yl)%nat)
       then Array2.at_ img (Z.to_nat min_x + (x - top)) (Z.to_nat min_y + (y - left))
       else Some (bg, bg, bg).
Proof.
  intros Himg Hx1 Hx2 Hx3 Hy1 Hy2 Hy3. cbv zeta.
  unfold copy_region. cbn [fst snd].
  assert (∀ (s : nat) (l : Z), 0 ≤ l ≤ Z.of_nat s →
            (Z.of_nat s - l) `div` 2 = Z.of_nat ((s - Z.to_nat l) `div` 2)
            ∧ (Z.of_nat ((s - Z.to_nat l) `div` 2) + l ≤ Z.of_nat s)) as Hhalf.
  { intros s l Hl. rewrite Nat2Z.inj_div, Nat2Z.inj_sub by lia.
    rewrite Z2Nat.id by lia. split; [done|].
    pose proof (Z.mul_div_le (Z.of_nat s - l) 2). 
    assert (0 ≤ (Z.of_nat s - l) `div` 2) by (apply Z.div_pos; lia). lia. }
  destruct (Hhalf (patch_size self).1.1 (max_x - min_x)) as [-> Htop]; [lia|].
  destruct (Hhalf (patch_size self).1.2 (max_y - min_y)) as [-> Hleft]; [lia|].
  set (size0 := (patch_size self).1.1) in *. set (size1 := (patch_size self).1.2) in *.
  set (xl := Z.to_nat (max_x - min_x)) in *. set (yl := Z.to_nat (max_y - min_y)) in *.
  set (top := ((size0 - xl) `div` 2)%nat) in *. set (left := ((size1 - yl) `div` 2)%nat) in *.
  rewrite !slice_range_in_range by lia.
  replace (Z.to_nat (Z.of_nat top + (max_x - min_x) - Z.of_nat top)) with xl by lia.
  replace (Z.to_nat (Z.of_nat left + (max_y - min_y) - Z.of_nat left)) with yl by lia.
  rewrite !Nat2Z.id.
  pose proof (rect_slice2 h w img min_x max_x min_y max_y Himg) as Hreg.
  rewrite bool_decide_eq_true_2 by (apply Hreg; lia).
  eexists. split; [done|]. split; [apply rect_paste, rect_replicate|].
  intros x y Hx Hy. rewrite at_paste, at_replicate by done. simpl. f_equal.
  destruct (decide ((top ≤ x < top + xl)%nat ∧ (left ≤ y < left + yl)%nat)) as [[Hx' Hy']|Hout].
  - rewrite decide_True by lia. rewrite at_fmap2.
    rewrite (at_slice2 h w) by (done || lia).
    destruct (at_is_Some h w img (Z.to_nat min_x + (x - top)) (Z.to_nat min_y + (y - left)) Himg) as [v Hv]; [lia|lia|].
    rewrite Hv. done.
  - f_equal. case_decide; [|done].
    rewrite (at_outside xl yl); [done| |lia].
    apply (rect_fmap2 Some), Hreg; lia.
Qed.


Lemma get_instance_patch_spec (self : t) rp (h w : nat) min_x max_x min_y max_y :
  Array2.rect h w (image_ self) → Array2.rect h w (instance_map self) →
  valid_region h w rp →
  crop_window self rp = (min_x, max_x, min_y, max_y) →
  ∃ patch img,
    fill_outside self rp (min_x, max_x, min_y, max_y) = Ok img ∧
    copy_region self (min_x, max_x, min_y, max_y) img = Ok patch ∧
    _get_instance_patch self rp = Ok (patch, img).
Proof.
  intros Himg Hmap Hvalid Hcw.
  pose proof (crop_window_bounds self rp h w Himg Hvalid) as Hb.
  rewrite Hcw in Hb. destruct Hb as [(Hx1 & Hx2 & Hx3) (Hy1 & Hy2 & Hy3)].
  assert (0 < h)%nat as Hh.
  { unfold valid_region, Skimage.bbox, Skimage.centroid in Hvalid. lia. }
  destruct (fill_outside_spec self rp h w min_x max_x min_y max_y)
    as (img & Hfill & Hrect & _); try done.
  destruct (copy_region_spec self img h w min_x max_x min_y max_y)
    as (patch & Hcopy & _); try done.
  exists patch, img. split; [done|]. split; [done|].
  unfold _get_instance_patch. rewrite Hcw.
  rewrite !bool_decide_eq_true_2 by done. cbn [py_assert mbind result_bind].
  rewrite Hfill. cbn [mbind result_bind]. rewrite Hcopy. done.
Qed.

End PatchFacts.

(** ** Regions of a label image *)

Example regionprops_example :
  let regions := Skimage.regionprops [[1; 1; 2]; [1; 2; 2]; [0; 0; 2]] in
  Skimage.label <$> regions = [1; 2] ∧
  Skimage.bbox <$> regions = [(0, 0, 2, 2); (0, 1, 3, 3)] ∧
  Skimage.centroid <$> regions = [(1 # 3, 1 # 3); (4 # 4, 7 # 4)]%Q.
Proof. vm_compute. repeat split; reflexivity. Qed.

Section RegionFacts.
Import Skimage.

Lemma elem_of_concat {A} (x : A) (ls : list (list A)) :
  x ∈ concat ls ↔ ∃ l, x ∈ l ∧ l ∈ ls.
Proof.
  induction ls as [|l ls IH]; simpl.
  - split; [intros H; inversion H | intros (l & _ & H); inversion H].
  - rewrite elem_of_app, IH. split.
    + intros [H|(l' & H1 & H2)]; [exists l; split; [done|left] | exists l'; split; [done|by right]].
    + intros (l' & H1 & [->|H2]%elem_of_cons); [by left | right; eauto].
Qed.

(** The pixels of a label image are its entries with their coordinates. *)
Lemma elem_of_pixels (a : list (list Z)) (r c : nat) (v : Z) :
  ((r, c), v) ∈ pixels a ↔ Array2.at_ a r c = Some v.
Proof.
  unfold pixels, Array2.at_. rewrite elem_of_concat. split.
  - intros (l & Hin & Hl). apply elem_of_lookup_imap in Hl as (r' & row & -> & Hrow).
    apply elem_of_lookup_imap in Hin as (c' & v' & [= -> -> ->] & Hv).
    rewrite Hrow. done.
  - intros (row & Hrow & Hv)%bind_Some.
    exists (imap (λ c v, ((r, c), v)) row). split.
    + apply (elem_of_lookup_imap_2 (λ c v, ((r, c), v))). done.
    + apply (elem_of_lookup_imap_2 (λ r row, imap (λ c v, ((r, c), v)) row)). done.
Qed.

Lemma elem_of_coords_of (a : list (list Z)) (l : Z) (r c : nat) :
  (r, c) ∈ coords_of a l ↔ Array2.at_ a r c = Some l.
Proof.
  unfold coords_of. rewrite list_elem_of_fmap. split.
  - intros ([[r' c'] v] & [= -> ->] & [Hv Hin]%list_elem_of_filter).
    simpl in Hv. subst v. by apply elem_of_pixels.
  - intros Hat. exists ((r, c), l). split; [done|].
    apply list_elem_of_filter. split; [done | by apply elem_of_pixels].
Qed.

Lemma elem_of_ravel_at (a : list (list Z)) (v : Z) :
  v ∈ Numpy.ravel a ↔ ∃ r c, Array2.at_ a r c = Some v.
Proof.
  unfold Numpy.ravel, Array2.at_. rewrite elem_of_concat. split.
  - intros (row & [c Hc]%list_elem_of_lookup_1 & [r Hr]%list_elem_of_lookup_1).
    exists r, c. rewrite Hr. done.
  - intros (r & c & (row & Hrow & Hv)%bind_Some).
    exists row. split; eapply list_elem_of_lookup_2; eauto.
Qed.

(** What [regionprops] returns: one region per positive label. *)
Lemma elem_of_regionprops (a : list (list Z)) (rp : region) :
  rp ∈ regionprops a ↔
  0 < label rp ∧ label rp ∈ Numpy.ravel a ∧ coords rp = coords_of a (label rp).
Proof.
  unfold regionprops. rewrite list_elem_of_fmap. split.
  - intros (l & -> & [Hpos Hin]%list_elem_of_filter). simpl.
    by rewrite elem_of_unique in Hin.
  - intros (Hpos & Hin & Hc). exists (label rp). split.
    + destruct rp as [l cs]. simpl in *. by subst cs.
    + apply list_elem_of_filter. split; [done | by apply elem_of_unique].
Qed.

Lemma minimum_spec (l : list Z) x : x ∈ l → minimum l ≤ x ∧ minimum l ∈ l.
Proof.
  unfold minimum. intros Hx.
  destruct l as [|y l]; [inversion Hx|].
  change (default 0 (head (y :: l))) with y.
  assert (∀ (l : list Z) d, foldr Z.min d l ≤ d ∧
            (∀ x, x ∈ l → foldr Z.min d l ≤ x) ∧
            (foldr Z.min d l = d ∨ foldr Z.min d l ∈ l)) as Hfold.
  { clear. induction l as [|z l IH]; intros d; simpl.
    - split; [lia|]. split; [intros x H; inversion H | by left].
    - destruct (IH d) as (H1 & H2 & H3). split; [lia|]. split.
      + intros x [->|Hx]%elem_of_cons; [lia|]. specialize (H2 _ Hx). lia.
      + destruct (Z.min_spec z (foldr Z.min d l)) as [[_ ->]|[_ ->]].
        * right. left.
        * destruct H3 as [?|?]; [by left | right; by right]. }
  destruct (Hfold (y :: l) y) as (H1 & H2 & H3). split; [by apply H2|].
  destruct H3 as [Heq|?]; [rewrite Heq; left | done].
Qed.

Lemma maximum_spec (l : list Z) x : x ∈ l → x ≤ maximum l ∧ maximum l ∈ l.
Proof.
  unfold maximum. intros Hx.
  destruct l as [|y l]; [inversion Hx|].
  change (default 0 (head (y :: l))) with y.
  assert (∀ (l : list Z) d, d ≤ foldr Z.max d l ∧
            (∀ x, x ∈ l → x ≤ foldr Z.max d l) ∧
            (foldr Z.max d l = d ∨ foldr Z.max d l ∈ l)) as Hfold.
  { clear. induction l as [|z l IH]; intros d; simpl.
    - split; [lia|]. split; [intros x H; inversion H | by left].
    - destruct (IH d) as (H1 & H2 & H3). split; [lia|]. split.
      + intros x [->|Hx]%elem_of_cons; [lia|]. specialize (H2 _ Hx). lia.
      + destruct (Z.max_spec z (foldr Z.max d l)) as [[_ ->]|[_ ->]].
        * destruct H3 as [?|?]; [by left | right; by right].
        * right. left. }
  destruct (Hfold (y :: l) y) as (H1 & H2 & H3). split; [by apply H2|].
  destruct H3 as [Heq|?]; [rewrite Heq; left | done].
Qed.

Lemma sum_bounds (l : list Z) (lo hi : Z) :
  (∀ x, x ∈ l → lo ≤ x ≤ hi) →
  lo * Z.of_nat (length l) ≤ foldr Z.add 0 l ≤ hi * Z.of_nat (length l).
Proof.
  induction l as [|y l IH]; intros Hall; simpl length; simpl foldr; [lia|].
  assert (lo ≤ y ≤ hi) by (apply Hall; left).
  assert (lo * Z.of_nat (length l) ≤ foldr Z.add 0 l ≤ hi * Z.of_nat (length l))
    by (apply IH; intros; apply Hall; by right).
  lia.
Qed.

(** The rounded mean of integers lies between the smallest and the
    largest of them. *)
Lemma round_mean_bounds (l : list Z) (lo hi : Z) :
  l ≠ [] → (∀ x, x ∈ l → lo ≤ x ≤ hi) →
  lo ≤ Py.round (mean_coord l) ≤ hi.
Proof.
  intros Hne Hall. pose proof (sum_bounds l lo hi Hall) as Hsum.
  unfold Py.round, mean_coord. cbn [Qnum Qden].
  set (s := foldr Z.add 0 l) in *.
  assert (Z.pos (Pos.of_nat (length l)) = Z.of_nat (length l)) as ->.
  { destruct l; [done|]. simpl length. lia. }
  set (n := Z.of_nat (length l)) in *.
  assert (0 < n) by (subst n; destruct l; [done | simpl; lia]).
  assert (lo ≤ s `div` n) by (apply Z.div_le_lower_bound; lia).
  assert (s `div` n ≤ hi) by (apply Z.div_le_upper_bound; lia).
  pose proof (Z.div_mod s n ltac:(lia)) as Hdm.
  pose proof (Z.mod_pos_bound s n ltac:(lia)) as Hmod.
  assert (s `div` n = hi → s `mod` n = 0) as Htop by nia.
  repeat case_decide; try lia; destruct (Z.even (s `div` n)); lia.
Qed.

(** Every region of an [h] × [w] label image is valid. *)
Lemma regionprops_valid (h w : nat) (a : list (list Z)) (rp : region) :
  Array2.rect h w a → rp ∈ regionprops a → valid_region h w rp.
Proof.
  intros Hrect (Hpos & Hin & Hc)%elem_of_regionprops.
  assert (∀ r c, (r, c) ∈ coords rp → (r < h)%nat ∧ (c < w)%nat) as Hbound.
  { intros r c Hrc. rewrite Hc in Hrc. apply elem_of_coords_of in Hrc.
    destruct (decide (r < h ∧ c < w)%nat) as [?|Hout]; [done|].
    by rewrite (at_outside h w) in Hrc. }
  assert (coords rp ≠ []) as Hne.
  { apply elem_of_ravel_at in Hin as (r & c & Hat).
    apply elem_of_coords_of in Hat. rewrite <- Hc in Hat.
    intros Hnil. rewrite Hnil in Hat. inversion Hat. }
  assert (∀ x, x ∈ rows_of rp → 0 ≤ x < Z.of_nat h) as Hrows.
  { intros x ([r c] & -> & Hrc)%list_elem_of_fmap. simpl.
    destruct (Hbound _ _ Hrc). lia. }
  assert (∀ x, x ∈ cols_of rp → 0 ≤ x < Z.of_nat w) as Hcols.
  { intros x ([r c] & -> & Hrc)%list_elem_of_fmap. simpl.
    destruct (Hbound _ _ Hrc). lia. }
  assert (rows_of rp ≠ [] ∧ cols_of rp ≠ []) as [Hrne Hcne].
  { unfold rows_of, cols_of. destruct (coords rp); done. }
  assert (∀ l : list Z, l ≠ [] → ∃ x, x ∈ l) as Hex.
  { intros [|x l] ?; [done|]. exists x. left. }
  destruct (Hex _ Hrne) as [x0 Hx0]. destruct (Hex _ Hcne) as [y0 Hy0].
  destruct (minimum_spec _ _ Hx0) as [_ Hminx].
  destruct (maximum_spec _ _ Hx0) as [_ Hmaxx].
  destruct (minimum_spec _ _ Hy0) as [_ Hminy].
  destruct (maximum_spec _ _ Hy0) as [_ Hmaxy].
  pose proof (round_mean_bounds (rows_of rp) (minimum (rows_of rp))
                (maximum (rows_of rp)) Hrne) as Hrx.
  pose proof (round_mean_bounds (cols_of rp) (minimum (cols_of rp))
                (maximum (cols_of rp)) Hcne) as Hry.
  unfold valid_region, bbox, centroid.
  apply Hrows in Hminx, Hmaxx. apply Hcols in Hminy, Hmaxy.
  split.
  - destruct Hrx as [? ?]; [|lia].
    intros x Hx. split; [by apply minimum_spec | by apply maximum_spec].
  - destruct Hry as [? ?]; [|lia].
    intros x Hx. split; [by apply minimum_spec | by apply maximum_spec].
Qed.

End RegionFacts.

(** ** Claims on patch extraction *)

Section PatchClaims.
Import InstanceMapPatchDataset.


Lemma wf_dataset_init (h w : nat) img imap size fill :
  Array2.rect h w img → Array2.rect h w imap →
  wf_dataset h w (__init__ img imap size fill).
Proof. intros. by split. Qed.

Lemma wf_dataset_valid_region (h w : nat) (self : t) index rp :
  wf_dataset h w self → properties self !! index = Some rp →
  valid_region h w rp.
Proof.
  intros (_ & Hmap & Hprops) Hrp. apply (regionprops_valid h w (instance_map self)).
  - done.
  - rewrite <- Hprops. eapply list_elem_of_lookup_2, Hrp.
Qed.

Lemma get_instance_patch_Ok (h w : nat) (self : t) index rp :
  wf_dataset h w self → properties self !! index = Some rp →
  ∃ patch img,
    _get_instance_patch self rp = Ok (patch, img) ∧
    Array2.rect (patch_size self).1.1 (patch_size self).1.2 patch ∧
    Array2.rect h w img.
Proof.
  intros Hwf Hrp. pose proof (wf_dataset_valid_region h w self index rp Hwf Hrp) as Hvalid.
  destruct Hwf as (Himg & Hmap & _).
  destruct (crop_window self rp) as [[[min_x max_x] min_y] max_y] eqn:Hcw.
  pose proof (crop_window_bounds self rp h w Himg Hvalid) as Hb.
  rewrite Hcw in Hb. destruct Hb as [(Hx1 & Hx2 & Hx3) (Hy1 & Hy2 & Hy3)].
  assert (0 < h)%nat as Hh.
  { unfold valid_region, Skimage.bbox, Skimage.centroid in Hvalid. lia. }
  destruct (get_instance_patch_spec self rp h w min_x max_x min_y max_y)
    as (patch & img & Hfill & Hcopy & Hget); try done.
  destruct (fill_outside_spec self rp h w min_x max_x min_y max_y)
    as (img' & Hfill' & Hrect & _); try done.
  rewrite Hfill in Hfill'. injection Hfill' as <-.
  destruct (copy_region_spec self img h w min_x max_x min_y max_y)
    as (patch' & Hcopy' & Hprect & _); try done.
  rewrite Hcopy in Hcopy'. injection Hcopy' as <-.
  by exists patch, img.
Qed.

(** C7. For every region of the instance map, [_get_instance_patch]
    returns a patch of [patch_size[0]] rows of [patch_size[1]] RGB pixels.
    The crop window is clipped to the image, and a pixel of the patch is
    either the background value or the pixel of the image at a position
    inside the window, hence inside the image. *)
Theorem get_instance_patch_shape (h w : nat) (self : t) index rp :
  wf_dataset h w self → properties self !! index = Some rp →
  ∃ patch img min_x max_x min_y max_y,
    _get_instance_patch self rp = Ok (patch, img) ∧
    Array2.rect (patch_size self).1.1 (patch_size self).1.2 patch ∧
    crop_window self rp = (min_x, max_x, min_y, max_y) ∧
    (0 ≤ min_x ≤ max_x ∧ max_x ≤ Z.of_nat h) ∧
    (0 ≤ min_y ≤ max_y ∧ max_y ≤ Z.of_nat w) ∧
    ∀ x y, (x < (patch_size self).1.1)%nat → (y < (patch_size self).1.2)%nat →
      Array2.at_ patch x y
        = Some (default 255 (fill_value self), default 255 (fill_value self),
                default 255 (fill_value self))
      ∨ ∃ i j, (Z.to_nat min_x ≤ i < Z.to_nat max_x)%nat ∧
               (Z.to_nat min_y ≤ j < Z.to_nat max_y)%nat ∧
               (i < h)%nat ∧ (j < w)%nat ∧
               Array2.at_ patch x y = Array2.at_ img i j.
Proof.
  intros Hwf Hrp. pose proof (wf_dataset_valid_region h w self index rp Hwf Hrp) as Hvalid.
  destruct Hwf as (Himg & Hmap & _).
  destruct (crop_window self rp) as [[[min_x max_x] min_y] max_y] eqn:Hcw.
  pose proof (crop_window_bounds self rp h w Himg Hvalid) as Hb.
  rewrite Hcw in Hb. destruct Hb as [(Hx1 & Hx2 & Hx3) (Hy1 & Hy2 & Hy3)].
  assert (0 < h)%nat as Hh.
  { unfold valid_region, Skimage.bbox, Skimage.centroid in Hvalid. lia. }
  destruct (get_instance_patch_spec self rp h w min_x max_x min_y max_y)
    as (patch & img & Hfill & Hcopy & Hget); try done.
  destruct (fill_outside_spec self rp h w min_x max_x min_y max_y)
    as (img' & Hfill' & Hrect & _); try done.
  rewrite Hfill in Hfill'. injection Hfill' as <-.
  destruct (copy_region_spec self img h w min_x max_x min_y max_y)
    as (patch' & Hcopy' & Hprect & Hat); try done.
  rewrite Hcopy in Hcopy'. injection Hcopy' as <-.
  exists patch, img, min_x, max_x, min_y, max_y.
  repeat (split; [done|]).
  intros x y Hx Hy. rewrite (Hat x y Hx Hy). case_decide; [right | by left].
  eexists _, _. split; [|split; [|split; [|split; [|reflexivity]]]]; lia.
Qed.

Lemma get_instance_patch_shape_witness :
  let img := [[(1, 1, 1); (2, 2, 2); (3, 3, 3)];
              [(4, 4, 4); (5, 5, 5); (6, 6, 6)];
              [(7, 7, 7); (8, 8, 8); (9, 9, 9)]] in
  let imap := [[1; 1; 2]; [1; 2; 2]; [0; 0; 2]] in
  let self := __init__ img imap 2 None in
  let rp := Skimage.Build_region 2 [(0, 2); (1, 1); (1, 2); (2, 2)]%nat in
  wf_dataset 3 3 self ∧ properties self !! 1%nat = Some rp ∧
  crop_window self rp = (0, 2, 1, 3) ∧
  ∃ img', _get_instance_patch self rp
          = Ok ([[(2, 2, 2); (3, 3, 3)]; [(5, 5, 5); (6, 6, 6)]], img').
Proof.
  intros img imap self rp.
  assert (wf_dataset 3 3 self) as Hwf.
  { apply wf_dataset_init; (split; [reflexivity | repeat constructor]). }
  assert (properties self !! 1%nat = Some rp) as Hrp by (vm_compute; reflexivity).
  split; [exact Hwf|]. split; [exact Hrp|]. split; [vm_compute; reflexivity|].
  destruct (get_instance_patch_shape 3 3 self 1 rp Hwf Hrp)
    as (patch & img' & ? & ? & ? & ? & Hget & _).
  exists img'. rewrite Hget. f_equal. f_equal.
  assert (_get_instance_patch self rp
          = Ok ([[(2, 2, 2); (3, 3, 3)]; [(5, 5, 5); (6, 6, 6)]], img)) as Hc
    by (vm_compute; reflexivity).
  rewrite Hget in Hc. by injection Hc as -> _.
Defined.

(** C10. In mask mode the call writes to [self.image]: after it, every
    pixel inside the crop window that does not carry the label of the
    region holds the fill value in all channels; the other pixels are as
    before. *)
Theorem get_instance_patch_writes_image (h w : nat) (self : t) index rp fill :
  wf_dataset h w self → properties self !! index = Some rp →
  fill_value self = Some fill →
  ∃ patch img min_x max_x min_y max_y,
    _get_instance_patch self rp = Ok (patch, img) ∧
    crop_window self rp = (min_x, max_x, min_y, max_y) ∧
    Array2.rect h w img ∧
    ∀ x y,
      Array2.at_ img x y =
      (λ old, if decide ((Z.to_nat min_x ≤ x < Z.to_nat max_x)%nat ∧
                         (Z.to_nat min_y ≤ y < Z.to_nat max_y)%nat ∧
                         Array2.at_ (instance_map self) x y
                           ≠ Some (Skimage.label rp))
              then (fill, fill, fill) else old) <$> Array2.at_ (image_ self) x y.
Proof.
  intros Hwf Hrp Hfillv.
  pose proof (wf_dataset_valid_region h w self index rp Hwf Hrp) as Hvalid.
  destruct Hwf as (Himg & Hmap & _).
  destruct (crop_window self rp) as [[[min_x max_x] min_y] max_y] eqn:Hcw.
  pose proof (crop_window_bounds self rp h w Himg Hvalid) as Hb.
  rewrite Hcw in Hb. destruct Hb as [(Hx1 & Hx2 & Hx3) (Hy1 & Hy2 & Hy3)].
  assert (0 < h)%nat as Hh.
  { unfold valid_region, Skimage.bbox, Skimage.centroid in Hvalid. lia. }
  destruct (get_instance_patch_spec self rp h w min_x max_x min_y max_y)
    as (patch & img & Hfill & Hcopy & Hget); try done.
  destruct (fill_outside_spec self rp h w min_x max_x min_y max_y)
    as (img' & Hfill' & Hrect & Hat); try done.
  rewrite Hfill in Hfill'. injection Hfill' as <-.
  exists patch, img, min_x, max_x, min_y, max_y.
  repeat (split; [done|]).
  intros x y. rewrite (Hat x y), Hfillv. done.
Qed.

Lemma get_instance_patch_writes_image_witness :
  let img := [[(1, 1, 1); (2, 2, 2); (3, 3, 3)];
              [(4, 4, 4); (5, 5, 5); (6, 6, 6)];
              [(7, 7, 7); (8, 8, 8); (9, 9, 9)]] in
  let imap := [[1; 1; 2]; [1; 2; 2]; [0; 0; 2]] in
  let self := __init__ img imap 2 (Some 255) in
  let rp := Skimage.Build_region 1 [(0, 0); (0, 1); (1, 0)]%nat in
  wf_dataset 3 3 self ∧ properties self !! 0%nat = Some rp ∧
  ∃ patch img',
    _get_instance_patch self rp = Ok (patch, img') ∧
    Array2.at_ img 1 1 = Some (5, 5, 5) ∧
    Array2.at_ img' 1 1 = Some (255, 255, 255).
Proof.
  intros img imap self rp.
  assert (wf_dataset 3 3 self) as Hwf.
  { apply wf_dataset_init; (split; [reflexivity | repeat constructor]). }
  assert (properties self !! 0%nat = Some rp) as Hrp by (vm_compute; reflexivity).
  split; [exact Hwf|]. split; [exact Hrp|].
  destruct (get_instance_patch_writes_image 3 3 self 0 rp 255 Hwf Hrp eq_refl)
    as (patch & img' & min_x & max_x & min_y & max_y & Hget & Hcw & _ & Hat).
  exists patch, img'. split; [exact Hget|]. split; [reflexivity|].
  assert (crop_window self rp = (0, 2, 0, 2)) as Hcw' by (vm_compute; reflexivity).
  rewrite Hcw' in Hcw. injection Hcw as <- <- <- <-.
  rewrite (Hat 1%nat 1%nat). reflexivity.
Defined.

(** Without a fill value the image is left as it was. *)
Lemma get_instance_patch_unmasked_frame (self : t) rp patch img :
  fill_value self = None →
  _get_instance_patch self rp = Ok (patch, img) → img = image_ self.
Proof.
  intros Hnone. unfold _get_instance_patch.
  destruct (crop_window self rp) as [[[min_x max_x] min_y] max_y].
  intros ([] & _ & ([] & _ & (img' & Hfill & Hrest)%bind_Ok)%bind_Ok)%bind_Ok.
  apply bind_Ok in Hrest as (patch' & _ & [= _ <-]).
  unfold fill_outside in Hfill. rewrite Hnone in Hfill. by injection Hfill.
Qed.

End PatchClaims.

(** ** Deep feature extraction *)

Section DeepFacts.
Import InstanceMapPatchDataset DeepFeatureExtractor.
Context {T E : Type}.
Context (dataset_transform : list (list (Z * Z * Z)) → T) (model : T → list E).
Context (num_features : nat) (uninit : E).








Lemma wf_with_image (h w : nat) (self : t) img :
  wf_dataset h w self → Array2.rect h w img → wf_dataset h w (with_image self img).
Proof. intros (_ & ? & ?) ?. by split. Qed.

Lemma getitem_Ok (h w : nat) (self : t) (index : nat) :
  wf_dataset h w self → (index < __len__ self)%nat →
  ∃ t self',
    __getitem__ dataset_transform self index = Ok ((index, t), self') ∧
    wf_dataset h w self' ∧ __len__ self' = __len__ self.
Proof.
  intros Hwf Hi. unfold __getitem__, Numpy.getitem.
  destruct (lookup_lt_is_Some_2 (properties self) index Hi) as [rp Hrp].
  rewrite Hrp. cbn [mbind result_bind].
  destruct (get_instance_patch_Ok h w self index rp Hwf Hrp)
    as (patch & img & Hget & _ & Hrect).
  rewrite Hget. cbn [mbind result_bind].
  eexists _, _. split; [done|]. split; [by apply wf_with_image | done].
Qed.

Lemma load_batch_from (indices : list nat) (self : t) (acc : list (nat * T)) :
  for_fold (λ '(items, self) index,
      '(item, self') ← __getitem__ dataset_transform self index;
      Ok (items ++ [item], self'))
    (acc, self) indices
  = '(items, self') ← load_batch dataset_transform self indices;
    Ok (acc ++ items, self').
Proof.
  unfold load_batch.
  revert self acc. induction indices as [|index indices IH]; intros self acc.
  - simpl. by rewrite app_nil_r.
  - cbn [for_fold]. destruct (__getitem__ dataset_transform self index) as [[item self1]|e]; [|done].
    cbn [mbind result_bind]. rewrite (IH self1 (acc ++ [item])), (IH self1 ([] ++ [item])).
    destruct (for_fold _ ([], self1) indices) as [[items self2]|e]; [|done].
    cbn [mbind result_bind]. by rewrite <- app_assoc.
Qed.

Lemma load_batch_cons (index : nat) (indices : list nat) (self : t) :
  load_batch dataset_transform self (index :: indices)
  = '(item, self1) ← __getitem__ dataset_transform self index;
    '(items, self2) ← load_batch dataset_transform self1 indices;
    Ok (item :: items, self2).
Proof.
  unfold load_batch at 1. cbn [for_fold].
  destruct (__getitem__ dataset_transform self index) as [[item self1]|e]; [|done].
  cbn [mbind result_bind]. by rewrite load_batch_from.
Qed.

Lemma load_batch_app (l1 l2 : list nat) (self : t) :
  load_batch dataset_transform self (l1 ++ l2)
  = '(items1, self1) ← load_batch dataset_transform self l1;
    '(items2, self2) ← load_batch dataset_transform self1 l2;
    Ok (items1 ++ items2, self2).
Proof.
  revert self. induction l1 as [|index l1 IH]; intros self.
  - simpl app.
    assert (load_batch dataset_transform self [] = Ok ([], self)) as -> by done.
    cbn [mbind result_bind].
    by destruct (load_batch dataset_transform self l2) as [[? ?]|].
  - rewrite <- app_comm_cons, !load_batch_cons.
    destruct (__getitem__ dataset_transform self index) as [[item self1]|e]; [|done].
    cbn [mbind result_bind]. rewrite IH.
    destruct (load_batch dataset_transform self1 l1) as [[items1 self2]|e]; [|done].
    cbn [mbind result_bind].
    by destruct (load_batch dataset_transform self2 l2) as [[? ?]|].
Qed.

Lemma load_batch_Ok (h w : nat) (indices : list nat) (self : t) :
  wf_dataset h w self → Forall (λ k, k < __len__ self)%nat indices →
  ∃ items self',
    load_batch dataset_transform self indices = Ok (items, self') ∧
    items.*1 = indices ∧ wf_dataset h w self' ∧ __len__ self' = __len__ self.
Proof.
  revert self. induction indices as [|index indices IH]; intros self Hwf Hall.
  - by exists [], self.
  - apply Forall_cons in Hall as [Hi Hall].
    destruct (getitem_Ok h w self index Hwf Hi) as (t & self1 & Hget & Hwf1 & Hlen1).
    destruct (IH self1 Hwf1) as (items & self2 & Hload & Hidx & Hwf2 & Hlen2).
    { by rewrite Hlen1. }
    exists ((index, t) :: items), self2. rewrite load_batch_cons, Hget.
    cbn [mbind result_bind]. rewrite Hload. cbn [mbind result_bind].
    split; [done|]. split; [by rewrite fmap_cons, Hidx|]. split; [done|congruence].
Qed.





End DeepFacts.

Lemma concat_take_chunks {A} (l : list A) (b m : nat) :
  concat ((λ k, take b (drop (k * b) l)) <$> seq 0 m) = take (m * b) l.
Proof.
  induction m as [|m IH]; [done|].
  rewrite seq_S, fmap_app, concat_app, IH. simpl.
  rewrite app_nil_r, take_take_drop. f_equal. lia.
Qed.

(** The batches of the sequential loader hold every index once, in
    ascending order. *)
Lemma concat_sequential_batches (batch_size n : nat) :
  (0 < batch_size)%nat →
  concat (DeepFeatureExtractor.sequential_batches batch_size n) = seq 0 n.
Proof.
  intros Hb. unfold DeepFeatureExtractor.sequential_batches.
  rewrite concat_take_chunks. apply take_ge. rewrite length_seq.
  pose proof (Nat.div_mod_eq (n + batch_size - 1) batch_size) as Hdm.
  pose proof (Nat.mod_upper_bound (n + batch_size - 1) batch_size ltac:(lia)).
  nia.
Qed.

(** A batch of the sequential loader has several items exactly when the
    batch size and the number of items are both above 1. *)
Lemma sequential_batches_long (batch_size n : nat) :
  (0 < batch_size)%nat →
  Exists (λ batch, 1 < length batch)%nat
    (DeepFeatureExtractor.sequential_batches batch_size n)
  ↔ (1 < batch_size ∧ 1 < n)%nat.
Proof.
  intros Hb. unfold DeepFeatureExtractor.sequential_batches.
  rewrite Exists_exists. split.
  - intros (batch & (k & -> & Hk)%list_elem_of_fmap & Hlen).
    rewrite length_take, length_drop, length_seq in Hlen. lia.
  - intros [Hb2 Hn2]. exists (take batch_size (seq 0 n)). split.
    + apply list_elem_of_fmap. exists 0%nat. split; [by rewrite drop_0|].
      apply elem_of_seq. split; [lia|]. simpl.
      apply Nat.div_str_pos. lia.
    + rewrite length_take, length_seq. lia.
Qed.

Section DeepClaims.
Import InstanceMapPatchDataset DeepFeatureExtractor.
Context {T E : Type}.
Context (dataset_transform : list (list (Z * Z * Z)) → T) (model : T → list E).
Context (num_features : nat) (uninit : E).


Lemma getitem_unmasked (self : t) (index : nat) item self' :
  fill_value self = None →
  __getitem__ dataset_transform self index = Ok (item, self') →
  self' = self ∧ item_of dataset_transform self index item.
Proof.
  intros Hnone. unfold __getitem__, Numpy.getitem.
  destruct (properties self !! index) as [rp|] eqn:Hrp; [|done].
  cbn [mbind result_bind].
  destruct (_get_instance_patch self rp) as [[patch img]|e] eqn:Hget; [|done].
  cbn [mbind result_bind]. intros [= <- <-].
  pose proof (get_instance_patch_unmasked_frame self rp patch img Hnone Hget) as ->.
  split; [by destruct self|]. exists rp, patch, (image_ self). by repeat split.
Qed.

Lemma load_batch_unmasked (indices : list nat) (self : t) items self' :
  fill_value self = None →
  load_batch dataset_transform self indices = Ok (items, self') →
  self' = self ∧ ∀ i t, (i, t) ∈ items → item_of dataset_transform self i (i, t).
Proof.
  intros Hnone. revert items. induction indices as [|index indices IH]; intros items.
  - intros [= <- <-]. split; [done|]. intros i t Hin. inversion Hin.
  - rewrite load_batch_cons.
    intros ([item self1] & Hget & Hrest)%bind_Ok.
    apply bind_Ok in Hrest as ([items' self2] & Hload & [= <- <-]).
    apply getitem_unmasked in Hget as [-> Hitem]; [|done].
    apply IH in Hload as [-> Hitems].
    split; [done|]. intros i t [Heq|Hin]%elem_of_cons; [|by apply Hitems].
    subst item. destruct Hitem as (rp & patch & img & ? & ? & [= -> ->]).
    exists rp, patch, img. by repeat split.
Qed.


End DeepClaims.

Section DeepExamples.
Import InstanceMapPatchDataset DeepFeatureExtractor.



(** Without masking the order of the batches does not show in the result;
    with masking it does, because an extraction writes the fill value into
    the image that the later extractions read. *)
Example extraction_order :
  let img := [[(1, 1, 1); (2, 2, 2); (3, 3, 3)];
              [(4, 4, 4); (5, 5, 5); (6, 6, 6)];
              [(7, 7, 7); (8, 8, 8); (9, 9, 9)]] in
  let imap := [[1; 1; 2]; [1; 2; 2]; [0; 0; 2]] in
  _extract_features_on id sum_model 2 0 [[0]; [1]]%nat 2 None img imap
    = Ok [[766; 766]; [16; 16]] ∧
  _extract_features_on id sum_model 2 0 [[1]; [0]]%nat 2 None img imap
    = Ok [[766; 766]; [16; 16]] ∧
  _extract_features_on id sum_model 2 0 [[0]; [1]]%nat 2 (Some 255) img imap
    = Ok [[262; 262]; [519; 519]] ∧
  _extract_features_on id sum_model 2 0 [[1]; [0]]%nat 2 (Some 255) img imap
    = Ok [[515; 515]; [269; 269]].
Proof. vm_compute. repeat split; reflexivity. Qed.

End DeepExamples.

(** ** Handcrafted features *)

Lemma mapM_Ok {A B} (f : A → result B) (P : A → B → Prop) (l : list A) :
  (∀ x, x ∈ l → ∃ y, f x = Ok y ∧ P x y) →
  ∃ ys, mapM f l = Ok ys ∧ Forall2 P l ys.
Proof.
  induction l as [|x l IH]; intros Hf.
  - exists []. by split.
  - destruct (Hf x) as (y & Hy & HP); [left|].
    destruct IH as (ys & Hys & Hall); [intros; apply Hf; by right|].
    exists (y :: ys). split; [|by constructor].
    simpl. rewrite Hy. simpl. change (mapM f l) with (mapM f l) in Hys.
    rewrite Hys. done.
Qed.

Lemma mapM_fmap_Ok {A B} (f : A → result B) (g : A → B) (l : list A) :
  (∀ x, x ∈ l → f x = Ok (g x)) → mapM f l = Ok (g <$> l).
Proof.
  induction l as [|x l IH]; intros Hf; [done|].
  cbn [mapM]. rewrite (Hf x) by left. cbn [mbind result_bind].
  rewrite IH by (intros; apply Hf; by right). done.
Qed.

Lemma pixels_fmap2 (g : Z → Z) (a : list (list Z)) :
  Skimage.pixels ((λ row : list Z, g <$> row) <$> a)
  = (λ p, (p.1, g p.2)) <$> Skimage.pixels a.
Proof.
  unfold Skimage.pixels.
  assert (∀ (k : nat) (a : list (list Z)),
    concat (imap (λ r row, imap (λ c v, ((k + r, c)%nat, v)) row)
              ((λ row : list Z, g <$> row) <$> a))
    = (λ p, (p.1, g p.2)) <$>
        concat (imap (λ r row, imap (λ c v, ((k + r, c)%nat, v)) row) a)) as Hgen.
  { intros k b. revert k. induction b as [|row b IH]; intros k; [done|].
    rewrite fmap_cons, !imap_cons. cbn [concat]. rewrite fmap_app. f_equal.
    - rewrite imap_fmap. rewrite fmap_imap. apply imap_ext. done.
    - specialize (IH (S k)).
      erewrite (imap_ext _ (λ r row0, imap (λ c v, ((S k + r)%nat, c, v)) row0)).
      2:{ intros i x _. simpl. apply imap_ext. intros. do 2 f_equal. lia. }
      rewrite IH. f_equal. f_equal. apply imap_ext. intros i x _. simpl.
      apply imap_ext. intros. do 2 f_equal. lia. }
  apply (Hgen 0%nat).
Qed.

Lemma ravel_pixels (a : list (list Z)) : Numpy.ravel a = (Skimage.pixels a).*2.
Proof.
  unfold Numpy.ravel, Skimage.pixels.
  assert (∀ (k : nat) (a : list (list Z)),
            concat a
            = (concat (imap (λ r row, imap (λ c v, ((k + r, c)%nat, v)) row) a)).*2)
    as Hgen.
  { intros k b. revert k. induction b as [|row b IH]; intros k; [done|].
    rewrite imap_cons. cbn [concat]. rewrite fmap_app. f_equal.
    - rewrite fmap_imap. clear.
      assert (∀ row : list Z, row = imap (λ c v, v) row) as Hid.
      { intros r. induction r as [|v r IHr]; [done|].
        rewrite imap_cons. f_equal. exact IHr. }
      rewrite (Hid row) at 1. apply imap_ext. done.
    - rewrite (IH (S k)). f_equal. f_equal. apply imap_ext. intros i x _. simpl.
      apply imap_ext. intros. do 2 f_equal. lia. }
  apply (Hgen 0%nat).
Qed.

Lemma omap_ext_elem {A B} (f g : A → option B) (l : list A) :
  (∀ x, x ∈ l → f x = g x) → omap f l = omap g l.
Proof.
  induction l as [|x l IH]; intros Hfg; [done|]. csimpl.
  rewrite (Hfg x) by left. rewrite IH; [done|]. intros; apply Hfg; by right.
Qed.

Lemma omap_fmap_option {A B C} (f : B → C) (g : A → option B) (l : list A) :
  omap (λ x, f <$> g x) l = f <$> omap g l.
Proof.
  induction l as [|x l IH]; [done|]. csimpl. rewrite IH.
  by destruct (g x).
Qed.

Section HandcraftedClaims.
Import Numpy HandcraftedFeatureExtractor.
Context {F : Type} `{Lib F}.


Lemma color_features_layout a b idx size :
  colour_layout (_color_features_per_channel a b idx size).
Proof. unfold _color_features_per_channel. by eexists _, _, _. Qed.

Lemma length_colour_layout (feats : list F) :
  colour_layout feats → length feats = 13%nat.
Proof.
  intros (codes & squares & size & ->). unfold histogram.
  rewrite length_app, !length_fmap, length_seqZ. done.
Qed.

Lemma length_texture_layout (feats : list F) :
  texture_layout feats → length feats = 6%nat.
Proof. by intros (entropy & P & ->). Qed.

Lemma sp_feats_Ok img imap img_gray img_square img_entropy region :
  same_shape img imap = true →
  ∃ row, sp_feats img imap img_gray img_square img_entropy region = Ok row ∧
         feature_layout region row.
Proof.
  intros Hshape. unfold sp_feats.
  assert (same_shape img
            ((λ row : list Z,
                (λ v, if decide (v = Skimage.label region) then 1 else 0) <$> row)
               <$> imap) = true) as ->.
  { apply bool_decide_eq_true in Hshape. apply bool_decide_eq_true.
    rewrite Hshape, <- list_fmap_compose. apply list_fmap_ext.
    intros _ row _. simpl. by rewrite length_fmap. }
  eexists. split; [done|]. unfold feature_layout.
  eexists _, _, _, _. split.
  - unfold concat. rewrite app_nil_r. reflexivity.
  - repeat (split; [apply color_features_layout|]).
    unfold feats_texture. by eexists _, _.
Qed.

Lemma regionprops_nonempty (imap : list (list Z)) :
  (∃ l, l ∈ ravel imap ∧ 0 < l) → Skimage.regionprops imap ≠ [].
Proof.
  intros (l & Hin & Hpos) Hnil.
  assert (Skimage.Build_region l (Skimage.coords_of imap l)
            ∈ Skimage.regionprops imap) as Hrp.
  { apply elem_of_regionprops. by simpl. }
  rewrite Hnil in Hrp. inversion Hrp.
Qed.

Lemma extract_features_Ok img imap :
  same_shape img imap = true → (∃ l, l ∈ ravel imap ∧ 0 < l) →
  ∃ rows, _extract_features img imap = Ok rows ∧ rows ≠ [] ∧
          Forall2 feature_layout (Skimage.regionprops imap) rows.
Proof.
  intros Hshape Hlabel. unfold _extract_features.
  match goal with |- context [mapM ?f ?l] =>
    destruct (mapM_Ok f feature_layout l) as (rows & -> & Hall) end.
  { intros region _. by apply sp_feats_Ok. }
  exists rows. pose proof (regionprops_nonempty imap Hlabel) as Hne.
  assert (rows ≠ []) as Hrows.
  { intros ->. apply Forall2_nil_inv_r in Hall. done. }
  split; [|done]. simpl. by destruct rows.
Qed.

Lemma feature_layout_length region row : feature_layout region row → length row = 57%nat.
Proof.
  intros (r & g & b & tex & -> & Hr & Hg & Hb & Ht).
  apply length_colour_layout in Hr, Hg, Hb. apply length_texture_layout in Ht.
  rewrite !length_app. simpl. lia.
Qed.

(** The mask of a region in the instance map. *)
Local Abbreviation sp_mask_of imap l :=
  ((λ row : list Z, (λ v, if decide (v = l) then 1 else 0) <$> row) <$> imap).

Lemma where_nonzero_mask (imap : list (list Z)) (l : Z) :
  where_nonzero (sp_mask_of imap l) = Skimage.coords_of imap l.
Proof.
  unfold where_nonzero, Skimage.coords_of.
  rewrite (pixels_fmap2 (λ v, if decide (v = l) then 1 else 0)).
  induction (Skimage.pixels imap) as [|[p v] ps IH]; [done|].
  rewrite fmap_cons, !filter_cons. cbn [fst snd].
  destruct (decide (v = l)) as [->|Hne].
  - case_decide; [|done]. rewrite !fmap_cons. cbn [fst]. by rewrite IH.
  - case_decide; [done|]. exact IH.
Qed.

Lemma mask_size_area (imap : list (list Z)) (l : Z) :
  length (filter (λ m, m ≠ 0) (ravel (sp_mask_of imap l)))
  = length (Skimage.coords_of imap l).
Proof.
  rewrite ravel_pixels, (pixels_fmap2 (λ v, if decide (v = l) then 1 else 0)).
  unfold Skimage.coords_of. rewrite length_fmap.
  induction (Skimage.pixels imap) as [|[p v] ps IH]; [done|].
  rewrite !fmap_cons, !filter_cons. cbn [fst snd].
  destruct (decide (v = l)) as [->|Hne].
  - case_decide; [|done]. cbn [length]. by rewrite IH.
  - case_decide; [done|]. exact IH.
Qed.

(** The codes of a channel of the masked image at the pixels of the
    region are those of the image. *)
Lemma channel_codes (img : list (list (Z * Z * Z)))
    (imap : list (list Z)) (region : Skimage.region) (channel : Z * Z * Z → Z) :
  Skimage.coords region = Skimage.coords_of imap (Skimage.label region) →
  take_at
    ((λ row : list (Z * Z * Z), channel <$> row) <$>
       zip_with (zip_with (λ (px : Z * Z * Z) (m : Z),
                             if decide (m = 0) then (0, 0, 0) else px))
         img (sp_mask_of imap (Skimage.label region)))
    (Skimage.coords_of imap (Skimage.label region))
  = region_codes img region channel.
Proof.
  intros Hc. unfold take_at, region_codes. rewrite Hc.
  apply omap_ext_elem. intros [r c] Hp. cbn [fst snd].
  apply elem_of_coords_of in Hp.
  rewrite at_fmap2, at_zip_with2, at_fmap2, Hp. cbn [fmap option_fmap option_map].
  destruct (Array2.at_ img r c) as [px|]; [|done].
  destruct (decide (Skimage.label region = Skimage.label region)); [|done].
  done.
Qed.

(** The codes of a channel of the squared image at the pixels of the
    region are the squares, modulo 256, of those of the image. *)
Lemma square_codes (img : list (list (Z * Z * Z))) (region : Skimage.region)
    (channel : Z * Z * Z → Z) :
  (∀ px, channel ((px.1.1 * px.1.1) `mod` 256, (px.1.2 * px.1.2) `mod` 256,
                  (px.2 * px.2) `mod` 256)
         = (channel px * channel px) `mod` 256) →
  take_at
    ((λ row : list (Z * Z * Z), channel <$> row) <$>
       ((λ row : list (Z * Z * Z),
           (λ px, ((px.1.1 * px.1.1) `mod` 256, (px.1.2 * px.1.2) `mod` 256,
                   (px.2 * px.2) `mod` 256)) <$> row) <$> img))
    (Skimage.coords region)
  = (λ c, (c * c) `mod` 256) <$> region_codes img region channel.
Proof.
  intros Hch. unfold take_at, region_codes. rewrite <- omap_fmap_option.
  apply omap_ext_elem. intros [r c] _. cbn [fst snd].
  rewrite !at_fmap2. destruct (Array2.at_ img r c) as [px|]; [|done]. simpl.
  by rewrite Hch.
Qed.

(** The gray image under the mask of a region. *)
Lemma sp_gray_region (img : list (list (Z * Z * Z))) (imap : list (list Z))
    (region : Skimage.region) :
  zip_with (zip_with (λ g m, (g * m) `mod` 256))
    ((λ row : list (Z * Z * Z), rgb2gray <$> row) <$> img)
    (sp_mask_of imap (Skimage.label region))
  = region_gray img imap region.
Proof.
  rewrite zip_with2_fmap2. unfold region_gray. apply zip_with2_ext.
  intros px l. destruct (decide (l = Skimage.label region)).
  - by rewrite Z.mul_1_r.
  - by rewrite Z.mul_0_r.
Qed.

(** The row of a region of the instance map. *)
Lemma sp_feats_row img imap region :
  same_shape img imap = true → region ∈ Skimage.regionprops imap →
  sp_feats img imap
    ((λ row : list (Z * Z * Z), rgb2gray <$> row) <$> img)
    ((λ row : list (Z * Z * Z),
        (λ px, ((px.1.1 * px.1.1) `mod` 256, (px.1.2 * px.1.2) `mod` 256,
                (px.2 * px.2) `mod` 256)) <$> row) <$> img)
    (rank_entropy ((λ row : list (Z * Z * Z), rgb2gray <$> row) <$> img))
    region
  = Ok (feature_row img imap region).
Proof.
  intros Hshape (Hpos & Hin & Hc)%elem_of_regionprops.
  unfold sp_feats.
  assert (same_shape img (sp_mask_of imap (Skimage.label region)) = true) as ->.
  { apply bool_decide_eq_true in Hshape. apply bool_decide_eq_true.
    rewrite Hshape, <- list_fmap_compose. apply list_fmap_ext.
    intros _ row _. simpl. by rewrite length_fmap. }
  unfold feature_row, texture_features, feats_texture.
  f_equal. f_equal. f_equal.
  - unfold concat. rewrite app_nil_r.
    unfold _color_features_per_channel, colour_features.
    rewrite where_nonzero_mask, mask_size_area.
    rewrite !channel_codes by done.
    rewrite <- Hc.
    rewrite (square_codes img region (λ px, px.1.1)) by done.
    rewrite (square_codes img region (λ px, px.1.2)) by done.
    rewrite (square_codes img region (λ px, px.2)) by done.
    done.
  - by rewrite where_nonzero_mask, sp_gray_region, <- Hc.
Qed.

Lemma feature_row_length img imap region :
  length (feature_row img imap region) = 57%nat.
Proof.
  unfold feature_row, colour_features, texture_features, histogram.
  rewrite !length_app, !length_fmap, length_seqZ. done.
Qed.

(** C1, as amended. For an RGB image and an instance map of its shape with
    at least one positive label, [_extract_features] returns one row per
    region, in the order of the regions. The row of a region has 57
    entries: the 12 shape features; then, for each of the channels R, G and
    B in this order, the 13 colour features of the values of that channel
    at the pixels of the region (8 histogram fractions of the area, mean,
    standard deviation, median, skewness, and as energy the mean of the
    squared values); then the 6 texture features (the mean entropy over
    the region and 5 co-occurrence statistics of its gray image). *)
Theorem handcrafted_feature_length img imap :
  same_shape img imap = true → (∃ l, l ∈ ravel imap ∧ 0 < l) →
  ∃ rows, _extract_features img imap = Ok rows ∧
          rows = feature_row img imap <$> Skimage.regionprops imap ∧
          Forall2 feature_layout (Skimage.regionprops imap) rows ∧
          Forall (λ row, length row = 57%nat) rows.
Proof.
  intros Hshape Hlabel.
  destruct (extract_features_Ok img imap Hshape Hlabel) as (rows & Hres & _ & Hall).
  exists rows. split; [done|]. split; [|split; [done|]].
  - unfold _extract_features in Hres.
    rewrite (mapM_fmap_Ok _ (feature_row img imap)) in Hres
      by (intros region Hregion; by apply sp_feats_row).
    cbn [mbind result_bind] in Hres.
    destruct (feature_row img imap <$> Skimage.regionprops imap); [done|].
    by injection Hres.
  - apply Forall_forall. intros row Hrow.
    apply list_elem_of_lookup_1 in Hrow as [i Hi].
    destruct (Forall2_lookup_r _ _ _ _ _ Hall Hi) as (region & _ & Hlay).
    by eapply feature_layout_length.
Qed.

End HandcraftedClaims.

Section HandcraftedExamples.
Import HandcraftedFeatureExtractor.

Lemma handcrafted_feature_length_witness :
  let img := [[(10, 20, 30); (200, 100, 50)]] in
  let imap := [[1; 1]] in
  let region := Skimage.Build_region 1 [(0, 0); (0, 1)]%nat in
  Numpy.same_shape img imap = true ∧ (∃ l, l ∈ Numpy.ravel imap ∧ 0 < l) ∧
  Skimage.regionprops imap = [region] ∧
  region_codes img region (λ px, px.1.1) = [10; 200] ∧
  region_codes img region (λ px, px.1.2) = [20; 100] ∧
  region_codes img region (λ px, px.2) = [30; 50] ∧
  ∃ rows : list (list HandcraftedFeatureExtractor.call),
    HandcraftedFeatureExtractor._extract_features img imap = Ok rows ∧
    rows = [feature_row img imap region] ∧
    Forall (λ row, length row = 57%nat) rows.
Proof.
  intros img imap region.
  assert (Numpy.same_shape img imap = true) as Hshape by reflexivity.
  assert (∃ l, l ∈ Numpy.ravel imap ∧ 0 < l) as Hlabel.
  { exists 1. split; [left | lia]. }
  split; [exact Hshape|]. split; [exact Hlabel|].
  repeat (split; [reflexivity|]).
  destruct (handcrafted_feature_length img imap Hshape Hlabel)
    as (rows & Hres & Hrows & _ & Hlen).
  exists rows. split; [exact Hres|]. split; [exact Hrows | exact Hlen].
Defined.

(** C1 as stated fails: the rows do not have 72 entries. *)
Lemma handcrafted_feature_length_not_72 :
  ¬ (∀ (F : Type) (L : HandcraftedFeatureExtractor.Lib F) img imap rows,
       Numpy.same_shape img imap = true →
       (∃ l, l ∈ Numpy.ravel imap ∧ 0 < l) →
       HandcraftedFeatureExtractor._extract_features img imap = Ok rows →
       Forall (λ row, length row = 72%nat) rows).
Proof.
  intros Hclaim.
  set (img := [[(10, 20, 30); (200, 100, 50)]]).
  set (imap := [[1; 1]]).
  assert (Numpy.same_shape img imap = true) as Hshape by reflexivity.
  assert (∃ l, l ∈ Numpy.ravel imap ∧ 0 < l) as Hlabel.
  { exists 1. split; [left | lia]. }
  destruct (extract_features_Ok (F := HandcraftedFeatureExtractor.call)
              img imap Hshape Hlabel) as (rows & Hres & Hne & Hall).
  specialize (Hclaim _ _ img imap rows Hshape Hlabel Hres).
  destruct rows as [|row rows]; [done|].
  apply Forall_cons in Hclaim as [H72 _].
  apply Forall2_cons_inv_r in Hall as (region & regions & Hlay & _ & _).
  apply feature_layout_length in Hlay. lia.
Qed.

End HandcraftedExamples.

(** ** Tissue mask *)

Section TissueFacts.
Import Numpy TissueMask.
Context `{Lib}.


Lemma no_positive_filter (a : list (list Q)) :
  no_positive a → filter (λ v, Qltb 0 v = true) (ravel a) = [].
Proof.
  unfold no_positive, ravel. induction 1 as [|row a Hrow _ IH]; simpl; [done|].
  rewrite filter_app, IH, app_nil_r. clear IH.
  induction Hrow as [|v row Hv _ IH]; [done|].
  rewrite filter_cons. case_decide; [congruence | done].
Qed.

Lemma no_positive_binary (a : list (list Q)) :
  no_positive a →
  Forall (Forall (λ v, v = 0))
    ((λ row : list Q, (λ v, if Qltb 0 v then 1 else 0) <$> row) <$> a).
Proof.
  intros Ha. apply Forall_fmap. eapply Forall_impl; [exact Ha|].
  intros row Hrow. simpl. apply Forall_fmap. eapply Forall_impl; [exact Hrow|].
  intros v Hv. simpl. by rewrite Hv.
Qed.

Lemma threshold_step_no_positive sigma (a a' : list (list Q)) :
  Qltb 0 sigma = false → no_positive a →
  threshold_step sigma a = Ok a' → no_positive a'.
Proof.
  intros Hsigma Ha. unfold threshold_step. rewrite Hsigma.
  intros (thresh & _ & [= <-])%bind_Ok.
  apply Forall_fmap. eapply Forall_impl; [exact Ha|].
  intros row Hrow. simpl. apply Forall_fmap. eapply Forall_impl; [exact Hrow|].
  intros v Hv. simpl. by destruct (Qltb v thresh).
Qed.

Lemma thresholding_no_positive steps sigma (a a' : list (list Q)) :
  Qltb 0 sigma = false → no_positive a →
  thresholding steps sigma a = Ok a' → no_positive a'.
Proof.
  intros Hsigma. revert a. induction steps as [|steps IH]; intros a Ha; simpl.
  - by intros [= <-].
  - intros (a1 & Hstep & Hrest)%bind_Ok.
    eapply IH; [|exact Hrest]. by eapply threshold_step_no_positive.
Qed.

Lemma all_zero_no_label (labeled : list (list Z)) :
  Forall (Forall (λ v, v = 0)) labeled →
  filter (λ l, 0 < l) (ravel labeled) = [].
Proof.
  unfold ravel. induction 1 as [|row a Hrow _ IH]; simpl; [done|].
  rewrite filter_app, IH, app_nil_r. clear IH.
  induction Hrow as [|v row Hv _ IH]; [done|].
  rewrite filter_cons. case_decide; [lia | done].
Qed.

(** On a grayscale thumbnail without a positive value and without
    smoothing, [get_tissue_mask] does not return: whatever the threshold
    was, no region is found and [np.argmax(counts)] has nothing to look
    at. The labelling is only asked to find no region in an empty mask. *)
Lemma get_tissue_mask_no_positive (a : list (list Q)) steps sigma min_size :
  (∀ mask, Forall (Forall (λ v, v = 0)) mask →
           Forall (Forall (λ v, v = 0)) (ndimage_label mask)) →
  Qltb 0 sigma = false → no_positive a →
  ∃ e, get_tissue_mask (Gray a) steps sigma min_size = Raise e.
Proof.
  intros Hlabel Hsigma Ha. unfold get_tissue_mask.
  destruct (thresholding steps sigma a) as [a'|e] eqn:Hth; [|by exists e].
  cbn [mbind result_bind].
  pose proof (thresholding_no_positive _ _ _ _ Hsigma Ha Hth) as Ha'.
  rewrite (all_zero_no_label _ (Hlabel _ (no_positive_binary _ Ha'))).
  by exists ValueError.
Qed.

Lemma all_zero_filter_positive (l : list Z) :
  Forall (λ v, v = 0) l → filter (λ v, 0 < v) l = [].
Proof.
  induction 1 as [|v l Hv _ IH]; [done|].
  rewrite filter_cons. case_decide; [lia | done].
Qed.

(** C9. In a turn of the loop of [process] in which [get_tissue_mask]
    returns and the product of the dilated mask and the gray image has no
    nonzero pixel, the loop is left in that turn, with the tissue mask
    found so far: the mean of no value compares as not below the
    background value. *)
Theorem detect_stops_on_empty_mask (self : t) (fuel : nat)
    (image_gray : list (list Z)) (image : list (list (Z * Z * Z)))
    (tissue_mask labeled : list (list Z)) (mask_ : list (list bool)) :
  get_tissue_mask (Color image) (n_thresholding_steps self) (sigma self)
    (min_size self) = Ok (labeled, mask_) →
  same_shape
    (cv2_dilate
       ((λ row : list bool, (λ b : bool, if b then 1 else 0) <$> row) <$> mask_)
       (kernel_size self) (dilation_steps self))
    image_gray = true →
  Forall (λ v, v = 0)
    (ravel (zip_with (zip_with (λ m g, (m * g) `mod` 256))
              (cv2_dilate
                 ((λ row : list bool, (λ b : bool, if b then 1 else 0) <$> row)
                    <$> mask_)
                 (kernel_size self) (dilation_steps self))
              image_gray)) →
  detect (S fuel) self image_gray image tissue_mask = Some (Ok tissue_mask).
Proof.
  intros Hget Hshape Hzero. cbn [detect]. unfold detect_step.
  rewrite Hget. cbn [mbind result_bind]. rewrite Hshape.
  rewrite (all_zero_filter_positive _ Hzero). done.
Qed.

End TissueFacts.

Section TissueExamples.
Import Numpy TissueMask Reference.

Lemma detect_stops_on_empty_mask_witness :
  let self := TissueMask.mk 1 0 1 2 1 228 1 in
  let image := [[(0, 0, 0); (0, 0, 0)]; [(0, 0, 0); (0, 0, 0)]] in
  let image_gray := [[0; 0]; [0; 0]] in
  let tissue_mask := [[0; 0]; [0; 0]] in
  get_tissue_mask (Color image) 1 0 1
    = Ok ([[1; 1]; [1; 1]], [[true; true]; [true; true]]) ∧
  detect 1 self image_gray image tissue_mask = Some (Ok tissue_mask).
Proof.
  intros self image image_gray tissue_mask.
  assert (get_tissue_mask (Color image) 1 0 1
          = Ok ([[1; 1]; [1; 1]], [[true; true]; [true; true]])) as Hget
    by (vm_compute; reflexivity).
  split; [exact Hget|].
  apply (detect_stops_on_empty_mask self 0 image_gray image tissue_mask
           [[1; 1]; [1; 1]] [[true; true]; [true; true]] Hget).
  - vm_compute. reflexivity.
  - vm_compute. repeat constructor.
Defined.

(** C2. The failing input: a 2 × 2 grayscale thumbnail of zeros, with the
    default arguments. The Otsu fallback sets the threshold to 0, and then
    [np.argmax] of the empty [counts] raises [ValueError]. *)
Theorem get_tissue_mask_all_zero_raises :
  get_tissue_mask (Gray [[0; 0]; [0; 0]]%Q) 1 0 500 = Raise ValueError.
Proof. vm_compute. reflexivity. Qed.

(** The same on an all-white colour thumbnail, whose inverted gray values
    are all zero; an all-black one has the gray value 255 everywhere and
    is one region, kept or not by [min_size]. *)
Example get_tissue_mask_colour_examples :
  get_tissue_mask (Color [[(255, 255, 255); (255, 255, 255)]]) 1 0 1
    = Raise ValueError ∧
  get_tissue_mask (Color [[(0, 0, 0); (0, 0, 0)]; [(0, 0, 0); (0, 0, 0)]]) 1 0 500
    = Ok ([[0; 0]; [0; 0]], [[false; false]; [false; false]]) ∧
  get_tissue_mask (Color [[(0, 0, 0); (0, 0, 0)]; [(0, 0, 0); (0, 0, 0)]]) 1 0 1
    = Ok ([[1; 1]; [1; 1]], [[true; true]; [true; true]]).
Proof. vm_compute. repeat split; reflexivity. Qed.

(** [process] on an all-black image leaves the loop in its first turn. *)
Example process_black_image :
  process 1 (TissueMask.mk 1 0 1 2 1 228 1)
    [[(0, 0, 0); (0, 0, 0)]; [(0, 0, 0); (0, 0, 0)]]
  = Some (Ok [[0; 0]; [0; 0]]).
Proof. vm_compute. reflexivity. Qed.

(** The reference labelling finds no region in an empty mask. *)
Lemma reference_label_zero (mask : list (list Z)) :
  Forall (Forall (λ v, v = 0)) mask →
  Forall (Forall (λ v, v = 0)) (Reference.ndimage_label mask).
Proof.
  intros Hmask. unfold Reference.ndimage_label.
  set (w := Array2.width mask).
  assert (∀ (f : nat → nat → Z → Z) (a : list (list Z)),
            (∀ r c, f r c 0 = 0) → Forall (Forall (λ v, v = 0)) a →
            Forall (Forall (λ v, v = 0)) (imap (λ r row, imap (f r) row) a))
    as Himap.
  { intros f a Hf Ha. apply Forall_forall. intros row Hrow.
    apply elem_of_lookup_imap in Hrow as (r & row0 & -> & Hr).
    rewrite Forall_forall in Ha. specialize (Ha _ (list_elem_of_lookup_2 _ _ _ Hr)).
    apply Forall_forall. intros v Hv.
    apply elem_of_lookup_imap in Hv as (c & v0 & -> & Hc).
    rewrite Forall_forall in Ha. rewrite (Ha _ (list_elem_of_lookup_2 _ _ _ Hc)).
    apply Hf. }
  assert (∀ n a, Forall (Forall (λ v, v = 0)) a →
                 Forall (Forall (λ v, v = 0)) (Nat.iter n relax a)) as Hiter.
  { induction n as [|n IH]; intros a Ha; simpl; [done|].
    unfold relax at 1.
    apply (Himap (λ r c v, if decide (v = 0) then 0
                           else foldr Z.min v (filter (λ n, n ≠ 0)
                                  (neighbours (Nat.iter n relax a) r c)))).
    - intros r c. by rewrite decide_True.
    - by apply IH. }
  apply Forall_fmap. eapply Forall_impl.
  - apply Hiter.
    apply (Himap (λ r c v, if decide (v = 0) then 0 else Z.of_nat (r * w + c + 1))).
    + intros r c. by rewrite decide_True.
    + exact Hmask.
  - intros row Hrow. simpl. apply Forall_fmap. eapply Forall_impl; [exact Hrow|].
    intros v ->. reflexivity.
Qed.

End TissueExamples.

(** * Further properties *)

(** ** The translator *)

Lemma length_concat_fmap {A} (ls : list (list A)) :
  length (concat ls) = sum_list (length <$> ls).
Proof. induction ls as [|l ls IH]; csimpl; [done|]. by rewrite length_app, IH. Qed.

Section TranslatorMore.
Import Numpy FeatureMerger.

(** A plurality label is unique. *)
Lemma is_plurality_unique im mm i a b :
  is_plurality im mm i a → is_plurality im mm i b → a = b.
Proof.
  intros [Ha Hmaxa] [Hb Hmaxb].
  destruct (Hmaxa b) as [Hle1 Ht1]. destruct (Hmaxb a) as [Hle2 Ht2].
  assert (overlap im mm i a = overlap im mm i b) as Heq by lia.
  specialize (Ht1 (eq_sym Heq)). specialize (Ht2 Heq). lia.
Qed.

(** An instance id that occurs has a plurality label, and the loop body
    files it there. *)
Lemma assign_present im mm tr i :
  same_shape im mm = true → i ∈ ravel im → is_Ok (assign im mm tr i).
Proof.
  intros Hsh Hi.
  destruct (assign_Ok_or_ValueError im mm tr i Hsh) as [?|Hraise]; [done|].
  exfalso. revert Hraise. unfold assign, index_where_eq. rewrite Hsh.
  cbn [mbind result_bind].
  set (sel := (filter (λ p, p.1 = i) (zip (ravel im) (ravel mm))).*2).
  assert (sel ≠ []) as Hne.
  { apply bool_decide_eq_true in Hsh.
    assert (length (ravel im) = length (ravel mm)) as Hlen.
    { unfold ravel. rewrite !length_concat_fmap. by rewrite Hsh. }
    apply list_elem_of_lookup_1 in Hi as [k Hk].
    destruct (lookup_lt_is_Some_2 (ravel mm) k) as [b Hb].
    { rewrite <- Hlen. by eapply lookup_lt_Some. }
    assert ((i, b) ∈ zip (ravel im) (ravel mm)) as Hin.
    { apply list_elem_of_lookup_2 with k. rewrite lookup_zip_with, Hk. simpl. by rewrite Hb. }
    intros Hnil. assert (b ∈ sel) as Hbs.
    { unfold sel. apply list_elem_of_fmap. exists (i, b). split; [done|].
      by apply list_elem_of_filter. }
    rewrite Hnil in Hbs. inversion Hbs. }
  unfold unique_counts.
  destruct (argmax_Ok ((λ v, count v sel) <$> unique sel)) as [k Hk].
  { intros Hnil. apply fmap_nil_inv, unique_nil_inv in Hnil. done. }
  rewrite Hk. cbn [mbind result_bind].
  apply argmax_spec in Hk as (m & Hm & _). rewrite list_lookup_fmap in Hm.
  unfold getitem. destruct (unique sel !! k); done.
Qed.


Lemma fold_assign_total im mm l tr0 :
  same_shape im mm = true → (∀ i, i ∈ l → i ∈ ravel im) →
  is_Ok (for_fold (assign im mm) tr0 l).
Proof.
  intros Hsh. revert tr0. induction l as [|i l IH]; intros tr0 Hall.
  - by eexists.
  - cbn [for_fold]. destruct (assign_present im mm tr0 i Hsh) as [tr1 ->].
    { apply Hall. left. }
    cbn [mbind result_bind]. apply IH. intros j Hj. apply Hall. by right.
Qed.

Lemma assigned_append_inv tr a i b j :
  assigned (Dict.append tr b j) a i → assigned tr a i ∨ (a = b ∧ i = j).
Proof.
  intros (vs & Hget & Hin). rewrite get_append in Hget.
  case_decide as Hab; [subst b|left; by exists vs].
  injection Hget as <-. apply elem_of_app in Hin as [Hin|Hin].
  - left. unfold assigned.
    destruct (Dict.get tr a) as [vs|]; simpl in Hin; [by exists vs | inversion Hin].
  - right. apply list_elem_of_singleton in Hin. done.
Qed.

(** Nothing is listed in the translator except by the loop body. *)
Lemma fold_assign_inv im mm l tr0 tr :
  for_fold (assign im mm) tr0 l = Ok tr →
  ∀ a i, assigned tr a i → assigned tr0 a i ∨ (i ∈ l ∧ is_plurality im mm i a).
Proof.
  revert tr0. induction l as [|j l IH]; intros tr0; simpl.
  - intros [= <-] a i Hai. by left.
  - intros (tr1 & H1 & Hrest)%bind_Ok a i Hai.
    apply assign_Ok in H1 as (b & -> & Hpl).
    destruct (IH _ Hrest a i Hai) as [Hold|[Hin Hp]].
    + apply assigned_append_inv in Hold as [?|[-> ->]]; [by left|].
      right. split; [left | done].
    + right. split; [by right | done].
Qed.

Lemma keys_append {A} (d : Dict.t (list A)) k x :
  Dict.keys (Dict.append d k x)
  = if decide (k ∈ Dict.keys d) then Dict.keys d else Dict.keys d ++ [k].
Proof.
  unfold Dict.keys. induction d as [|[k0 vs] d IH]; csimpl.
  - done.
  - destruct (decide (k = k0)) as [->|Hne]; csimpl.
    + rewrite decide_True by left. done.
    + rewrite IH. destruct (decide (k ∈ d.*1)) as [Hin|Hnin].
      * rewrite decide_True by (by right). done.
      * rewrite decide_False; [done|]. intros [?|?]%elem_of_cons; done.
Qed.

Lemma NoDup_keys_append {A} (d : Dict.t (list A)) k x :
  NoDup (Dict.keys d) → NoDup (Dict.keys (Dict.append d k x)).
Proof.
  intros Hnd. rewrite keys_append. case_decide; [done|].
  apply NoDup_app. split; [done|]. split; [|apply NoDup_singleton].
  intros y Hy ->%list_elem_of_singleton. done.
Qed.

Lemma get_Some_elem_of {V} (d : Dict.t V) k v :
  Dict.get d k = Some v → (k, v) ∈ d.
Proof.
  induction d as [|[k0 v0] d IH]; simpl; [done|].
  case_decide; [intros [= ->]; subst; left | right; auto].
Qed.

Lemma elem_of_get_Some {V} (d : Dict.t V) k v :
  NoDup (Dict.keys d) → (k, v) ∈ d → Dict.get d k = Some v.
Proof.
  unfold Dict.keys. induction d as [|[k0 v0] d IH]; csimpl; intros Hnd Hin.
  - inversion Hin.
  - apply NoDup_cons in Hnd as [Hk0 Hnd].
    apply elem_of_cons in Hin as [[= -> ->]|Hin].
    + by rewrite decide_True.
    + rewrite decide_False; [by apply IH|]. intros ->. apply Hk0.
      apply list_elem_of_fmap. by exists (k0, v).
Qed.

Lemma elem_of_append_inv {A} (d : Dict.t (list A)) k x k' vs :
  (k', vs) ∈ Dict.append d k x →
  (k', vs) ∈ d ∨ (k' = k ∧ ∃ old, vs = old ++ [x] ∧ (old = [] ∨ (k, old) ∈ d)).
Proof.
  induction d as [|[k0 vs0] d IH]; simpl.
  - intros [= -> ->]%list_elem_of_singleton. right. split; [done|].
    exists []. split; [done | by left].
  - case_decide as Hk; [subst k0|].
    + intros [[= -> ->]|Hin]%elem_of_cons.
      * right. split; [done|]. exists vs0. split; [done|]. right. left.
      * left. by right.
    + intros [[= -> ->]|Hin]%elem_of_cons; [left; left|].
      destruct (IH Hin) as [?|(-> & old & -> & Hold)]; [left; by right|].
      right. split; [done|]. exists old. split; [done|].
      destruct Hold as [?|?]; [by left | right; by right].
Qed.

(** The lists of a translator filled over ascending ids are ascending,
    and none is empty. *)
Lemma fold_assign_ascending im mm (n : nat) (start : Z) tr0 tr :
  for_fold (assign im mm) tr0 (seqZ start (Z.of_nat n)) = Ok tr →
  NoDup (Dict.keys tr0) →
  (∀ k vs, (k, vs) ∈ tr0 →
     vs ≠ [] ∧ StronglySorted Z.lt vs ∧ Forall (λ v, v < start) vs) →
  NoDup (Dict.keys tr) ∧
  ∀ k vs, (k, vs) ∈ tr →
     vs ≠ [] ∧ StronglySorted Z.lt vs ∧
     Forall (λ v, v < start + Z.of_nat n) vs.
Proof.
  revert start tr0. induction n as [|n IH]; intros start tr0.
  - simpl. intros [= <-] Hnd Hinv. split; [done|]. intros k vs Hin.
    destruct (Hinv k vs Hin) as (? & ? & Hall). split; [done|]. split; [done|].
    eapply Forall_impl; [exact Hall|]. simpl. lia.
  - rewrite Nat2Z.inj_succ, seqZ_cons by lia. cbn [for_fold].
    intros (tr1 & H1 & Hrest)%bind_Ok Hnd Hinv.
    apply assign_Ok in H1 as (a & -> & _).
    replace (Z.pred (Z.succ (Z.of_nat n))) with (Z.of_nat n) in Hrest by lia.
    destruct (IH (Z.succ start) _ Hrest) as [Hnd' Hinv'].
    + by apply NoDup_keys_append.
    + intros k vs Hin.
      apply elem_of_append_inv in Hin as [Hin|(-> & old & -> & Hold)].
      * destruct (Hinv k vs Hin) as (? & ? & Hall). split; [done|]. split; [done|].
        eapply Forall_impl; [exact Hall|]. simpl. lia.
      * assert (StronglySorted Z.lt old ∧ Forall (λ v, v < start) old) as [Hs Hall].
        { destruct Hold as [->|Hold]; [split; constructor | by eapply Hinv]. }
        split; [by destruct old|]. split.
        -- clear -Hs Hall. induction Hs as [|v old Hs IH Hlt]; simpl.
           ++ repeat constructor.
           ++ apply Forall_cons in Hall as [Hv Hall]. constructor; [by apply IH|].
              apply Forall_app. split; [done|]. by constructor.
        -- apply Forall_app. split.
           ++ eapply Forall_impl; [exact Hall|]. simpl. lia.
           ++ constructor; [lia | constructor].
    + split; [done|]. intros k vs Hin. destruct (Hinv' k vs Hin) as (? & ? & Hall).
      split; [done|]. split; [done|]. eapply Forall_impl; [exact Hall|]. simpl. lia.
Qed.

Lemma seqZ_to_nat (start len : Z) :
  seqZ start len = seqZ start (Z.of_nat (Z.to_nat len)).
Proof. unfold seqZ. by rewrite Nat2Z.id. Qed.

Lemma overlap_pos_elem_of_r im mm i a : (0 < overlap im mm i a)%nat → a ∈ ravel mm.
Proof.
  unfold overlap. intros Hpos.
  destruct (filter _ _) as [|p l] eqn:E; simpl in Hpos; [lia|].
  assert (p ∈ filter (λ p, p = (i, a)) (zip (ravel im) (ravel mm))) as Hp
    by (rewrite E; left).
  apply list_elem_of_filter in Hp as [-> Hin].
  by apply elem_of_zip_r in Hin.
Qed.

(** What the loop of [_get_translator] leaves in a translator it
    returns. *)
Lemma get_translator_entries im mm tr :
  _get_translator im mm = Ok tr →
  NoDup (Dict.keys tr) ∧
  (∀ k vs, (k, vs) ∈ tr → vs ≠ [] ∧ StronglySorted Z.lt vs) ∧
  (∀ a i, assigned tr a i → i ∈ ravel im ∧ is_plurality im mm i a).
Proof.
  intros (mx & Hmx & Hfold & Hcheck)%get_translator_Ok.
  pose proof (fold_assign_inv _ _ _ _ _ Hfold) as Hinv.
  rewrite seqZ_to_nat in Hfold.
  apply fold_assign_ascending in Hfold as [Hnd Hasc].
  - split; [done|]. split.
    + intros k vs Hin. destruct (Hasc k vs Hin) as (? & ? & _). done.
    + intros a i Hai. destruct (Hinv a i Hai) as [(vs & [=] & _)|[_ Hpl]].
      split; [|done]. destruct Hpl as [Hpos _]. by eapply overlap_pos_elem_of.
  - constructor.
  - intros k vs Hin. inversion Hin.
Qed.

Lemma for_each_assert {A} (body : A → result unit) l :
  (∀ x, body x = Ok () ∨ body x = Raise AssertionError) →
  for_each body l = Ok () ∨ for_each body l = Raise AssertionError.
Proof.
  intros Hbody. induction l as [|x l IH]; simpl; [by left|].
  destruct (Hbody x) as [-> | ->]; [exact IH | by right].
Qed.

Lemma py_assert_cases b :
  py_assert b = Ok () ∨ py_assert b = Raise AssertionError.
Proof. destruct b; [by left | by right]. Qed.

(** On a merged map that is not empty the check returns or raises
    [AssertionError]. *)
Lemma check_translator_consistency_cases im mm tr :
  ravel mm ≠ [] →
  _check_translator_consistency im mm tr = Ok () ∨
  _check_translator_consistency im mm tr = Raise AssertionError.
Proof.
  intros Hmm. unfold _check_translator_consistency.
  destruct tr as [|kv tr].
  - right. destruct (unique (ravel mm)) as [|l ls] eqn:Hu.
    + by apply unique_nil_inv in Hu.
    + reflexivity.
  - match goal with |- context [for_each ?f (unique (ravel mm))] =>
      assert (for_each f (unique (ravel mm)) = Ok () ∨
              for_each f (unique (ravel mm)) = Raise AssertionError) as [-> | ->]
    end.
    + apply for_each_assert. intros l.
      destruct (py_assert_cases (Dict.contains (kv :: tr) l)) as [-> | ->];
        [apply py_assert_cases | by right].
    + unfold Dict.values. rewrite fmap_cons.
      cbn [mbind result_bind concatenate].
      match goal with |- context [py_assert ?b] =>
        destruct (py_assert_cases b) as [-> | ->] end; [|by right].
      cbn [mbind result_bind]. apply for_each_assert. intros i. apply py_assert_cases.
    + by right.
Qed.


Lemma translator_returns_inv (im mm : instance_map) (tr : translator) :
  _get_translator im mm = Ok tr →
    same_shape im mm = true ∧
    (∃ mx, amax (ravel im) = Ok mx ∧ ∀ i, i ∈ ravel im ↔ 1 ≤ i ≤ mx) ∧
    (∀ l, l ∈ ravel mm → ∃ i, is_plurality im mm i l).
Proof.
  intros Htr.
  pose proof (get_translator_entries _ _ _ Htr) as (Hnd & Hne & Hass).
  apply get_translator_Ok in Htr as (mx & Hmx & Hfold & Hcheck).
  pose proof Hcheck as (Hkeys & Htrne & Hndv & Hsub)%check_translator_consistency_Ok.
  pose proof (fold_assign_Ok _ _ _ _ _ Hfold) as (Hperm & _ & Hall).
  simpl in Hperm.
  split; [|split].
  - destruct (same_shape im mm) eqn:Hsh; [done|]. exfalso.
    destruct (seqZ 1 mx) as [|i l] eqn:Hseq.
    + simpl in Hfold. injection Hfold as <-. done.
    + cbn [for_fold] in Hfold. apply bind_Ok in Hfold as (tr1 & H1 & _).
      unfold assign, index_where_eq in H1. rewrite Hsh in H1. done.
  - exists mx. split; [done|]. intros i. split.
    + intros Hi. apply Hsub in Hi. rewrite Hperm in Hi.
      apply elem_of_seqZ in Hi. lia.
    + intros Hi. destruct (Hall i) as (a & [Hpos _] & _).
      { apply elem_of_seqZ. lia. }
      by eapply overlap_pos_elem_of.
  - intros l Hl. destruct (Hkeys l Hl) as (vs & Hget & Hvs).
    destruct vs as [|i vs]; [done|]. exists i.
    apply (Hass l i). exists (i :: vs). split; [done | left].
Qed.

Lemma translator_returns (im mm : instance_map) (mx : Z) :
  same_shape im mm = true →
  amax (ravel im) = Ok mx → (∀ i, i ∈ ravel im ↔ 1 ≤ i ≤ mx) →
  (∀ l, l ∈ ravel mm → ∃ i, is_plurality im mm i l) →
  is_Ok (_get_translator im mm).
Proof.
  intros Hsh Hmx Hlabels Hcover.
  destruct (fold_assign_total im mm (seqZ 1 mx) [] Hsh) as [tr Hfold].
  { intros i Hi%elem_of_seqZ. apply Hlabels. lia. }
  pose proof (fold_assign_Ok _ _ _ _ _ Hfold) as (Hperm & _ & Hall).
  simpl in Hperm.
  exists tr. unfold _get_translator. rewrite Hmx. cbn [mbind result_bind].
  replace (mx + 1 - 1) with mx by lia. rewrite Hfold. cbn [mbind result_bind].
  assert (_check_translator_consistency im mm tr = Ok ()) as ->; [|done].
  apply check_translator_consistency_Ok. split; [|split; [|split]].
  - intros l Hl. destruct (Hcover l Hl) as [i Hpl].
    assert (i ∈ seqZ 1 mx) as Hi.
    { destruct Hpl as [Hpos _]. apply overlap_pos_elem_of in Hpos.
      apply Hlabels in Hpos. apply elem_of_seqZ. lia. }
    destruct (Hall i Hi) as (a & Hpa & vs & Hget & Hin).
    rewrite (is_plurality_unique _ _ _ _ _ Hpl Hpa).
    exists vs. split; [done|]. intros ->. inversion Hin.
  - intros ->. simpl in Hperm. symmetry in Hperm.
    apply Permutation_nil_r in Hperm.
    destruct (ravel im) as [|x xs] eqn:Him; [done|].
    assert (x ∈ seqZ 1 mx) as Hx.
    { apply elem_of_seqZ. assert (1 ≤ x ≤ mx) by (apply Hlabels; left). lia. }
    rewrite Hperm in Hx. inversion Hx.
  - rewrite Hperm. apply NoDup_seqZ.
  - intros i Hi. rewrite Hperm. apply elem_of_seqZ.
    apply Hlabels in Hi. lia.
Qed.

Lemma translator_keys_perm (im mm : instance_map) (tr : translator) :
  _get_translator im mm = Ok tr → Dict.keys tr ≡ₚ unique (ravel mm).
Proof.
  intros Htr.
  pose proof (get_translator_entries _ _ _ Htr) as (Hnd & Hne & Hass).
  apply get_translator_Ok in Htr as (mx & Hmx & Hfold & Hcheck).
  apply check_translator_consistency_Ok in Hcheck as (Hkeys & _).
  apply NoDup_Permutation; [done | apply NoDup_unique |].
  intros k. rewrite elem_of_unique. split.
  - intros ([k' vs] & -> & Hin)%list_elem_of_fmap. simpl.
    destruct (Hne _ _ Hin) as [Hvs _]. destruct vs as [|i vs]; [done|].
    destruct (Hass k' i) as [_ [Hpos _]].
    { exists (i :: vs). split; [by apply elem_of_get_Some | left]. }
    by eapply overlap_pos_elem_of_r.
  - intros Hk. destruct (Hkeys k Hk) as (vs & Hget & _).
    apply list_elem_of_fmap. exists (k, vs). split; [done|].
    by apply get_Some_elem_of.
Qed.

Lemma translator_assigned (im mm : instance_map) (tr : translator) :
  _get_translator im mm = Ok tr →
  ∀ a i, assigned tr a i ↔ i ∈ ravel im ∧ is_plurality im mm i a.
Proof.
  intros Htr a i. split.
  - apply get_translator_entries in Htr as (_ & _ & Hass). apply Hass.
  - intros [Hi Hpl].
    apply get_translator_Ok in Htr as (mx & Hmx & Hfold & Hcheck).
    apply check_translator_consistency_Ok in Hcheck as (_ & _ & _ & Hsub).
    apply fold_assign_Ok in Hfold as (Hperm & _ & Hall). simpl in Hperm.
    destruct (Hall i) as (b & Hpb & Hab).
    { rewrite <- Hperm. by apply Hsub. }
    by rewrite (is_plurality_unique _ _ _ _ _ Hpl Hpb).
Qed.

(** X1. [_get_translator] returns a translator exactly when the two maps
    have the same shape, the labels of the original map are the ids
    1..max with none missing (so no background 0), and every label of the
    merged map covers the plurality of at least one original instance. *)
Theorem get_translator_returns_iff (im mm : instance_map) :
  is_Ok (_get_translator im mm) ↔
    same_shape im mm = true ∧
    (∃ mx, amax (ravel im) = Ok mx ∧ ∀ i, i ∈ ravel im ↔ 1 ≤ i ≤ mx) ∧
    (∀ l, l ∈ ravel mm → ∃ i, is_plurality im mm i l).
Proof.
  split.
  - intros [tr Htr]. by eapply translator_returns_inv.
  - intros (Hsh & (mx & Hmx & Hlabels) & Hcover). by eapply translator_returns.
Qed.

(** X2. The keys of a translator that [_get_translator] returns are the
    labels of the merged map, each one once: the translator has as many
    entries as the merged map has distinct labels. *)
Theorem get_translator_keys (im mm : instance_map) (tr : translator) :
  _get_translator im mm = Ok tr →
  NoDup (Dict.keys tr) ∧ Dict.keys tr ≡ₚ unique (ravel mm) ∧
  length tr = length (unique (ravel mm)).
Proof.
  intros Htr.
  pose proof (get_translator_entries _ _ _ Htr) as (Hnd & _).
  pose proof (translator_keys_perm _ _ _ Htr) as Hperm.
  split; [done|]. split; [done|].
  rewrite <- Hperm. unfold Dict.keys. by rewrite length_fmap.
Qed.

(** X3. In a translator that [_get_translator] returns, every list of
    original ids is non-empty and strictly ascending. *)
Theorem get_translator_values_ascending (im mm : instance_map) (tr : translator) :
  _get_translator im mm = Ok tr →
  ∀ k vs, (k, vs) ∈ tr → vs ≠ [] ∧ StronglySorted Z.lt vs.
Proof. intros Htr. by apply get_translator_entries in Htr as (_ & ? & _). Qed.

(** X4. A translator that [_get_translator] returns lists the id [i] under
    the merged label [a] exactly when [i] occurs in the original map and
    [a] covers the plurality of its pixels (the smallest such label in a
    tie): nothing else is listed. *)
Theorem get_translator_assigned_iff (im mm : instance_map) (tr : translator) :
  _get_translator im mm = Ok tr →
  ∀ a i, assigned tr a i ↔ i ∈ ravel im ∧ is_plurality im mm i a.
Proof. apply translator_assigned. Qed.

(** X5. An original map with a value below 1 (the background 0, say) in
    which every id from 1 to the largest label occurs is refused with
    [AssertionError]: the loop starts at 1, so that value is never listed,
    and the check looks for every value of the map. *)
Theorem get_translator_background_refused (im mm : instance_map) (mx z : Z) :
  same_shape im mm = true → amax (ravel im) = Ok mx →
  (∀ i, 1 ≤ i ≤ mx → i ∈ ravel im) →
  z ∈ ravel im → z < 1 →
  _get_translator im mm = Raise AssertionError.
Proof.
  intros Hsh Hmx Hlabels Hz Hz1.
  destruct (fold_assign_total im mm (seqZ 1 mx) [] Hsh) as [tr Hfold].
  { intros i Hi%elem_of_seqZ. apply Hlabels. lia. }
  pose proof (fold_assign_Ok _ _ _ _ _ Hfold) as (Hperm & _ & _).
  simpl in Hperm.
  unfold _get_translator. rewrite Hmx. cbn [mbind result_bind].
  replace (mx + 1 - 1) with mx by lia. rewrite Hfold. cbn [mbind result_bind].
  assert (ravel mm ≠ []) as Hmm.
  { apply bool_decide_eq_true in Hsh.
    assert (length (ravel im) = length (ravel mm)) as Hlen.
    { unfold ravel. rewrite !length_concat_fmap. by rewrite Hsh. }
    intros Hnil. rewrite Hnil in Hlen. destruct (ravel im); [inversion Hz | done]. }
  destruct (check_translator_consistency_cases im mm tr Hmm) as [Hok | ->]; [|done].
  apply check_translator_consistency_Ok in Hok as (_ & _ & _ & Hsub).
  apply Hsub in Hz. rewrite Hperm in Hz. apply elem_of_seqZ in Hz. lia.
Qed.

(** Maps of different shapes: as soon as the original map holds a
    label of 1 or more, the first turn of the loop raises [IndexError]
    (the boolean index does not fit the merged map). *)
Lemma get_translator_shape_mismatch (im mm : instance_map) (mx : Z) :
  same_shape im mm = false → amax (ravel im) = Ok mx → 1 ≤ mx →
  _get_translator im mm = Raise IndexError.
Proof.
  intros Hsh Hmx Hpos. unfold _get_translator. rewrite Hmx.
  cbn [mbind result_bind]. replace (mx + 1 - 1) with mx by lia.
  rewrite seqZ_cons by lia. cbn [for_fold].
  assert (assign im mm [] 1 = Raise IndexError) as ->; [|done].
  unfold assign, index_where_eq. by rewrite Hsh.
Qed.


Lemma get_translator_keys_witness :
  let im := [[1; 2]; [3; 3]] in
  let mm := [[7; 7]; [4; 4]] in
  let tr := [(7, [1; 2]); (4, [3])] in
  _get_translator im mm = Ok tr ∧
  NoDup (Dict.keys tr) ∧ Dict.keys tr ≡ₚ unique (ravel mm) ∧
  length tr = length (unique (ravel mm)).
Proof.
  intros im mm tr.
  assert (_get_translator im mm = Ok tr) as H by (vm_compute; reflexivity).
  split; [exact H | exact (get_translator_keys im mm tr H)].
Defined.

Lemma get_translator_values_ascending_witness :
  let im := [[1; 2; 4]; [3; 3; 4]] in
  let mm := [[7; 7; 7]; [4; 4; 7]] in
  let tr := [(7, [1; 2; 4]); (4, [3])] in
  _get_translator im mm = Ok tr ∧
  ∀ k vs, (k, vs) ∈ tr → vs ≠ [] ∧ StronglySorted Z.lt vs.
Proof.
  intros im mm tr.
  assert (_get_translator im mm = Ok tr) as H by (vm_compute; reflexivity).
  split; [exact H | exact (get_translator_values_ascending im mm tr H)].
Defined.

Lemma get_translator_assigned_iff_witness :
  let im := [[1; 2; 2]; [3; 3; 2]] in
  let mm := [[1; 1; 2]; [2; 2; 1]] in
  let tr := [(1, [1; 2]); (2, [3])] in
  _get_translator im mm = Ok tr ∧
  ∀ a i, assigned tr a i ↔ i ∈ ravel im ∧ is_plurality im mm i a.
Proof.
  intros im mm tr.
  assert (_get_translator im mm = Ok tr) as H by (vm_compute; reflexivity).
  split; [exact H | exact (get_translator_assigned_iff im mm tr H)].
Defined.

Lemma get_translator_background_refused_witness :
  let im := [[0; 1]; [2; 2]] in
  let mm := [[1; 1]; [2; 2]] in
  same_shape im mm = true ∧ amax (ravel im) = Ok 2 ∧
  _get_translator im mm = Raise AssertionError.
Proof.
  intros im mm.
  assert (same_shape im mm = true) as Hsh by reflexivity.
  assert (amax (ravel im) = Ok 2) as Hmx by reflexivity.
  split; [exact Hsh|]. split; [exact Hmx|].
  apply (get_translator_background_refused im mm 2 0 Hsh Hmx).
  - intros i Hi. assert (i = 1 ∨ i = 2) as [-> | ->] by lia.
    + right. left.
    + right. right. left.
  - left.
  - lia.
Defined.

End TranslatorMore.

(** ** Averaging features: the general case *)

Lemma axis_index_cases n i :
  (- Z.of_nat n ≤ i < Z.of_nat n ∧ ∃ k, Numpy.axis_index n i = Ok k ∧ (k < n)%nat) ∨
  (¬ (- Z.of_nat n ≤ i < Z.of_nat n) ∧ Numpy.axis_index n i = Raise IndexError).
Proof.
  unfold Numpy.axis_index. repeat case_decide.
  - left. split; [lia|]. eexists. split; [done|lia].
  - left. split; [lia|]. eexists. split; [done|lia].
  - right. split; [lia|done].
Qed.

Lemma mapM_cases {A B} (f : A → result B) (P : A → Prop) e l :
  (∀ x, (P x ∧ is_Ok (f x)) ∨ (¬ P x ∧ f x = Raise e)) →
  (Forall P l ∧ is_Ok (mapM f l)) ∨ (¬ Forall P l ∧ mapM f l = Raise e).
Proof.
  intros Hf. induction l as [|x l IH].
  - left. split; [constructor | by eexists].
  - cbn [mapM]. destruct (Hf x) as [[HP [y Hy]]|[HP Hy]]; rewrite Hy.
    + cbn [mbind result_bind]. destruct IH as [[Hall [ys ->]]|[Hall ->]].
      * left. split; [by constructor | by eexists].
      * right. split; [|done]. intros [_ ?]%Forall_cons. done.
    + right. split; [|done]. intros [? _]%Forall_cons. done.
Qed.

Lemma mapM_length {A B} (f : A → result B) l ys :
  mapM f l = Ok ys → length ys = length l.
Proof.
  revert ys. induction l as [|x l IH]; intros ys; cbn [mapM].
  - by intros [= <-].
  - intros (y & _ & (ys' & Hys & [= <-])%bind_Ok)%bind_Ok. simpl. f_equal. by apply IH.
Qed.

Lemma length_mean_axis0 {F} (mean : list F → F) size rows :
  length (AverageFeatureMerger.mean_axis0 mean size rows) = size.
Proof. unfold AverageFeatureMerger.mean_axis0. by rewrite length_fmap, length_seq. Qed.

(** The entry [r] of an array laid out row after row. *)
Lemma row_of_concat {F} (rows : list (list F)) (s r : nat) x :
  Forall (λ row, length row = s) rows → rows !! r = Some x →
  take s (drop (r * s) (concat rows)) = x.
Proof.
  intros Hall. revert r. induction Hall as [|row rows Hrow Hall IH]; intros r Hr.
  - done.
  - destruct r as [|r]; simpl in Hr |- *.
    + injection Hr as ->. rewrite drop_0, take_app_length'; done.
    + rewrite drop_app_ge by lia.
      replace (s + r * s - length row)%nat with (r * s)%nat by lia. by apply IH.
Qed.

Lemma length_concat_rect {F} (rows : list (list F)) (s : nat) :
  Forall (λ row, length row = s) rows → length (concat rows) = (length rows * s)%nat.
Proof.
  induction 1 as [|row rows Hrow _ IH]; simpl; [done|].
  rewrite length_app, IH, Hrow. lia.
Qed.

Section MergeGeneral.
Import Numpy AverageFeatureMerger.
Context {F : Type} (mean : list F → F) (uninit : F).
Implicit Types (features : Tensor.t F) (tr : Dict.t (list Z)).

Lemma take_rows_cases features idx :
  (Forall (λ i, - Z.of_nat (Tensor.len0 features) ≤ i < Z.of_nat (Tensor.len0 features)) idx
   ∧ is_Ok (take_rows features idx)) ∨
  (¬ Forall (λ i, - Z.of_nat (Tensor.len0 features) ≤ i < Z.of_nat (Tensor.len0 features)) idx
   ∧ take_rows features idx = Raise IndexError).
Proof.
  unfold take_rows. apply mapM_cases. intros i.
  destruct (axis_index_cases (Tensor.len0 features) i) as [[Hi (k & -> & _)]|[Hi ->]].
  - left. split; [done | by eexists].
  - by right.
Qed.

Lemma merge_step_cases features merged item :
  (item_in_range (length merged) (Tensor.len0 features) item ∧
   ∃ merged', merge_step mean features (Tensor.row_size features) merged item
              = Ok merged' ∧ length merged' = length merged) ∨
  (¬ item_in_range (length merged) (Tensor.len0 features) item ∧
   merge_step mean features (Tensor.row_size features) merged item
   = Raise IndexError).
Proof.
  destruct item as [index values]. unfold item_in_range. cbn [fst snd merge_step].
  destruct (take_rows_cases features ((λ v, v - 1) <$> values))
    as [[Hv [sel ->]]|[Hv ->]].
  - apply Forall_fmap in Hv. cbn [mbind result_bind]. unfold set_row.
    destruct (axis_index_cases (length merged) (index - 1))
      as [[Hi (k & -> & Hk)]|[Hi ->]]; cbn [mbind result_bind].
    + left. split; [done|]. rewrite decide_True by apply length_mean_axis0.
      eexists. split; [done|]. by rewrite length_insert.
    + right. split; [|done]. intros [? _]. done.
  - right. split; [|done]. intros [_ Hall]. apply Hv. by apply Forall_fmap.
Qed.

Lemma merge_fold_cases features l merged :
  (Forall (item_in_range (length merged) (Tensor.len0 features)) l ∧
   is_Ok (for_fold (merge_step mean features (Tensor.row_size features)) merged l)) ∨
  (¬ Forall (item_in_range (length merged) (Tensor.len0 features)) l ∧
   for_fold (merge_step mean features (Tensor.row_size features)) merged l
   = Raise IndexError).
Proof.
  revert merged. induction l as [|item l IH]; intros merged.
  - left. split; [constructor | by eexists].
  - cbn [for_fold].
    destruct (merge_step_cases features merged item)
      as [[Hitem (merged' & -> & Hlen)]|[Hitem ->]]; cbn [mbind result_bind].
    + destruct (IH merged') as [[Hall Hok]|[Hall ->]]; rewrite Hlen in Hall.
      * left. split; [by constructor | done].
      * right. split; [|done]. intros [_ ?]%Forall_cons. done.
    + right. split; [|done]. intros [? _]%Forall_cons. done.
Qed.


Lemma take_rows_members features (vs : list Z) :
  Forall (λ v, 1 ≤ v ≤ Z.of_nat (Tensor.len0 features)) vs →
  take_rows features ((λ v, v - 1) <$> vs)
  = Ok ((λ v, Tensor.row features (Z.to_nat (v - 1))) <$> vs).
Proof.
  unfold take_rows. induction 1 as [|v vs Hv _ IH]; [done|].
  rewrite !fmap_cons. cbn [mapM]. rewrite axis_index_Ok by lia.
  cbn [mbind result_bind]. by rewrite IH.
Qed.

Lemma merge_fold_rect features size l merged merged' :
  for_fold (merge_step mean features size) merged l = Ok merged' →
  Forall (λ row, length row = size) merged →
  length merged' = length merged ∧ Forall (λ row, length row = size) merged'.
Proof.
  revert merged. induction l as [|[k vs] l IH]; intros merged.
  - by intros [= <-].
  - cbn [for_fold]. intros (merged1 & Hstep & Hrest)%bind_Ok Hall.
    cbn [merge_step] in Hstep. apply bind_Ok in Hstep as (sel & _ & Hset).
    unfold set_row in Hset. apply bind_Ok in Hset as (r & _ & Hset).
    case_decide as Hlen; [|done]. injection Hset as <-.
    destruct (IH _ Hrest) as [Hl Hr].
    + apply Forall_insert; done.
    + split; [|done]. by rewrite Hl, length_insert.
Qed.

Lemma merge_fold_means features l merged :
  NoDup l.*1 →
  Forall (λ item, 1 ≤ item.1 ≤ Z.of_nat (length merged) ∧
                  Forall (λ v, 1 ≤ v ≤ Z.of_nat (Tensor.len0 features)) item.2) l →
  ∃ merged',
    for_fold (merge_step mean features (Tensor.row_size features)) merged l
      = Ok merged' ∧
    (∀ k vs, (k, vs) ∈ l →
       merged' !! Z.to_nat (k - 1)
       = Some (mean_axis0 mean (Tensor.row_size features)
                 ((λ v, Tensor.row features (Z.to_nat (v - 1))) <$> vs))) ∧
    (∀ r, Z.of_nat r + 1 ∉ l.*1 → merged' !! r = merged !! r).
Proof.
  revert merged. induction l as [|[k vs] l IH]; intros merged Hnd Hall.
  - exists merged. split; [done|]. split; [|done]. intros k vs Hin. inversion Hin.
  - rewrite fmap_cons in Hnd. apply NoDup_cons in Hnd as [Hk Hnd].
    apply Forall_cons in Hall as [[Hkr Hvs] Hall]. cbn [fst snd] in *.
    cbn [for_fold merge_step]. rewrite take_rows_members by done.
    cbn [mbind result_bind]. unfold set_row. rewrite axis_index_Ok by lia.
    cbn [mbind result_bind]. rewrite decide_True by apply length_mean_axis0.
    cbn [mbind result_bind].
    set (m := mean_axis0 mean (Tensor.row_size features)
                ((λ v, Tensor.row features (Z.to_nat (v - 1))) <$> vs)).
    destruct (IH (<[Z.to_nat (k - 1) := m]> merged)) as (merged' & Hfold & Hin & Hout).
    { done. }
    { rewrite length_insert. done. }
    exists merged'. split; [done|]. split.
    + intros k' vs' [[= -> ->]|Hin']%elem_of_cons; [|by apply Hin].
      rewrite Hout.
      * apply list_lookup_insert_eq. lia.
      * replace (Z.of_nat (Z.to_nat (k - 1)) + 1) with k by lia. done.
    + intros r Hr. rewrite fmap_cons, not_elem_of_cons in Hr. destruct Hr as [Hne Hr].
      rewrite (Hout r Hr). apply list_lookup_insert_ne. simpl in Hne. lia.
Qed.

(** The loop of the two merging functions, for keys 1..m in any order. *)
Lemma merge_loop_means features size tr :
  size = Tensor.row_size features →
  Dict.keys tr ≡ₚ seqZ 1 (Z.of_nat (length tr)) →
  (∀ k vs, (k, vs) ∈ tr →
     Forall (λ v, 1 ≤ v ≤ Z.of_nat (Tensor.len0 features)) vs) →
  ∃ merged,
    merge_loop mean uninit features size tr = Ok merged ∧
    length merged = length tr ∧
    Forall (λ row, length row = size) merged ∧
    ∀ k vs, (k, vs) ∈ tr →
      merged !! Z.to_nat (k - 1)
      = Some (mean_axis0 mean size
                ((λ v, Tensor.row features (Z.to_nat (v - 1))) <$> vs)).
Proof.
  intros -> Hkeys Hvals. unfold merge_loop.
  set (merged0 := replicate (length tr) (replicate (Tensor.row_size features) uninit)).
  destruct (merge_fold_means features tr merged0) as (merged & Hfold & Hin & _).
  - unfold Dict.keys in Hkeys. rewrite Hkeys. apply NoDup_seqZ.
  - apply Forall_forall. intros [k vs] Hkv. cbn [fst snd]. split.
    + assert (k ∈ Dict.keys tr) as Hk.
      { apply list_elem_of_fmap. by exists (k, vs). }
      rewrite Hkeys in Hk. apply elem_of_seqZ in Hk.
      subst merged0. rewrite length_replicate. lia.
    + by eapply Hvals.
  - exists merged. split; [done|].
    destruct (merge_fold_rect features _ tr merged0 merged Hfold) as [Hlen Hrect].
    { subst merged0. apply Forall_replicate, length_replicate. }
    split; [|done]. subst merged0. by rewrite Hlen, length_replicate.
Qed.

Lemma process_rank_cases features tr :
  Tensor.rank features = 2%nat ∨ Tensor.rank features = 3%nat →
  ∃ size sh,
    Tensor.shape features = Tensor.len0 features :: sh ∧
    size = Tensor.row_size features ∧ size = Tensor.numel sh ∧
    process mean uninit features tr
    = merged ← merge_loop mean uninit features size tr;
      Ok (Tensor.mk (length tr :: sh) (concat merged)).
Proof.
  unfold process, Tensor.rank, Tensor.row_size, Tensor.len0.
  destruct features as [sh data]. cbn [Tensor.shape].
  intros [Hr|Hr].
  - destruct sh as [|n [|d [|? ?]]]; try done. rewrite decide_True by done.
    exists d, [d]. split; [done|]. split; [simpl; lia|]. split; [simpl; lia|].
    unfold _merge_features. done.
  - destruct sh as [|n [|a [|d [|? ?]]]]; try done.
    rewrite decide_False by done. rewrite decide_True by done.
    exists (a * d)%nat, [a; d]. split; [done|]. split; [simpl; lia|].
    split; [simpl; lia|]. unfold _merge_augmented_features. done.
Qed.

(** X6. For a matrix of rank 2 or 3 and a translator whose entries list
    at least one id each, [process] returns exactly when every key and
    every listed id, less 1, is an index numpy accepts (a negative one
    counts from the end); otherwise it raises [IndexError]. *)
Theorem merge_returns_iff features tr :
  Tensor.rank features = 2%nat ∨ Tensor.rank features = 3%nat →
  Forall (λ item, item.2 ≠ []) tr →
  (is_Ok (process mean uninit features tr) ↔
   Forall (item_in_range (length tr) (Tensor.len0 features)) tr) ∧
  (¬ is_Ok (process mean uninit features tr) →
   process mean uninit features tr = Raise IndexError).
Proof.
  intros Hrank _.
  destruct (process_rank_cases features tr Hrank)
    as (size & sh & _ & -> & _ & ->).
  unfold merge_loop.
  set (merged0 := replicate (length tr) (replicate (Tensor.row_size features) uninit)).
  assert (length merged0 = length tr) as Hlen
    by (subst merged0; apply length_replicate).
  destruct (merge_fold_cases features tr merged0) as [[Hall [m Hm]]|[Hall Hm]];
    rewrite Hlen in Hall; rewrite Hm; cbn [mbind result_bind].
  - split; [|intros Hno; exfalso; apply Hno; by eexists].
    split; [done | intros _; by eexists].
  - split; [|done]. split; [intros [? [=]] | done].
Qed.

(** X7. Whenever [process] returns, the result has one entry per key of
    the translator and the trailing dimensions of the input, and it holds
    as many values as that shape says. *)
Theorem merge_shape features tr merged :
  process mean uninit features tr = Ok merged →
  Tensor.shape merged = length tr :: tail (Tensor.shape features) ∧
  Tensor.rank merged = Tensor.rank features ∧
  Tensor.wf merged.
Proof.
  intros Hres.
  assert (Tensor.rank features = 2%nat ∨ Tensor.rank features = 3%nat) as Hrank.
  { unfold process in Hres. repeat case_decide; auto. done. }
  destruct (process_rank_cases features tr Hrank)
    as (size & sh & Hsh & Hsize & Hnumel & Heq).
  rewrite Heq in Hres. apply bind_Ok in Hres as (rows & Hloop & [= <-]).
  unfold merge_loop in Hloop.
  apply merge_fold_rect in Hloop as [Hlen Hrect].
  2:{ apply Forall_replicate, length_replicate. }
  rewrite length_replicate in Hlen.
  unfold Tensor.rank, Tensor.wf. rewrite Hsh. cbn [Tensor.shape Tensor.data tail length].
  split; [done|]. split; [done|].
  rewrite (length_concat_rect rows size Hrect), Hlen, Hnumel. done.
Qed.

Lemma process_means features tr :
  Tensor.rank features = 2%nat ∨ Tensor.rank features = 3%nat →
  Dict.keys tr ≡ₚ seqZ 1 (Z.of_nat (length tr)) →
  (∀ k vs, (k, vs) ∈ tr →
     Forall (λ v, 1 ≤ v ≤ Z.of_nat (Tensor.len0 features)) vs) →
  ∃ merged,
    process mean uninit features tr = Ok merged ∧
    Tensor.shape merged = length tr :: tail (Tensor.shape features) ∧
    ∀ k vs, (k, vs) ∈ tr →
      Tensor.row merged (Z.to_nat (k - 1))
      = mean_axis0 mean (Tensor.row_size features)
          ((λ v, Tensor.row features (Z.to_nat (v - 1))) <$> vs).
Proof.
  intros Hrank Hkeys Hvals.
  destruct (process_rank_cases features tr Hrank)
    as (size & sh & Hsh & Hsize & Hnumel & ->).
  destruct (merge_loop_means features size tr Hsize Hkeys Hvals)
    as (rows & -> & Hlen & Hrect & Hrows).
  cbn [mbind result_bind]. eexists. split; [done|].
  cbn [Tensor.shape]. split; [by rewrite Hsh|].
  intros k vs Hkv. rewrite <- Hsize. unfold Tensor.row at 1.
  assert (Tensor.row_size (Tensor.mk (length tr :: sh) (concat rows)) = size) as ->
    by (by rewrite Hnumel).
  cbn [Tensor.data]. apply row_of_concat; [done|]. by apply Hrows.
Qed.

(** X8. For a translator whose keys are the ids 1..m in any order and
    which lists ids of 1..n only, on a matrix of rank 2 or 3 with n
    entries: [process] returns m entries, and the entry [k - 1] is the
    mean over axis 0 of the entries [v - 1] of the input for the ids [v]
    listed under [k]. *)
Theorem merge_rows_are_means features tr :
  Tensor.rank features = 2%nat ∨ Tensor.rank features = 3%nat →
  Dict.keys tr ≡ₚ seqZ 1 (Z.of_nat (length tr)) →
  (∀ k vs, (k, vs) ∈ tr →
     Forall (λ v, 1 ≤ v ≤ Z.of_nat (Tensor.len0 features)) vs) →
  ∃ merged,
    process mean uninit features tr = Ok merged ∧
    Tensor.shape merged = length tr :: tail (Tensor.shape features) ∧
    ∀ k vs, (k, vs) ∈ tr →
      Tensor.row merged (Z.to_nat (k - 1))
      = mean_axis0 mean (Tensor.row_size features)
          ((λ v, Tensor.row features (Z.to_nat (v - 1))) <$> vs).
Proof. apply process_means. Qed.

End MergeGeneral.

Section MergeExamples.
Import Numpy AverageFeatureMerger.

Lemma merge_returns_iff_witness :
  let features := Tensor.mk [3; 2]%nat [10; 20; 30; 40; 5; 7] in
  (is_Ok (process Z_mean 0 features [(2, [3]); (1, [1; 2])]) ↔
   Forall (item_in_range 2 3) [(2, [3]); (1, [1; 2])]) ∧
  process Z_mean 0 features [(3, [3]); (1, [1; 2])] = Raise IndexError ∧
  process Z_mean 0 features [(2, [4]); (1, [1; 2])] = Raise IndexError ∧
  process Z_mean 0 features [(0, [3; 0]); (1, [1; 2])]
  = Ok (Tensor.mk [2; 2]%nat [20; 30; 5; 7]).
Proof.
  intros features.
  split; [|vm_compute; repeat split; reflexivity].
  apply (merge_returns_iff Z_mean 0 features [(2, [3]); (1, [1; 2])]).
  - left. reflexivity.
  - repeat constructor; done.
Defined.

Lemma merge_shape_witness :
  let features := Tensor.mk [2; 2; 1]%nat [10; 20; 30; 40] in
  let merged := Tensor.mk [1; 2; 1]%nat [20; 30] in
  process Z_mean 0 features [(1, [1; 2])] = Ok merged ∧
  Tensor.shape merged = [1; 2; 1]%nat ∧ Tensor.wf merged.
Proof.
  intros features merged.
  assert (process Z_mean 0 features [(1, [1; 2])] = Ok merged) as H
    by (vm_compute; reflexivity).
  split; [exact H|].
  destruct (merge_shape Z_mean 0 features [(1, [1; 2])] merged H) as (Hs & _ & Hwf).
  split; [exact Hs | exact Hwf].
Defined.

Lemma merge_rows_are_means_witness :
  let features := Tensor.mk [3; 2]%nat [10; 20; 30; 40; 5; 7] in
  let tr := [(2, [3]); (1, [1; 2])] in
  ∃ merged,
    process Z_mean 0 features tr = Ok merged ∧
    Tensor.row merged 0 = [20; 30] ∧ Tensor.row merged 1 = [5; 7].
Proof.
  intros features tr.
  destruct (merge_rows_are_means Z_mean 0 features tr) as (merged & Hres & _ & Hrows).
  - left. reflexivity.
  - apply Permutation_swap.
  - intros k vs Hin.
    apply elem_of_cons in Hin as [[= -> ->]|Hin];
      [|apply list_elem_of_singleton in Hin as [= -> ->]];
      repeat (apply Forall_cons; split; [subst features; cbn; lia|]);
      constructor.
  - exists merged. split; [exact Hres|]. split.
    + change 0%nat with (Z.to_nat (1 - 1)).
      rewrite (Hrows 1 [1; 2]); [reflexivity | right; left].
    + change 1%nat with (Z.to_nat (2 - 1)).
      rewrite (Hrows 2 [3]); [reflexivity | left].
Defined.

End MergeExamples.

(** ** FeatureMerger as a pipeline step *)

Lemma amax_in (l : list Z) mx : Numpy.amax l = Ok mx → mx ∈ l.
Proof.
  destruct l as [|y l]; simpl; [done|]. intros [= <-].
  revert y. induction l as [|z l IH]; intros y; simpl; [left|].
  specialize (IH (y `max` z)). apply elem_of_cons in IH as [Heq|Hin].
  - rewrite Heq. destruct (Z.max_spec y z) as [[_ ->]|[_ ->]]; [right; left | left].
  - right. by right.
Qed.

(** The reference resize returns the size it is asked for. *)
Lemma reference_resize_rect {A} (h w : nat) (a : list (list A)) nw nh out :
  Array2.rect h w a → Reference.cv2_resize a nw nh = Ok out →
  Array2.rect nh nw out.
Proof.
  intros Hrect. unfold Reference.cv2_resize. case_decide as Hd; [done|].
  intros [= <-].
  assert (0 < h ∧ 0 < w)%nat as [Hh Hw].
  { destruct Hrect as [Hlen Hall]. destruct a as [|row a]; [simpl in Hd; tauto|].
    simpl in Hlen. split; [lia|].
    destruct (decide (w = 0)%nat) as [->|]; [|lia]. exfalso. apply Hd.
    right. right. clear -Hall. unfold Numpy.ravel.
    induction Hall as [|r rs Hr _ IH]; [done|]. simpl. rewrite IH.
    by destruct r. }
  assert (Array2.height a = h) as -> by apply Hrect.
  assert (Array2.width a = w) as -> by (by eapply rect_width).
  split; [by rewrite length_fmap, length_seq|].
  apply Forall_fmap, Forall_forall. intros y _. simpl.
  assert (∀ (f : nat → option A) l, (∀ x, is_Some (f x)) → length (omap f l) = length l)
    as Hlen.
  { intros f l Hf. induction l as [|x l IH]; [done|]. csimpl.
    destruct (Hf x) as [v ->]. simpl. by rewrite IH. }
  rewrite Hlen; [apply length_seq|]. intros x.
  apply (at_is_Some h w); [done|lia|lia].
Qed.

Section FeatureMergerStepFacts.
Import Numpy FeatureMerger AverageFeatureMerger.
Context {F : Type} (mean : list F → F) (uninit : F).
Context (cv2_resize : list (list Z) → nat → nat → result (list (list Z))).

(** X9. [FeatureMerger._downsample] asks [cv2.resize] for the size
    [(new_height, new_width)], which the routine reads as (width,
    height): for a resize that returns the size it is asked for, the
    result has [width // factor] rows and [height // factor] columns. *)
Theorem feature_merger_downsample_shape (h w : nat) image factor out :
  (∀ a nw nh out, Array2.rect h w a → cv2_resize a nw nh = Ok out →
                  Array2.rect nh nw out) →
  Array2.rect h w image → (0 < h)%nat →
  FeatureMergerStep._downsample cv2_resize image factor = Ok out →
  Array2.rect (w `div` factor) (h `div` factor) out.
Proof.
  intros Hresize Hrect Hh. unfold FeatureMergerStep._downsample.
  case_decide; [done|]. cbv zeta. intros Hout.
  apply (Hresize _ _ _ _ Hrect) in Hout.
  assert (Array2.height image = h) as Hheight by apply Hrect.
  assert (Array2.width image = w) as Hwidth by (by eapply rect_width).
  by rewrite Hheight, Hwidth in Hout.
Qed.

(** X10. Without downsampling, for maps of one shape, an original map
    whose labels are exactly 1..n, a merged map whose labels are exactly
    1..m, each of them the plurality label of some instance, and a
    feature matrix of rank 2 or 3 with n entries: [FeatureMerger.process]
    returns m entries, and the entry [a - 1] is the mean of the entries of
    the instances whose plurality label is [a], taken in ascending
    order. *)
Theorem feature_merger_process_means (im mm : instance_map)
    (features : Tensor.t F) (m : nat) :
  same_shape im mm = true →
  (0 < Tensor.len0 features)%nat →
  (∀ i, i ∈ ravel im ↔ 1 ≤ i ≤ Z.of_nat (Tensor.len0 features)) →
  (∀ a, a ∈ ravel mm ↔ 1 ≤ a ≤ Z.of_nat m) →
  (∀ a, a ∈ ravel mm → ∃ i, is_plurality im mm i a) →
  Tensor.rank features = 2%nat ∨ Tensor.rank features = 3%nat →
  ∃ merged,
    FeatureMergerStep.process mean uninit cv2_resize 1 im mm features
      = Ok merged ∧
    Tensor.shape merged = m :: tail (Tensor.shape features) ∧
    ∀ a, 1 ≤ a ≤ Z.of_nat m →
      ∃ vs, vs ≠ [] ∧ StronglySorted Z.lt vs ∧
            (∀ i, i ∈ vs ↔ is_plurality im mm i a) ∧
            Tensor.row merged (Z.to_nat (a - 1))
            = mean_axis0 mean (Tensor.row_size features)
                ((λ v, Tensor.row features (Z.to_nat (v - 1))) <$> vs).
Proof.
  intros Hsh Hn Him Hmm Hcover Hrank.
  set (n := Tensor.len0 features) in *.
  assert (amax (ravel im) = Ok (Z.of_nat n)) as Hmx.
  { assert (Z.of_nat n ∈ ravel im) as Hnin by (apply Him; lia).
    destruct (amax (ravel im)) as [mx|e] eqn:Hmx.
    - f_equal. pose proof (amax_in _ _ Hmx) as Hin. apply Him in Hin.
      pose proof (amax_elem_of _ _ Hmx _ Hnin). lia.
    - destruct (ravel im); [inversion Hnin | done]. }
  destruct (translator_returns im mm (Z.of_nat n) Hsh Hmx Him Hcover) as [tr Htr].
  pose proof (get_translator_entries _ _ _ Htr) as (Hnd & Hne & _).
  pose proof (translator_keys_perm _ _ _ Htr) as Hkeys.
  pose proof (translator_assigned _ _ _ Htr) as Hass.
  assert (unique (ravel mm) ≡ₚ seqZ 1 (Z.of_nat m)) as Hlabels.
  { apply NoDup_Permutation; [apply NoDup_unique | apply NoDup_seqZ |].
    intros a. rewrite elem_of_unique, Hmm, elem_of_seqZ. lia. }
  assert (length tr = m) as Hlen.
  { transitivity (length (Dict.keys tr)); [unfold Dict.keys; by rewrite length_fmap|].
    rewrite Hkeys, Hlabels, length_seqZ. lia. }
  destruct (process_means mean uninit features tr Hrank) as (merged & Hres & Hshape & Hrows).
  { by rewrite Hkeys, Hlabels, Hlen. }
  { intros k vs Hkv. apply Forall_forall. intros v Hv. apply Him.
    apply (Hass k v). exists vs. split; [by apply elem_of_get_Some | done]. }
  exists merged. split; [|split].
  - unfold FeatureMergerStep.process. rewrite decide_False by (intros Hc; by apply Hc).
    cbn [mbind result_bind]. rewrite Htr. cbn [mbind result_bind].
    revert Hres. unfold AverageFeatureMerger.process. done.
  - by rewrite Hshape, Hlen.
  - intros a Ha.
    assert (a ∈ Dict.keys tr) as Hk.
    { rewrite Hkeys, Hlabels. apply elem_of_seqZ. lia. }
    apply list_elem_of_fmap in Hk as ([a' vs] & -> & Hin). cbn [fst] in *.
    exists vs. destruct (Hne _ _ Hin) as [Hvs Hsorted].
    split; [done|]. split; [done|]. split; [|by apply Hrows].
    intros i. split.
    + intros Hi. apply (Hass a' i). exists vs.
      split; [by apply elem_of_get_Some | done].
    + intros Hpl. destruct (Hass a' i) as [_ Hback].
      destruct Hback as (vs' & Hget & Hi).
      { split; [|done]. destruct Hpl as [Hpos _]. by eapply overlap_pos_elem_of. }
      rewrite (elem_of_get_Some tr a' vs Hnd Hin) in Hget. by injection Hget as <-.
Qed.

End FeatureMergerStepFacts.

Section FeatureMergerStepExamples.
Import Numpy FeatureMerger.

Lemma feature_merger_downsample_shape_witness :
  let image := [[1; 1; 2; 2]; [1; 1; 2; 2]] in
  Array2.rect 2 4 image ∧
  FeatureMergerStep._downsample Reference.cv2_resize image 2 = Ok [[1]; [1]] ∧
  Array2.rect 2 1 [[1]; [1]].
Proof.
  intros image.
  assert (Array2.rect 2 4 image) as Hrect
    by (split; [reflexivity | repeat constructor]).
  assert (FeatureMergerStep._downsample Reference.cv2_resize image 2
          = Ok [[1]; [1]]) as Hout by (vm_compute; reflexivity).
  split; [exact Hrect|]. split; [exact Hout|].
  apply (feature_merger_downsample_shape Reference.cv2_resize 2 4 image 2 [[1]; [1]]).
  - intros a nw nh out. apply reference_resize_rect.
  - exact Hrect.
  - lia.
  - exact Hout.
Defined.

Lemma feature_merger_process_means_witness :
  let im := [[1; 2]; [3; 3]] in
  let mm := [[1; 1]; [2; 2]] in
  let features := Tensor.mk [3; 2]%nat [10; 20; 30; 40; 5; 7] in
  ∃ merged,
    FeatureMergerStep.process Z_mean 0 Reference.cv2_resize 1 im mm features
      = Ok merged ∧
    Tensor.shape merged = [2; 2]%nat.
Proof.
  intros im mm features.
  assert (_get_translator im mm = Ok [(1, [1; 2]); (2, [3])]) as Htr
    by (vm_compute; reflexivity).
  destruct (translator_returns_inv _ _ _ Htr) as (Hsh & (mx & Hmx & Hlab) & Hcover).
  assert (mx = 3) as -> by (vm_compute in Hmx; congruence).
  destruct (feature_merger_process_means Z_mean 0 Reference.cv2_resize
              im mm features 2 Hsh) as (merged & Hres & Hshape & _).
  - cbn. lia.
  - exact Hlab.
  - intros a. cbn. rewrite !elem_of_cons, elem_of_nil. lia.
  - exact Hcover.
  - left. reflexivity.
  - exists merged. split; [exact Hres | exact Hshape].
Defined.

End FeatureMergerStepExamples.

(** ** Patch extraction: placement, masking, repeated calls *)

(** Two arrays of one shape with the same entries are the same array. *)
Lemma rect_ext {A} (h w : nat) (a b : list (list A)) :
  Array2.rect h w a → Array2.rect h w b →
  (∀ x y, Array2.at_ a x y = Array2.at_ b x y) → a = b.
Proof.
  intros [Hla _] [Hlb _] Hat. apply list_eq. intros x.
  destruct (a !! x) as [ra|] eqn:Hra.
  - destruct (lookup_lt_is_Some_2 b x) as [rb Hrb].
    { apply lookup_lt_Some in Hra. lia. }
    rewrite Hrb. f_equal. apply list_eq. intros y.
    specialize (Hat x y). unfold Array2.at_ in Hat. by rewrite Hra, Hrb in Hat.
  - symmetry. apply lookup_ge_None_2. apply lookup_ge_None_1 in Hra. lia.
Qed.

Section PatchMore.
Import InstanceMapPatchDataset DeepFeatureExtractor.

(** The window is never longer than the patch, whatever the region. *)
Lemma crop_window_lengths (self : t) (rp : Skimage.region) :
  let '(min_x, max_x, min_y, max_y) := crop_window self rp in
  max_x - min_x ≤ Z.of_nat (patch_size self).1.1 ∧
  max_y - min_y ≤ Z.of_nat (patch_size self).1.2.
Proof.
  unfold crop_window.
  destruct (Skimage.centroid rp) as [cx cy].
  destruct (Skimage.bbox rp) as [[[bmin_x bmin_y] bmax_x] bmax_y].
  pose proof (half_bounds (patch_size self).1.1).
  pose proof (half_bounds (patch_size self).1.2).
  repeat case_decide; simpl; lia.
Qed.

(** Without a fill value the window is centred on the rounded centroid
    and has at most [2 * (size // 2)] rows and columns. *)
Lemma crop_window_unmasked (self : t) (rp : Skimage.region) :
  fill_value self = None →
  let '(min_x, max_x, min_y, max_y) := crop_window self rp in
  let cx := Py.round (Skimage.centroid rp).1 in
  let cy := Py.round (Skimage.centroid rp).2 in
  let half0 := Z.of_nat (patch_size self).1.1 `div` 2 in
  let half1 := Z.of_nat (patch_size self).1.2 `div` 2 in
  min_x = Z.max 0 (cx - half0) ∧
  max_x = Z.min (Z.of_nat (Array2.height (image_ self))) (cx + half0) ∧
  min_y = Z.max 0 (cy - half1) ∧
  max_y = Z.min (Z.of_nat (Array2.width (image_ self))) (cy + half1).
Proof.
  intros Hnone. unfold crop_window.
  destruct (Skimage.centroid rp) as [cx cy].
  destruct (Skimage.bbox rp) as [[[bmin_x bmin_y] bmax_x] bmax_y].
  rewrite !decide_True by (by left). simpl. done.
Qed.

(** The call on a region of the map, in full: the image after the masked
    write and the patch, entry by entry. *)
Lemma get_instance_patch_full (h w : nat) (self : t) index rp :
  wf_dataset h w self → properties self !! index = Some rp →
  ∃ patch img min_x max_x min_y max_y,
    _get_instance_patch self rp = Ok (patch, img) ∧
    crop_window self rp = (min_x, max_x, min_y, max_y) ∧
    (0 ≤ min_x ≤ max_x ∧ max_x ≤ Z.of_nat h ∧
     max_x - min_x ≤ Z.of_nat (patch_size self).1.1) ∧
    (0 ≤ min_y ≤ max_y ∧ max_y ≤ Z.of_nat w ∧
     max_y - min_y ≤ Z.of_nat (patch_size self).1.2) ∧
    Array2.rect (patch_size self).1.1 (patch_size self).1.2 patch ∧
    Array2.rect h w img ∧
    (∀ x y, Array2.at_ img x y =
       (λ old, match fill_value self with
               | Some fill =>
                   if decide ((Z.to_nat min_x ≤ x < Z.to_nat max_x)%nat ∧
                              (Z.to_nat min_y ≤ y < Z.to_nat max_y)%nat ∧
                              Array2.at_ (instance_map self) x y
                                ≠ Some (Skimage.label rp))
                   then (fill, fill, fill) else old
               | None => old
               end) <$> Array2.at_ (image_ self) x y) ∧
    (let size0 := (patch_size self).1.1 in
     let size1 := (patch_size self).1.2 in
     let bg := default 255 (fill_value self) in
     let xl := Z.to_nat (max_x - min_x) in
     let yl := Z.to_nat (max_y - min_y) in
     let top := ((size0 - xl) `div` 2)%nat in
     let left := ((size1 - yl) `div` 2)%nat in
     ∀ x y, (x < size0)%nat → (y < size1)%nat →
       Array2.at_ patch x y =
       if decide ((top ≤ x < top + xl)%nat ∧ (left ≤ y < left + yl)%nat)
       then Array2.at_ img (Z.to_nat min_x + (x - top)) (Z.to_nat min_y + (y - left))
       else Some (bg, bg, bg)).
Proof.
  intros Hwf Hrp.
  pose proof (wf_dataset_valid_region h w self index rp Hwf Hrp) as Hvalid.
  destruct Hwf as (Himg & Hmap & _).
  destruct (crop_window self rp) as [[[min_x max_x] min_y] max_y] eqn:Hcw.
  pose proof (crop_window_bounds self rp h w Himg Hvalid) as Hb.
  rewrite Hcw in Hb. destruct Hb as [(Hx1 & Hx2 & Hx3) (Hy1 & Hy2 & Hy3)].
  assert (0 < h)%nat as Hh.
  { unfold valid_region, Skimage.bbox, Skimage.centroid in Hvalid. lia. }
  destruct (get_instance_patch_spec self rp h w min_x max_x min_y max_y)
    as (patch & img & Hfill & Hcopy & Hget); try done.
  destruct (fill_outside_spec self rp h w min_x max_x min_y max_y)
    as (img' & Hfill' & Hrect & Hatimg); try done.
  rewrite Hfill in Hfill'. injection Hfill' as <-.
  destruct (copy_region_spec self img h w min_x max_x min_y max_y)
    as (patch' & Hcopy' & Hprect & Hat); try done.
  rewrite Hcopy in Hcopy'. injection Hcopy' as <-.
  exists patch, img, min_x, max_x, min_y, max_y.
  repeat (split; [done|]). exact Hat.
Qed.

(** X11. The two [assert]s of [_get_instance_patch] cannot fail: for any
    dataset and any region the call does not raise [AssertionError]. *)
Theorem get_instance_patch_asserts_hold (self : t) (rp : Skimage.region) :
  never AssertionError (_get_instance_patch self rp).
Proof.
  unfold _get_instance_patch.
  pose proof (crop_window_lengths self rp) as Hlen.
  destruct (crop_window self rp) as [[[min_x max_x] min_y] max_y].
  destruct Hlen as [Hx Hy].
  rewrite !bool_decide_eq_true_2 by done. cbn [py_assert mbind result_bind].
  apply never_bind.
  - unfold fill_outside, never. destruct (fill_value self); [|done].
    by destruct (Numpy.same_shape _ _).
  - intros img. apply never_bind; [|done].
    unfold copy_region, never. cbv zeta.
    repeat match goal with |- context [Py.slice_range ?a ?b ?c] =>
      destruct (Py.slice_range a b c) end.
    by case_bool_decide.
Qed.

(** X12. The window is pasted in the middle of the patch: with
    [top = (size - x_length) // 2] and [left = (size - y_length) // 2],
    the entry [(x, y)] of the patch is the pixel
    [(min_x + x - top, min_y + y - left)] of the image (after the masked
    write) inside the window, and the background value around it. *)
Theorem get_instance_patch_placement (h w : nat) (self : t) index rp :
  wf_dataset h w self → properties self !! index = Some rp →
  ∃ patch img min_x max_x min_y max_y,
    _get_instance_patch self rp = Ok (patch, img) ∧
    crop_window self rp = (min_x, max_x, min_y, max_y) ∧
    let size0 := (patch_size self).1.1 in
    let size1 := (patch_size self).1.2 in
    let bg := default 255 (fill_value self) in
    let xl := Z.to_nat (max_x - min_x) in
    let yl := Z.to_nat (max_y - min_y) in
    let top := ((size0 - xl) `div` 2)%nat in
    let left := ((size1 - yl) `div` 2)%nat in
    ∀ x y, (x < size0)%nat → (y < size1)%nat →
      Array2.at_ patch x y =
      if decide ((top ≤ x < top + xl)%nat ∧ (left ≤ y < left + yl)%nat)
      then Array2.at_ img (Z.to_nat min_x + (x - top)) (Z.to_nat min_y + (y - left))
      else Some (bg, bg, bg).
Proof.
  intros Hwf Hrp.
  destruct (get_instance_patch_full h w self index rp Hwf Hrp)
    as (patch & img & min_x & max_x & min_y & max_y & Hget & Hcw & _ & _ & _ & _ & _ & Hat).
  exists patch, img, min_x, max_x, min_y, max_y. done.
Qed.

(** X13. With a fill value, a patch shows nothing but the region itself:
    each of its pixels is the fill value or the pixel of the image, as it
    was before the call, at a position that carries the label of the
    region. *)
Theorem get_instance_patch_masked_content (h w : nat) (self : t) index rp fill :
  wf_dataset h w self → properties self !! index = Some rp →
  fill_value self = Some fill →
  ∃ patch img,
    _get_instance_patch self rp = Ok (patch, img) ∧
    ∀ x y, (x < (patch_size self).1.1)%nat → (y < (patch_size self).1.2)%nat →
      Array2.at_ patch x y = Some (fill, fill, fill) ∨
      ∃ i j, Array2.at_ (instance_map self) i j = Some (Skimage.label rp) ∧
             Array2.at_ patch x y = Array2.at_ (image_ self) i j.
Proof.
  intros Hwf Hrp Hfill.
  destruct (get_instance_patch_full h w self index rp Hwf Hrp)
    as (patch & img & min_x & max_x & min_y & max_y & Hget & Hcw
        & (Hx1 & Hx2 & Hx3) & (Hy1 & Hy2 & Hy3) & _ & Hrect & Himg & Hat).
  exists patch, img. split; [done|]. intros x y Hx Hy.
  cbv zeta in Hat. rewrite (Hat x y Hx Hy), Hfill. cbn [default].
  case_decide as Hin; [|by left].
  rewrite Himg, Hfill.
  destruct Hwf as (Hrimg & Hrmap & _).
  match goal with |- context [Array2.at_ (image_ self) ?i ?j] =>
    destruct (at_is_Some h w (image_ self) i j Hrimg) as [old Hold]; [lia|lia|];
    rewrite Hold; cbn [fmap option_fmap option_map];
    destruct (decide (Array2.at_ (instance_map self) i j = Some (Skimage.label rp)))
      as [Hlab|Hlab] end.
  - right. eexists _, _. split; [exact Hlab|]. rewrite Hold.
    rewrite decide_False; [done|]. intros (_ & _ & Hne). done.
  - left. rewrite decide_True; [done|]. repeat split; try lia. done.
Qed.


(** X14. Without a fill value and with an odd patch size, the window has
    one row (column) less than the patch and is pasted at its top (left):
    the last row (column) of every patch is white. *)
Theorem get_instance_patch_odd_size_border (h w : nat) (self : t) index rp :
  wf_dataset h w self → properties self !! index = Some rp →
  fill_value self = None →
  ∃ patch img,
    _get_instance_patch self rp = Ok (patch, img) ∧
    (Nat.odd (patch_size self).1.1 = true →
     ∀ y, (y < (patch_size self).1.2)%nat →
       Array2.at_ patch ((patch_size self).1.1 - 1) y = Some (255, 255, 255)) ∧
    (Nat.odd (patch_size self).1.2 = true →
     ∀ x, (x < (patch_size self).1.1)%nat →
       Array2.at_ patch x ((patch_size self).1.2 - 1) = Some (255, 255, 255)).
Proof.
  intros Hwf Hrp Hnone.
  destruct (get_instance_patch_full h w self index rp Hwf Hrp)
    as (patch & img & min_x & max_x & min_y & max_y & Hget & Hcw
        & (Hx1 & Hx2 & Hx3) & (Hy1 & Hy2 & Hy3) & _ & _ & _ & Hat).
  pose proof (crop_window_unmasked self rp Hnone) as Hwin.
  rewrite Hcw in Hwin. cbv zeta in Hwin, Hat.
  destruct Hwin as (Hminx & Hmaxx & Hminy & Hmaxy).
  rewrite Hnone in Hat. cbn [default] in Hat.
  set (size0 := (patch_size self).1.1) in *.
  set (size1 := (patch_size self).1.2) in *.
  exists patch, img. split; [done|]. split.
  - intros [k Hk]%Nat.odd_spec y Hy.
    rewrite (Hat (size0 - 1)%nat y) by lia.
    rewrite decide_False; [done|].
    assert (Z.of_nat size0 `div` 2 = Z.of_nat k) as Hhalf.
    { symmetry. apply (Z.div_unique _ _ _ 1); lia. }
    rewrite Hhalf in Hminx, Hmaxx.
    assert (Z.to_nat (max_x - min_x) ≤ 2 * k)%nat as Hxl by lia.
    pose proof (Nat.div_mod_eq (size0 - Z.to_nat (max_x - min_x)) 2) as Hdm.
    pose proof (Nat.mod_upper_bound (size0 - Z.to_nat (max_x - min_x)) 2 ltac:(lia)).
    lia.
  - intros [k Hk]%Nat.odd_spec x Hx.
    rewrite (Hat x (size1 - 1)%nat) by lia.
    rewrite decide_False; [done|].
    assert (Z.of_nat size1 `div` 2 = Z.of_nat k) as Hhalf.
    { symmetry. apply (Z.div_unique _ _ _ 1); lia. }
    rewrite Hhalf in Hminy, Hmaxy.
    assert (Z.to_nat (max_y - min_y) ≤ 2 * k)%nat as Hyl by lia.
    pose proof (Nat.div_mod_eq (size1 - Z.to_nat (max_y - min_y)) 2) as Hdm.
    pose proof (Nat.mod_upper_bound (size1 - Z.to_nat (max_y - min_y)) 2 ltac:(lia)).
    lia.
Qed.

(** X15. Without a fill value, with an even patch size and a centroid far
    enough from the border, the patch is the window of the image centred
    on the rounded centroid, and the image is left as it was. *)
Theorem get_instance_patch_interior (h w : nat) (self : t) index rp :
  wf_dataset h w self → properties self !! index = Some rp →
  fill_value self = None →
  let cx := Py.round (Skimage.centroid rp).1 in
  let cy := Py.round (Skimage.centroid rp).2 in
  let half0 := Z.of_nat (patch_size self).1.1 `div` 2 in
  let half1 := Z.of_nat (patch_size self).1.2 `div` 2 in
  Nat.even (patch_size self).1.1 = true →
  Nat.even (patch_size self).1.2 = true →
  half0 ≤ cx → cx + half0 ≤ Z.of_nat h →
  half1 ≤ cy → cy + half1 ≤ Z.of_nat w →
  _get_instance_patch self rp
  = Ok (Array2.slice2 (image_ self)
          (cx - half0) (cx + half0) (cy - half1) (cy + half1),
        image_ self).
Proof.
  intros Hwf Hrp Hnone cx cy half0 half1 [k0 Hk0]%Nat.even_spec
    [k1 Hk1]%Nat.even_spec Hcx1 Hcx2 Hcy1 Hcy2.
  destruct (get_instance_patch_full h w self index rp Hwf Hrp)
    as (patch & img & min_x & max_x & min_y & max_y & Hget & Hcw
        & (Hx1 & Hx2 & Hx3) & (Hy1 & Hy2 & Hy3) & Hprect & _ & _ & Hat).
  pose proof (get_instance_patch_unmasked_frame self rp patch img Hnone Hget) as ->.
  pose proof (crop_window_unmasked self rp Hnone) as Hwin.
  rewrite Hcw in Hwin. cbv zeta in Hwin, Hat.
  destruct Hwin as (Hminx & Hmaxx & Hminy & Hmaxy).
  fold cx cy half0 half1 in Hminx, Hmaxx, Hminy, Hmaxy.
  pose proof (wf_dataset_valid_region h w self index rp Hwf Hrp) as Hvalid.
  destruct Hwf as (Himg & _ & _).
  assert (0 < h)%nat as Hh.
  { unfold valid_region, Skimage.bbox, Skimage.centroid in Hvalid. lia. }
  assert (Array2.height (image_ self) = h) as Hheight by apply Himg.
  assert (Array2.width (image_ self) = w) as Hwidth by (by eapply rect_width).
  rewrite Hheight in Hmaxx. rewrite Hwidth in Hmaxy.
  assert (0 ≤ half0 ∧ 2 * half0 = Z.of_nat (patch_size self).1.1) as [Hh0 Hh0'].
  { assert (half0 = Z.of_nat k0) as Hq
      by (subst half0; symmetry; apply (Z.div_unique _ _ _ 0); lia).
    lia. }
  assert (0 ≤ half1 ∧ 2 * half1 = Z.of_nat (patch_size self).1.2) as [Hh1 Hh1'].
  { assert (half1 = Z.of_nat k1) as Hq
      by (subst half1; symmetry; apply (Z.div_unique _ _ _ 0); lia).
    lia. }
  rewrite Hget. f_equal. f_equal.
  assert (min_x = cx - half0 ∧ max_x = cx + half0 ∧
          min_y = cy - half1 ∧ max_y = cy + half1) as (-> & -> & -> & ->) by lia.
  apply (rect_ext (patch_size self).1.1 (patch_size self).1.2); [done| |].
  - replace (patch_size self).1.1 with (Z.to_nat (cx + half0 - (cx - half0))) by lia.
    replace (patch_size self).1.2 with (Z.to_nat (cy + half1 - (cy - half1))) by lia.
    apply (rect_slice2 h w); (done || lia).
  - intros x y.
    destruct (decide (x < (patch_size self).1.1 ∧ y < (patch_size self).1.2)%nat)
      as [[Hx Hy]|Hout].
    + rewrite (Hat x y Hx Hy). rewrite Hnone. cbn [default].
      assert (Z.to_nat (cx + half0 - (cx - half0)) = (patch_size self).1.1) as -> by lia.
      assert (Z.to_nat (cy + half1 - (cy - half1)) = (patch_size self).1.2) as -> by lia.
      rewrite !Nat.sub_diag. change (0 `div` 2)%nat with 0%nat.
      rewrite decide_True by lia.
      rewrite (at_slice2 h w) by (done || lia).
      f_equal; lia.
    + rewrite (at_outside (patch_size self).1.1 (patch_size self).1.2 patch) by done.
      symmetry. apply (at_outside (patch_size self).1.1 (patch_size self).1.2); [|done].
      replace (patch_size self).1.1 with (Z.to_nat (cx + half0 - (cx - half0))) by lia.
      replace (patch_size self).1.2 with (Z.to_nat (cy + half1 - (cy - half1))) by lia.
      apply (rect_slice2 h w); (done || lia).
Qed.


(** The window depends on the image by its height and width only. *)
Lemma crop_window_with_image (h w : nat) (self : t) img rp :
  Array2.rect h w (image_ self) → Array2.rect h w img →
  crop_window (with_image self img) rp = crop_window self rp.
Proof.
  intros Ha Hb. unfold crop_window. cbn [with_image image_ patch_size fill_value].
  assert (Array2.height img = Array2.height (image_ self)) as ->.
  { destruct Ha as [Ha _], Hb as [Hb _]. unfold Array2.height. lia. }
  assert (Array2.width img = Array2.width (image_ self)) as ->; [|done].
  destruct (Nat.eq_dec h 0%nat) as [->|Hh].
  - destruct Ha as [Ha _], Hb as [Hb _].
    destruct img; [|done]. by destruct (image_ self).
  - rewrite (rect_width h w img), (rect_width h w (image_ self)); (done || lia).
Qed.

(** X16. In mask mode a second call for the same region changes nothing
    more: on the dataset as the first call left it, the call returns the
    same patch and leaves the same image. *)
Theorem get_instance_patch_idempotent (h w : nat) (self : t) index rp patch img :
  wf_dataset h w self → properties self !! index = Some rp →
  _get_instance_patch self rp = Ok (patch, img) →
  _get_instance_patch (with_image self img) rp = Ok (patch, img).
Proof.
  intros Hwf Hrp Hget.
  destruct (get_instance_patch_full h w self index rp Hwf Hrp)
    as (patch0 & img0 & min_x & max_x & min_y & max_y & Hget0 & Hcw
        & Hbx & Hby & Hprect & Hrect & Himg & Hat).
  rewrite Hget in Hget0. injection Hget0 as <- <-.
  assert (wf_dataset h w (with_image self img)) as Hwf2 by (by apply wf_with_image).
  destruct (get_instance_patch_full h w (with_image self img) index rp Hwf2 Hrp)
    as (patch2 & img2 & min_x2 & max_x2 & min_y2 & max_y2 & Hget2 & Hcw2
        & _ & _ & Hprect2 & Hrect2 & Himg2 & Hat2).
  rewrite (crop_window_with_image h w) in Hcw2 by (done || apply Hwf).
  rewrite Hcw in Hcw2. injection Hcw2 as <- <- <- <-.
  cbn [with_image image_ patch_size fill_value instance_map] in *.
  assert (img2 = img) as ->.
  { apply (rect_ext h w); [done|done|]. intros x y.
    rewrite Himg2, Himg. destruct (Array2.at_ (image_ self) x y) as [old|]; [|done].
    cbn [fmap option_fmap option_map]. f_equal.
    destruct (fill_value self) as [fill|]; [|done].
    by destruct (decide _). }
  rewrite Hget2. f_equal. f_equal.
  apply (rect_ext (patch_size self).1.1 (patch_size self).1.2); [done|done|].
  intros x y.
  destruct (decide (x < (patch_size self).1.1 ∧ y < (patch_size self).1.2)%nat)
    as [[Hx Hy]|Hout].
  - cbv zeta in Hat, Hat2. by rewrite (Hat x y Hx Hy), (Hat2 x y Hx Hy).
  - rewrite !(at_outside (patch_size self).1.1 (patch_size self).1.2); done.
Qed.

End PatchMore.

Section PatchMoreExamples.
Import InstanceMapPatchDataset DeepFeatureExtractor.

Lemma get_instance_patch_placement_witness :
  let img := [[(1, 1, 1); (2, 2, 2); (3, 3, 3)];
              [(4, 4, 4); (5, 5, 5); (6, 6, 6)];
              [(7, 7, 7); (8, 8, 8); (9, 9, 9)]] in
  let imap := [[1; 1; 2]; [1; 2; 2]; [0; 0; 2]] in
  let self := __init__ img imap 2 None in
  let rp := Skimage.Build_region 2 [(0, 2); (1, 1); (1, 2); (2, 2)]%nat in
  wf_dataset 3 3 self ∧ properties self !! 1%nat = Some rp ∧
  ∃ patch img',
    _get_instance_patch self rp = Ok (patch, img') ∧
    Array2.at_ patch 1 0 = Array2.at_ img' 1 1.
Proof.
  intros img imap self rp.
  assert (wf_dataset 3 3 self) as Hwf.
  { apply wf_dataset_init; (split; [reflexivity | repeat constructor]). }
  assert (properties self !! 1%nat = Some rp) as Hrp by (vm_compute; reflexivity).
  split; [exact Hwf|]. split; [exact Hrp|].
  destruct (get_instance_patch_placement 3 3 self 1 rp Hwf Hrp)
    as (patch & img' & min_x & max_x & min_y & max_y & Hget & Hcw & Hat).
  exists patch, img'. split; [exact Hget|].
  assert (crop_window self rp = (0, 2, 1, 3)) as Hcw' by (vm_compute; reflexivity).
  rewrite Hcw' in Hcw. injection Hcw as <- <- <- <-.
  rewrite (Hat 1%nat 0%nat); [reflexivity | simpl; lia | simpl; lia].
Defined.

Lemma get_instance_patch_masked_content_witness :
  let img := [[(1, 1, 1); (2, 2, 2); (3, 3, 3)];
              [(4, 4, 4); (5, 5, 5); (6, 6, 6)];
              [(7, 7, 7); (8, 8, 8); (9, 9, 9)]] in
  let imap := [[1; 1; 2]; [1; 2; 2]; [0; 0; 2]] in
  let self := __init__ img imap 2 (Some 255) in
  let rp := Skimage.Build_region 1 [(0, 0); (0, 1); (1, 0)]%nat in
  wf_dataset 3 3 self ∧ properties self !! 0%nat = Some rp ∧
  _get_instance_patch self rp
  = Ok ([[(1, 1, 1); (2, 2, 2)]; [(4, 4, 4); (255, 255, 255)]],
        [[(1, 1, 1); (2, 2, 2); (3, 3, 3)];
         [(4, 4, 4); (255, 255, 255); (6, 6, 6)];
         [(7, 7, 7); (8, 8, 8); (9, 9, 9)]]) ∧
  ∃ patch img',
    _get_instance_patch self rp = Ok (patch, img') ∧
    (Array2.at_ patch 1 1 = Some (255, 255, 255) ∨
     ∃ i j, Array2.at_ imap i j = Some 1 ∧
            Array2.at_ patch 1 1 = Array2.at_ img i j).
Proof.
  intros img imap self rp.
  assert (wf_dataset 3 3 self) as Hwf.
  { apply wf_dataset_init; (split; [reflexivity | repeat constructor]). }
  assert (properties self !! 0%nat = Some rp) as Hrp by (vm_compute; reflexivity).
  split; [exact Hwf|]. split; [exact Hrp|].
  split; [vm_compute; reflexivity|].
  destruct (get_instance_patch_masked_content 3 3 self 0 rp 255 Hwf Hrp eq_refl)
    as (patch & img' & Hget & Hat).
  exists patch, img'. split; [exact Hget|].
  apply (Hat 1%nat 1%nat); simpl; lia.
Defined.

Lemma get_instance_patch_odd_size_border_witness :
  let img := [[(1, 1, 1); (2, 2, 2); (3, 3, 3)];
              [(4, 4, 4); (5, 5, 5); (6, 6, 6)];
              [(7, 7, 7); (8, 8, 8); (9, 9, 9)]] in
  let imap := [[1; 1; 2]; [1; 2; 2]; [0; 0; 2]] in
  let self := __init__ img imap 3 None in
  let rp := Skimage.Build_region 2 [(0, 2); (1, 1); (1, 2); (2, 2)]%nat in
  wf_dataset 3 3 self ∧ properties self !! 1%nat = Some rp ∧
  _get_instance_patch self rp
  = Ok ([[(2, 2, 2); (3, 3, 3); (255, 255, 255)];
         [(5, 5, 5); (6, 6, 6); (255, 255, 255)];
         [(255, 255, 255); (255, 255, 255); (255, 255, 255)]], img) ∧
  ∃ patch img',
    _get_instance_patch self rp = Ok (patch, img') ∧
    Array2.at_ patch 2 0 = Some (255, 255, 255) ∧
    Array2.at_ patch 1 2 = Some (255, 255, 255).
Proof.
  intros img imap self rp.
  assert (wf_dataset 3 3 self) as Hwf.
  { apply wf_dataset_init; (split; [reflexivity | repeat constructor]). }
  assert (properties self !! 1%nat = Some rp) as Hrp by (vm_compute; reflexivity).
  split; [exact Hwf|]. split; [exact Hrp|].
  split; [vm_compute; reflexivity|].
  destruct (get_instance_patch_odd_size_border 3 3 self 1 rp Hwf Hrp eq_refl)
    as (patch & img' & Hget & Hrow & Hcol).
  exists patch, img'. split; [exact Hget|]. split.
  - apply (Hrow eq_refl 0%nat). simpl. lia.
  - apply (Hcol eq_refl 1%nat). simpl. lia.
Defined.

Lemma get_instance_patch_interior_witness :
  let img := [[(1, 1, 1); (2, 2, 2); (3, 3, 3)];
              [(4, 4, 4); (5, 5, 5); (6, 6, 6)];
              [(7, 7, 7); (8, 8, 8); (9, 9, 9)]] in
  let imap := [[1; 1; 2]; [1; 2; 2]; [0; 0; 2]] in
  let self := __init__ img imap 2 None in
  let rp := Skimage.Build_region 2 [(0, 2); (1, 1); (1, 2); (2, 2)]%nat in
  wf_dataset 3 3 self ∧ properties self !! 1%nat = Some rp ∧
  _get_instance_patch self rp
  = Ok ([[(2, 2, 2); (3, 3, 3)]; [(5, 5, 5); (6, 6, 6)]], img).
Proof.
  intros img imap self rp.
  assert (wf_dataset 3 3 self) as Hwf.
  { apply wf_dataset_init; (split; [reflexivity | repeat constructor]). }
  assert (properties self !! 1%nat = Some rp) as Hrp by (vm_compute; reflexivity).
  split; [exact Hwf|]. split; [exact Hrp|].
  apply (get_instance_patch_interior 3 3 self 1 rp Hwf Hrp eq_refl eq_refl eq_refl);
    vm_compute; discriminate.
Defined.

Lemma get_instance_patch_idempotent_witness :
  let img := [[(1, 1, 1); (2, 2, 2); (3, 3, 3)];
              [(4, 4, 4); (5, 5, 5); (6, 6, 6)];
              [(7, 7, 7); (8, 8, 8); (9, 9, 9)]] in
  let imap := [[1; 1; 2]; [1; 2; 2]; [0; 0; 2]] in
  let self := __init__ img imap 2 (Some 255) in
  let rp := Skimage.Build_region 1 [(0, 0); (0, 1); (1, 0)]%nat in
  let patch := [[(1, 1, 1); (2, 2, 2)]; [(4, 4, 4); (255, 255, 255)]] in
  let img' := [[(1, 1, 1); (2, 2, 2); (3, 3, 3)];
               [(4, 4, 4); (255, 255, 255); (6, 6, 6)];
               [(7, 7, 7); (8, 8, 8); (9, 9, 9)]] in
  wf_dataset 3 3 self ∧ properties self !! 0%nat = Some rp ∧
  _get_instance_patch self rp = Ok (patch, img') ∧
  _get_instance_patch (with_image self img') rp = Ok (patch, img').
Proof.
  intros img imap self rp patch img'.
  assert (wf_dataset 3 3 self) as Hwf.
  { apply wf_dataset_init; (split; [reflexivity | repeat constructor]). }
  assert (properties self !! 0%nat = Some rp) as Hrp by (vm_compute; reflexivity).
  assert (_get_instance_patch self rp = Ok (patch, img')) as Hget
    by (vm_compute; reflexivity).
  split; [exact Hwf|]. split; [exact Hrp|]. split; [exact Hget|].
  exact (get_instance_patch_idempotent 3 3 self 0 rp patch img' Hwf Hrp Hget).
Defined.

End PatchMoreExamples.

(** ** The dataset under the loader *)

Section DeepMore.
Import InstanceMapPatchDataset DeepFeatureExtractor.
Context {T E : Type}.
Context (dataset_transform : list (list (Z * Z * Z)) → T) (model : T → list E).
Context (num_features : nat) (uninit : E).

(** X17. On a dataset over an image and an instance map of one shape,
    [__getitem__] returns for every index below [len(dataset)], with the
    index as the first component, and raises [IndexError] for the indices
    from [len(dataset)] on. *)
Theorem getitem_in_range (h w : nat) (self : t) (index : nat) :
  wf_dataset h w self →
  ((index < __len__ self)%nat →
   ∃ t self', __getitem__ dataset_transform self index = Ok ((index, t), self')) ∧
  ((__len__ self ≤ index)%nat →
   __getitem__ dataset_transform self index = Raise IndexError).
Proof.
  intros Hwf. split.
  - intros Hi.
    destruct (getitem_Ok dataset_transform h w self index Hwf Hi)
      as (t & self' & Hget & _).
    by exists t, self'.
  - intros Hi. unfold __getitem__, Numpy.getitem, __len__ in *.
    by rewrite lookup_ge_None_2.
Qed.

Lemma masked_out_with_image (h w : nat) (self : t) img rp x y :
  Array2.rect h w (image_ self) → Array2.rect h w img →
  masked_out (with_image self img) rp x y ↔ masked_out self rp x y.
Proof.
  intros Ha Hb. unfold masked_out.
  rewrite (crop_window_with_image h w) by done. done.
Qed.

(** What one masked [__getitem__] does to the dataset. *)
Lemma getitem_masked (h w : nat) (self : t) (index : nat) fill item self' :
  wf_dataset h w self → fill_value self = Some fill →
  __getitem__ dataset_transform self index = Ok (item, self') →
  ∃ rp img,
    properties self !! index = Some rp ∧ self' = with_image self img ∧
    Array2.rect h w img ∧
    ∀ x y old, Array2.at_ (image_ self) x y = Some old →
      (masked_out self rp x y → Array2.at_ img x y = Some (fill, fill, fill)) ∧
      (¬ masked_out self rp x y → Array2.at_ img x y = Some old).
Proof.
  intros Hwf Hfill. unfold __getitem__, Numpy.getitem.
  destruct (properties self !! index) as [rp|] eqn:Hrp; [|done].
  cbn [mbind result_bind].
  destruct (get_instance_patch_full h w self index rp Hwf Hrp)
    as (patch & img & min_x & max_x & min_y & max_y & Hget & Hcw
        & _ & _ & _ & Hrect & Himg & _).
  rewrite Hget. cbn [mbind result_bind]. intros [= <- <-].
  exists rp, img. split; [done|]. split; [done|]. split; [done|].
  intros x y old Hold. rewrite Himg, Hold, Hfill. cbn [fmap option_fmap option_map].
  split.
  - intros (a & b & c & d & Hcw' & Hx & Hy & Hlab).
    rewrite Hcw in Hcw'. injection Hcw' as <- <- <- <-.
    by rewrite decide_True.
  - intros Hno. rewrite decide_False; [done|].
    intros (Hx & Hy & Hlab). apply Hno. by exists min_x, max_x, min_y, max_y.
Qed.

Lemma load_batch_masked (h w : nat) (indices : list nat) (self : t) fill items self' :
  wf_dataset h w self → fill_value self = Some fill →
  load_batch dataset_transform self indices = Ok (items, self') →
  ∀ x y old, Array2.at_ (image_ self) x y = Some old →
    (Array2.at_ (image_ self') x y = Some (fill, fill, fill) ∨
     Array2.at_ (image_ self') x y = Some old) ∧
    (∀ k rp, k ∈ indices → properties self !! k = Some rp →
       masked_out self rp x y →
       Array2.at_ (image_ self') x y = Some (fill, fill, fill)) ∧
    ((∀ k rp, k ∈ indices → properties self !! k = Some rp →
        ¬ masked_out self rp x y) →
     Array2.at_ (image_ self') x y = Some old).
Proof.
  revert self items. induction indices as [|index indices IH];
    intros self items Hwf Hfill.
  - intros [= <- <-] x y old Hold. split; [by right|]. split; [|done].
    intros k rp Hk. inversion Hk.
  - rewrite load_batch_cons.
    intros ([item self1] & Hget & Hrest)%bind_Ok.
    apply bind_Ok in Hrest as ([items' self2] & Hload & [= <- <-]).
    destruct (getitem_masked h w self index fill item self1 Hwf Hfill Hget)
      as (rp & img & Hrp & -> & Hrect & Himg).
    assert (wf_dataset h w (with_image self img)) as Hwf1 by (by apply wf_with_image).
    intros x y old Hold.
    destruct (Himg x y old Hold) as [Hin Hout].
    assert (∀ rp', masked_out (with_image self img) rp' x y ↔ masked_out self rp' x y)
      as Hsame.
    { intros rp'. apply (masked_out_with_image h w); [apply Hwf | done]. }
    assert (Array2.at_ img x y = Some (fill, fill, fill) ∨ Array2.at_ img x y = Some old)
      as Hcases.
    { destruct (Array2.at_ (instance_map self) x y) as [l|] eqn:Hl.
      - destruct (crop_window self rp) as [[[min_x max_x] min_y] max_y] eqn:Hcw.
        destruct (decide ((Z.to_nat min_x ≤ x < Z.to_nat max_x)%nat ∧
                          (Z.to_nat min_y ≤ y < Z.to_nat max_y)%nat ∧
                          l ≠ Skimage.label rp)) as [(Hx & Hy & Hne)|Hno].
        + left. apply Hin. exists min_x, max_x, min_y, max_y.
          rewrite Hl. repeat split; try done; try lia. congruence.
        + right. apply Hout. intros (a & b & c & d & Hcw' & Hx & Hy & Hne).
          rewrite Hcw in Hcw'. injection Hcw' as <- <- <- <-.
          apply Hno. repeat split; try lia. rewrite Hl in Hne. congruence.
      - destruct (crop_window self rp) as [[[min_x max_x] min_y] max_y] eqn:Hcw.
        destruct (decide ((Z.to_nat min_x ≤ x < Z.to_nat max_x)%nat ∧
                          (Z.to_nat min_y ≤ y < Z.to_nat max_y)%nat)) as [[Hx Hy]|Hno].
        + left. apply Hin. exists min_x, max_x, min_y, max_y.
          rewrite Hl. repeat split; try done; lia.
        + right. apply Hout. intros (a & b & c & d & Hcw' & Hx & Hy & _).
          rewrite Hcw in Hcw'. injection Hcw' as <- <- <- <-.
          apply Hno. split; lia. }
    destruct Hcases as [Hc|Hc].
    + destruct (IH (with_image self img) items' Hwf1 Hfill Hload x y (fill, fill, fill) Hc)
        as (Hor & Hany & Hnone).
      assert (Array2.at_ (image_ self2) x y = Some (fill, fill, fill)) as Hfin
        by (by destruct Hor).
      split; [by left|]. split; [done|].
      intros Hno. rewrite Hfin.
      destruct (decide (Some (fill, fill, fill) = Some old)) as [?|Hne]; [done|].
      exfalso. assert (¬ masked_out self rp x y) as Hnrp.
      { apply (Hno index rp); [left | done]. }
      rewrite (Hout Hnrp) in Hc. done.
    + destruct (IH (with_image self img) items' Hwf1 Hfill Hload x y old Hc)
        as (Hor & Hany & Hnone).
      split; [done|]. split.
      * intros k rp' [->|Hk]%elem_of_cons Hrp' Hm.
        -- rewrite Hrp in Hrp'. injection Hrp' as <-.
           destruct Hor as [?|Hold']; [done|].
           rewrite Hc in Hin. rewrite Hold'. by apply Hin.
        -- apply (Hany k rp'); [done|done|]. by apply Hsame.
      * intros Hno. apply Hnone. intros k rp' Hk Hrp' Hm.
        apply (Hno k rp'); [by right | done | by apply Hsame].
Qed.

(** X18. In mask mode the loader leaves its marks in the image of the
    dataset, which is the caller's array: after the items of the indices
    [indices] were fetched, a pixel that lies in the crop window of one of
    their regions without carrying its label holds the fill value, and
    every other pixel is as before. *)
Theorem load_batch_writes_image (h w : nat) (indices : list nat) (self : t)
    fill items self' :
  wf_dataset h w self → fill_value self = Some fill →
  load_batch dataset_transform self indices = Ok (items, self') →
  ∀ x y old, Array2.at_ (image_ self) x y = Some old →
    (∀ k rp, k ∈ indices → properties self !! k = Some rp →
       masked_out self rp x y →
       Array2.at_ (image_ self') x y = Some (fill, fill, fill)) ∧
    ((∀ k rp, k ∈ indices → properties self !! k = Some rp →
        ¬ masked_out self rp x y) →
     Array2.at_ (image_ self') x y = Some old).
Proof.
  intros Hwf Hfill Hload x y old Hold.
  destruct (load_batch_masked h w indices self fill items self' Hwf Hfill Hload
              x y old Hold) as (_ & ? & ?).
  by split.
Qed.


Lemma regionprops_nil (imap : list (list Z)) :
  (∀ l, l ∈ Numpy.ravel imap → l ≤ 0) → Skimage.regionprops imap = [].
Proof.
  intros Hall. unfold Skimage.regionprops.
  destruct (filter (λ l, 0 < l) (Numpy.unique (Numpy.ravel imap))) as [|l ls] eqn:Hf;
    [done|].
  assert (l ∈ filter (λ l, 0 < l) (Numpy.unique (Numpy.ravel imap))) as Hl
    by (rewrite Hf; left).
  apply list_elem_of_filter in Hl as [Hpos Hin]. rewrite elem_of_unique in Hin.
  specialize (Hall _ Hin). lia.
Qed.

(** X19. For an instance map without a positive label the deep extractor
    returns a matrix without rows: the dataset is empty and the loop is
    not entered. *)
Theorem extract_features_no_instance (size : nat) (mask : bool)
    (batch_size : nat) input_image instance_map :
  (0 < batch_size)%nat →
  (∀ l, l ∈ Numpy.ravel instance_map → l ≤ 0) →
  _extract_features dataset_transform model num_features uninit
    size mask batch_size input_image instance_map = Ok [].
Proof.
  intros Hb Hall. unfold _extract_features. rewrite decide_False by lia.
  rewrite (regionprops_nil _ Hall). cbn [length].
  unfold sequential_batches.
  replace ((0 + batch_size - 1) `div` batch_size)%nat with 0%nat.
  2:{ symmetry. apply Nat.div_small. lia. }
  unfold _extract_features_on, __len__, __init__. cbn [properties].
  by rewrite (regionprops_nil _ Hall).
Qed.

End DeepMore.

Section DeepMoreExamples.
Import InstanceMapPatchDataset DeepFeatureExtractor.

Lemma getitem_in_range_witness :
  let img := [[(1, 1, 1); (2, 2, 2); (3, 3, 3)];
              [(4, 4, 4); (5, 5, 5); (6, 6, 6)];
              [(7, 7, 7); (8, 8, 8); (9, 9, 9)]] in
  let imap := [[1; 1; 2]; [1; 2; 2]; [0; 0; 2]] in
  let self := __init__ img imap 2 None in
  wf_dataset 3 3 self ∧ __len__ self = 2%nat ∧
  (∃ t self', __getitem__ id self 1 = Ok ((1%nat, t), self')) ∧
  __getitem__ (T := list (list (Z * Z * Z))) id self 2 = Raise IndexError.
Proof.
  intros img imap self.
  assert (wf_dataset 3 3 self) as Hwf.
  { apply wf_dataset_init; (split; [reflexivity | repeat constructor]). }
  split; [exact Hwf|]. split; [reflexivity|].
  split.
  - apply (getitem_in_range id 3 3 self 1 Hwf). vm_compute. lia.
  - apply (getitem_in_range id 3 3 self 2 Hwf). vm_compute. lia.
Defined.

Lemma load_batch_writes_image_witness :
  let img := [[(1, 1, 1); (2, 2, 2); (3, 3, 3)];
              [(4, 4, 4); (5, 5, 5); (6, 6, 6)];
              [(7, 7, 7); (8, 8, 8); (9, 9, 9)]] in
  let imap := [[1; 1; 2]; [1; 2; 2]; [0; 0; 2]] in
  let self := __init__ img imap 2 (Some 255) in
  wf_dataset 3 3 self ∧
  ∃ items self',
    load_batch id self [0; 1]%nat = Ok (items, self') ∧
    image_ self' = [[(1, 1, 1); (255, 255, 255); (3, 3, 3)];
                    [(4, 4, 4); (255, 255, 255); (6, 6, 6)];
                    [(7, 7, 7); (8, 8, 8); (9, 9, 9)]] ∧
    Array2.at_ (image_ self') 1 1 = Some (255, 255, 255).
Proof.
  intros img imap self.
  assert (wf_dataset 3 3 self) as Hwf.
  { apply wf_dataset_init; (split; [reflexivity | repeat constructor]). }
  split; [exact Hwf|].
  destruct (load_batch id self [0; 1]%nat) as [[items self']|e] eqn:Hload;
    [|vm_compute in Hload; discriminate].
  exists items, self'. split; [reflexivity|]. split.
  - vm_compute in Hload. injection Hload as _ <-. reflexivity.
  - destruct (load_batch_writes_image id 3 3 [0; 1]%nat self 255 items self'
                Hwf eq_refl Hload 1%nat 1%nat (5, 5, 5) eq_refl) as [Hany _].
    apply (Hany 0%nat (Skimage.Build_region 1 [(0, 0); (0, 1); (1, 0)]%nat)).
    + left.
    + vm_compute. reflexivity.
    + exists 0, 2, 0, 2. split; [vm_compute; reflexivity|].
      split; [simpl; lia|]. split; [simpl; lia|]. vm_compute. discriminate.
Defined.

Lemma extract_features_no_instance_witness :
  let img := [[(1, 1, 1); (2, 2, 2)]] in
  let imap := [[0; 0]] in
  _extract_features id sum_model 2 0 224 false 32 img imap = Ok [].
Proof.
  intros img imap. apply extract_features_no_instance; [lia|].
  intros l. cbn. rewrite !elem_of_cons, elem_of_nil. lia.
Defined.

End DeepMoreExamples.

(** ** The name of the architecture *)

Section StrFacts.
Import Str.

Lemma split_cons_inv sep s : ∃ w ws, split sep s = w :: ws.
Proof.
  destruct s as [|c s]; simpl; [by eexists _, _|].
  case_decide; [by eexists _, _|]. destruct (split sep s); by eexists _, _.
Qed.

Lemma length_split sep s :
  length (split sep s) = S (length (filter (λ c, c = sep) s)).
Proof.
  induction s as [|c s IH]; [done|]. rewrite filter_cons. cbn [split].
  case_decide; cbn [length]; [by rewrite IH|].
  destruct (split sep s) as [|w ws]; cbn [length] in *; [lia | done].
Qed.

Lemma split_no_sep sep s w : w ∈ split sep s → sep ∉ w.
Proof.
  revert w. induction s as [|c s IH]; intros w; simpl.
  - intros ->%list_elem_of_singleton. apply not_elem_of_nil.
  - case_decide as Hc.
    + intros [->|Hw]%elem_of_cons; [apply not_elem_of_nil | by apply IH].
    + destruct (split sep s) as [|w' ws].
      * intros ->%list_elem_of_singleton [?|H]%elem_of_cons; [done | inversion H].
      * intros [->|Hw]%elem_of_cons.
        -- intros [?|H]%elem_of_cons; [done|]. revert H. apply IH. left.
        -- apply IH. by right.
Qed.

Lemma replace_no_old old new s : new ≠ old → old ∉ replace old new s.
Proof.
  intros Hne. unfold replace. intros (c & Hc & _)%list_elem_of_fmap.
  case_decide; congruence.
Qed.

End StrFacts.

Section ArchitectureName.
Import Str DeepFeatureExtractorName.

(** X20. For an MLflow URL and for a path to a [.pth] file, the name that
    [_preprocess_architecture] returns holds no slash. (A name of the
    third kind is returned as it is.) *)
Theorem preprocess_architecture_no_slash (architecture name : str) :
  _preprocess_architecture architecture = Ok name →
  startswith architecture (lit "s3://mlflow") = true ∨
  endswith architecture (lit ".pth") = true →
  "/"%char ∉ name.
Proof.
  unfold _preprocess_architecture. intros Hres Hkind.
  destruct (startswith architecture (lit "s3://mlflow")) eqn:Hs.
  - pose proof (split_no_sep "/"%char (drop 5 architecture)) as Hno.
    destruct (split "/"%char (drop 5 architecture))
      as [|p0 [|p1 [|p2 [|p3 [|p4 [|? ?]]]]]]; try done.
    injection Hres as <-.
    repeat (rewrite not_elem_of_cons || rewrite not_elem_of_app).
    repeat split; try done;
      try (apply Hno; rewrite !elem_of_cons; tauto).
    apply not_elem_of_nil.
  - destruct Hkind as [?|He]; [done|]. rewrite He in Hres. injection Hres as <-.
    repeat (rewrite not_elem_of_cons || rewrite not_elem_of_app).
    repeat split; try done; try (by apply replace_no_old).
    apply not_elem_of_nil.
Qed.

(** X21. [_preprocess_architecture] raises for an MLflow URL that does not
    have five pieces, that is four slashes after [s3://]: the unpacking
    raises [ValueError]. It raises nothing else, and on no other input. *)
Theorem preprocess_architecture_raises_iff (architecture : str) (e : exn) :
  _preprocess_architecture architecture = Raise e ↔
  e = ValueError ∧
  startswith architecture (lit "s3://mlflow") = true ∧
  length (filter (λ c, c = "/"%char) (drop 5 architecture)) ≠ 4%nat.
Proof.
  unfold _preprocess_architecture.
  destruct (startswith architecture (lit "s3://mlflow")) eqn:Hs.
  - pose proof (length_split "/"%char (drop 5 architecture)) as Hlen.
    destruct (split "/"%char (drop 5 architecture))
      as [|p0 [|p1 [|p2 [|p3 [|p4 [|? ?]]]]]]; simpl in Hlen;
      (split; [intros [= <-]; repeat split; lia
              | intros (-> & _ & Hn); try done; lia]).
  - destruct (endswith architecture (lit ".pth"));
      (split; [done | intros (_ & ? & _); done]).
Qed.

Example preprocess_architecture_examples :
  _preprocess_architecture (lit "s3://mlflow/12/3f9a/artifacts/best_val")
    = Ok (lit "MLflow(12,3f9a,best_val)") ∧
  _preprocess_architecture (lit "s3://mlflow/12/3f9a") = Raise ValueError ∧
  _preprocess_architecture (lit "models/run1/net.pth")
    = Ok (lit "Local(models_run1_net.pth)") ∧
  _preprocess_architecture (lit "resnet34") = Ok (lit "resnet34") ∧
  _preprocess_architecture (lit "my/resnet") = Ok (lit "my/resnet").
Proof. vm_compute. repeat split; reflexivity. Qed.

Lemma preprocess_architecture_no_slash_witness :
  let architecture := lit "s3://mlflow/12/3f9a/artifacts/best_val" in
  let name := lit "MLflow(12,3f9a,best_val)" in
  _preprocess_architecture architecture = Ok name ∧ "/"%char ∉ name.
Proof.
  intros architecture name.
  assert (_preprocess_architecture architecture = Ok name) as H
    by (vm_compute; reflexivity).
  split; [exact H|].
  apply (preprocess_architecture_no_slash architecture name H).
  left. vm_compute. reflexivity.
Defined.

End ArchitectureName.

(** ** Augmentations *)

(** The entry [i * m + j] of a list made of blocks of [m] entries. *)
Lemma lookup_bind_blocks {A B} (g : A → list B) (m : nat) (l : list A) i j x :
  (∀ a, length (g a) = m) → l !! i = Some x → (j < m)%nat →
  (l ≫= g) !! (i * m + j)%nat = g x !! j.
Proof.
  intros Hg. revert i. induction l as [|a l IH]; intros i Hi Hj; [done|].
  rewrite bind_cons. destruct i as [|i]; simpl in Hi.
  - injection Hi as ->. simpl. apply lookup_app_l. by rewrite Hg.
  - rewrite lookup_app_r by (rewrite Hg; lia). rewrite Hg.
    replace (S i * m + j - m)%nat with (i * m + j)%nat by lia. by apply IH.
Qed.

Lemma length_bind_blocks {A B} (g : A → list B) (m : nat) (l : list A) :
  (∀ a, length (g a) = m) → length (l ≫= g) = (length l * m)%nat.
Proof.
  intros Hg. induction l as [|a l IH]; [done|].
  rewrite bind_cons, length_app, IH, Hg. simpl. lia.
Qed.

Section AugmentedInit.
Import AugmentedDeepFeatureExtractor.

Lemma init_blocks rotations flips :
  __init__ rotations flips
  = default [0] rotations ≫= λ angle,
      composition angle <$> default ["n"%string] flips.
Proof.
  unfold __init__. cbv zeta. apply list_bind_ext; [|done]. intros angle.
  induction (default ["n"%string] flips) as [|flip fs IH]; [done|].
  rewrite bind_cons, fmap_cons, IH. simpl. f_equal.
  unfold composition. repeat case_decide; subst; done.
Qed.

(** X22. [__init__] builds one composition per pair of a rotation and a
    flip, the rotations in the outer loop ([None] stands for the one
    rotation 0, for the one flip ["n"]): the composition of index
    [i * len(flips) + j] rotates by the angle [i] and then flips as the
    flip [j] says, and a flip that is neither ["h"] nor ["v"] is no
    flip. *)
Theorem augmented_transforms_layout rotations flips :
  let rs := default [0] rotations in
  let fs := default ["n"%string] flips in
  length (__init__ rotations flips) = (length rs * length fs)%nat ∧
  ∀ i j angle flip, rs !! i = Some angle → fs !! j = Some flip →
    __init__ rotations flips !! (i * length fs + j)%nat
    = Some (composition angle flip).
Proof.
  intros rs fs. rewrite init_blocks. fold rs fs. split.
  - apply length_bind_blocks. intros angle. by rewrite length_fmap.
  - intros i j angle flip Hi Hj.
    rewrite (lookup_bind_blocks _ (length fs) rs i j angle).
    + by rewrite list_lookup_fmap, Hj.
    + intros a. by rewrite length_fmap.
    + done.
    + by eapply lookup_lt_Some.
Qed.

Lemma augmented_transforms_layout_witness :
  __init__ (Some [0; 90]) (Some ["n"; "h"; "v"]%string)
  = [[rotate 0]; [rotate 0; hflip]; [rotate 0; vflip];
     [rotate 90]; [rotate 90; hflip]; [rotate 90; vflip]] ∧
  __init__ None None = [[rotate 0]] ∧
  __init__ (Some [0; 90]) (Some ["n"; "h"; "v"]%string) !! 4%nat
  = Some [rotate 90; hflip].
Proof.
  split; [reflexivity|]. split; [reflexivity|].
  destruct (augmented_transforms_layout (Some [0; 90]) (Some ["n"; "h"; "v"]%string))
    as [_ Hat].
  exact (Hat 1%nat 1%nat 90 "h"%string eq_refl eq_refl).
Defined.

End AugmentedInit.

(** ** Annotation post-processing *)

Section AnnotationFacts.
Import Numpy AnnotationPostProcessor.

(** X23. On an annotation and a tissue mask of one shape, [process]
    returns an array of that shape which holds the annotation where the
    mask is not zero and the background index where it is zero. *)
Theorem annotation_process_pixels (h w : nat) (background_index : Z)
    (annotation tissue_mask : list (list Z)) :
  Array2.rect h w annotation → Array2.rect h w tissue_mask →
  ∃ out,
    process background_index annotation tissue_mask = Ok out ∧
    Array2.rect h w out ∧
    ∀ x y a m,
      Array2.at_ annotation x y = Some a → Array2.at_ tissue_mask x y = Some m →
      Array2.at_ out x y = Some (if decide (m = 0) then background_index else a).
Proof.
  intros Ha Hm. unfold process.
  set (outside := (λ row : list Z, (λ m, negb (bool_decide (m ≠ 0))) <$> row)
                    <$> tissue_mask).
  assert (Array2.rect h w outside) as Ho by (by apply (rect_fmap2 _ h w)).
  rewrite (same_shape_rect h w outside annotation) by done.
  eexists. split; [done|]. split; [by apply rect_zip_with2|].
  intros x y a m Hxa Hxm. rewrite at_zip_with2, Hxa. simpl.
  unfold outside. rewrite at_fmap2, Hxm. simpl.
  destruct (decide (m = 0)) as [->|Hne].
  - by rewrite bool_decide_eq_false_2 by (intros ?; done).
  - by rewrite bool_decide_eq_true_2.
Qed.

(** X24. [process] is idempotent: applied to its own result with the same
    mask it returns that result again. *)
Theorem annotation_process_idempotent (background_index : Z)
    (annotation tissue_mask out : list (list Z)) :
  process background_index annotation tissue_mask = Ok out →
  process background_index out tissue_mask = Ok out.
Proof.
  unfold process.
  set (outside := (λ row : list Z, (λ m, negb (bool_decide (m ≠ 0))) <$> row)
                    <$> tissue_mask).
  destruct (same_shape outside annotation) eqn:Hsh; [|done]. intros [= <-].
  apply bool_decide_eq_true in Hsh.
  assert (∀ (a : list (list Z)) (o : list (list bool)),
            length <$> o = length <$> a →
            length <$> o
            = length <$> zip_with (zip_with (λ (a : Z) (o : bool),
                                      if o then background_index else a)) a o)
    as Hshape.
  { intros a o. revert a. induction o as [|ro o IH]; intros [|ra a]; try done.
    rewrite !fmap_cons. intros [= Hr Hrest]. cbn [zip_with]. rewrite fmap_cons.
    f_equal; [rewrite length_zip_with; lia | by apply IH]. }
  unfold same_shape. rewrite bool_decide_eq_true_2 by (by apply Hshape). f_equal.
  clear Hshape. revert Hsh. generalize outside. clear outside.
  induction annotation as [|ra a IH]; intros [|ro o]; try done.
  rewrite !fmap_cons. intros [= Hr Hrest]. cbn [zip_with]. f_equal; [|by apply IH].
  clear -Hr. revert ro Hr. induction ra as [|v ra IH]; intros [|b ro]; try done.
  simpl. intros [= Hr]. f_equal; [by destruct b | by apply IH].
Qed.

(** A tissue mask that does not have the shape of the annotation
    makes [process] raise [IndexError]. *)
Lemma annotation_process_shape_mismatch (background_index : Z)
    (annotation tissue_mask : list (list Z)) :
  same_shape tissue_mask annotation = false →
  process background_index annotation tissue_mask = Raise IndexError.
Proof.
  intros Hsh. unfold process, same_shape in *.
  rewrite bool_decide_eq_false_2; [done|].
  apply bool_decide_eq_false in Hsh. intros Heq. apply Hsh. rewrite <- Heq.
  rewrite <- list_fmap_compose. apply list_fmap_ext. intros _ row _. simpl.
  by rewrite length_fmap.
Qed.

End AnnotationFacts.

Section AnnotationExamples.
Import Numpy AnnotationPostProcessor.

Lemma annotation_process_pixels_witness :
  let annotation := [[1; 2; 3]; [4; 5; 6]] in
  let tissue_mask := [[1; 0; 1]; [0; 0; 7]] in
  Array2.rect 2 3 annotation ∧ Array2.rect 2 3 tissue_mask ∧
  process 9 annotation tissue_mask = Ok [[1; 9; 3]; [9; 9; 6]] ∧
  ∃ out, process 9 annotation tissue_mask = Ok out ∧
         Array2.at_ out 0 1 = Some 9 ∧ Array2.at_ out 1 2 = Some 6.
Proof.
  intros annotation tissue_mask.
  assert (Array2.rect 2 3 annotation) as Ha
    by (split; [reflexivity | repeat constructor]).
  assert (Array2.rect 2 3 tissue_mask) as Hm
    by (split; [reflexivity | repeat constructor]).
  split; [exact Ha|]. split; [exact Hm|]. split; [reflexivity|].
  destruct (annotation_process_pixels 2 3 9 annotation tissue_mask Ha Hm)
    as (out & Hres & _ & Hat).
  exists out. split; [exact Hres|]. split.
  - exact (Hat 0%nat 1%nat 2 0 eq_refl eq_refl).
  - exact (Hat 1%nat 2%nat 6 7 eq_refl eq_refl).
Defined.

Lemma annotation_process_idempotent_witness :
  let annotation := [[1; 2; 3]; [4; 5; 6]] in
  let tissue_mask := [[1; 0; 1]; [0; 0; 7]] in
  let out := [[1; 9; 3]; [9; 9; 6]] in
  process 9 annotation tissue_mask = Ok out ∧
  process 9 out tissue_mask = Ok out.
Proof.
  intros annotation tissue_mask out.
  assert (process 9 annotation tissue_mask = Ok out) as H by reflexivity.
  split; [exact H|].
  exact (annotation_process_idempotent 9 annotation tissue_mask out H).
Defined.

End AnnotationExamples.

(** ** Handcrafted features: edge cases and the histogram *)

Section HandcraftedMore.
Import Numpy HandcraftedFeatureExtractor.
Context {F : Type} `{Lib F}.

(** X25. For an instance map without a positive label the handcrafted
    extractor raises [ValueError]: there is no row for [np.vstack]. *)
Theorem handcrafted_no_instance img imap :
  (∀ l, l ∈ ravel imap → l ≤ 0) →
  _extract_features (F := F) img imap = Raise ValueError.
Proof.
  intros Hall. unfold _extract_features. by rewrite (regionprops_nil _ Hall).
Qed.

End HandcraftedMore.

Section HistogramFacts.
Import Numpy HandcraftedFeatureExtractor.

(** A [uint8] code falls into exactly one of the 8 bins. *)
Lemma histogram_total (codes : list Z) :
  Forall (λ c, 0 ≤ c ≤ 255) codes → sum_list (histogram codes) = length codes.
Proof.
  unfold histogram. induction 1 as [|c codes Hc _ IH]; [done|].
  change (seqZ 0 8) with [0; 1; 2; 3; 4; 5; 6; 7] in *.
  cbn [fmap list_fmap sum_list sum_list_with] in *.
  rewrite !filter_cons.
  assert (0 ≤ c < 32 ∨ 32 ≤ c < 64 ∨ 64 ≤ c < 96 ∨ 96 ≤ c < 128 ∨
          128 ≤ c < 160 ∨ 160 ≤ c < 192 ∨ 192 ≤ c < 224 ∨ 224 ≤ c < 256)
    as Hbin by lia.
  destruct Hbin as [?|[?|[?|[?|[?|[?|[?|?]]]]]]];
    repeat (first [rewrite decide_True by lia | rewrite decide_False by lia]);
    cbn [length]; unfold id in *; lia.
Qed.

Lemma length_region_codes (h w : nat) img imap region channel :
  Array2.rect h w img → Array2.rect h w imap →
  region ∈ Skimage.regionprops imap →
  length (region_codes img region channel) = length (Skimage.coords region).
Proof.
  intros Himg Hmap (_ & _ & Hc)%elem_of_regionprops. unfold region_codes.
  assert (∀ p, p ∈ Skimage.coords region →
               is_Some (channel <$> Array2.at_ img p.1 p.2)) as Hsome.
  { intros [r c] Hp. rewrite Hc in Hp. apply elem_of_coords_of in Hp. cbn [fst snd].
    apply fmap_is_Some. apply (at_is_Some h w); [done| |].
    - destruct (decide (r < h)%nat); [done|].
      rewrite (at_outside h w) in Hp; [done|done|lia].
    - destruct (decide (c < w)%nat); [done|].
      rewrite (at_outside h w) in Hp; [done|done|lia]. }
  clear Hc. induction (Skimage.coords region) as [|p ps IH]; [done|]. csimpl.
  assert (is_Some (channel <$> Array2.at_ img p.1 p.2)) as [v Hv]
    by (apply Hsome; left).
  rewrite Hv. simpl. rewrite IH; [done|].
  intros q Hq. apply Hsome. by right.
Qed.

Lemma region_codes_range (img : list (list (Z * Z * Z))) region channel (lo hi : Z) :
  (∀ px, px ∈ ravel img → lo ≤ channel px ≤ hi) →
  Forall (λ c, lo ≤ c ≤ hi) (region_codes img region channel).
Proof.
  intros Hrange. unfold region_codes. apply Forall_forall. intros c Hc.
  apply list_elem_of_omap in Hc as ([r k] & _ & Hat). cbn [fst snd] in Hat.
  destruct (Array2.at_ img r k) as [px|] eqn:Hpx; [|done].
  injection Hat as <-. apply Hrange.
  unfold ravel. apply elem_of_concat. unfold Array2.at_ in Hpx.
  apply bind_Some in Hpx as (row & Hrow & Hk).
  exists row. split; eapply list_elem_of_lookup_2; eauto.
Qed.

(** X26. For an image of [uint8] values, the 8 counts of the histogram of
    a channel over a region add up to the area of the region, by which
    they are divided: every pixel of the region is counted in exactly one
    bin. *)
Theorem histogram_counts_area (h w : nat) img imap region channel :
  Array2.rect h w img → Array2.rect h w imap →
  region ∈ Skimage.regionprops imap →
  (∀ px, px ∈ ravel img → 0 ≤ channel px ≤ 255) →
  length (histogram (region_codes img region channel)) = 8%nat ∧
  sum_list (histogram (region_codes img region channel))
  = length (Skimage.coords region).
Proof.
  intros Himg Hmap Hregion Hrange. split.
  - unfold histogram. by rewrite length_fmap, length_seqZ.
  - rewrite histogram_total by (by apply region_codes_range).
    by apply (length_region_codes h w img imap).
Qed.

End HistogramFacts.

Section HandcraftedMoreExamples.
Import Numpy HandcraftedFeatureExtractor.

Lemma handcrafted_no_instance_witness :
  let img := [[(10, 20, 30); (200, 100, 50)]] in
  let imap := [[0; 0]] in
  _extract_features (F := call) img imap = Raise ValueError.
Proof.
  intros img imap. apply handcrafted_no_instance.
  intros l. cbn. rewrite !elem_of_cons, elem_of_nil. lia.
Defined.

Lemma histogram_counts_area_witness :
  let img := [[(10, 20, 30); (200, 100, 50)]; [(255, 0, 31); (32, 64, 224)]] in
  let imap := [[1; 1]; [0; 1]] in
  let region := Skimage.Build_region 1 [(0, 0); (0, 1); (1, 1)]%nat in
  histogram (region_codes img region (λ px, px.1.1)) = [1; 1; 0; 0; 0; 0; 1; 0]%nat ∧
  sum_list (histogram (region_codes img region (λ px, px.1.1))) = 3%nat.
Proof.
  intros img imap region. split; [reflexivity|].
  apply (histogram_counts_area 2 2 img imap region (λ px, px.1.1)).
  - split; [reflexivity | repeat constructor].
  - split; [reflexivity | repeat constructor].
  - apply elem_of_regionprops. split; [simpl; lia|]. split; [|reflexivity].
    cbn. left.
  - intros px. cbn. rewrite !elem_of_cons, elem_of_nil.
    intros [->|[->|[->|[->|[]]]]]; simpl; lia.
Defined.

End HandcraftedMoreExamples.

(** ** Tissue mask: the largest region *)

Section TissueMore.
Import Numpy TissueMask.
Context `{Lib}.

Lemma count_filter_pos (v : Z) (a : list Z) :
  0 < v → count v (filter (λ l, 0 < l) a) = count v a.
Proof.
  intros Hv. unfold count. induction a as [|x a IH]; [done|].
  rewrite !filter_cons. destruct (decide (0 < x)).
  - rewrite filter_cons. destruct (decide (x = v)); simpl; by rewrite IH.
  - destruct (decide (x = v)); [lia | exact IH].
Qed.

Lemma fmap2_ext_elem {A B} (f g : A → B) (a : list (list A)) :
  (∀ x, x ∈ ravel a → f x = g x) →
  (λ row : list A, f <$> row) <$> a = (λ row : list A, g <$> row) <$> a.
Proof.
  intros Hfg. apply list_fmap_ext. intros i row Hrow.
  apply list_fmap_ext. intros j x Hx. apply Hfg.
  unfold ravel. apply elem_of_concat. exists row.
  split; eapply list_elem_of_lookup_2; eauto.
Qed.

(** What [get_tissue_mask] returns once the thresholding has returned and
    a region was found. *)
Lemma get_tissue_mask_cases image steps sigma min_size thumbnail :
  thresholding steps sigma (gray_thumbnail image) = Ok thumbnail →
  (∃ l, l ∈ ravel (regions_of thumbnail) ∧ 0 < l) →
  ∃ largest,
    0 < largest ∧ largest ∈ ravel (regions_of thumbnail) ∧
    (∀ l, 0 < l →
          (count l (ravel (regions_of thumbnail))
           ≤ count largest (ravel (regions_of thumbnail)))%nat) ∧
    (∀ l, 0 < l → l ∈ ravel (regions_of thumbnail) →
          count l (ravel (regions_of thumbnail))
          = count largest (ravel (regions_of thumbnail)) → largest ≤ l) ∧
    get_tissue_mask image steps sigma min_size
    = Ok ((λ row : list Z,
             (λ l, if decide (0 < l ∧
                              Z.of_nat (count l (ravel (regions_of thumbnail)))
                              < min_size)
                   then 0 else l) <$> row) <$> regions_of thumbnail,
          (λ row : list Z,
             (λ l, bool_decide
                     (l = largest ∧
                      min_size
                      ≤ Z.of_nat (count largest (ravel (regions_of thumbnail)))))
               <$> row) <$> regions_of thumbnail).
Proof.
  intros Hth (l0 & Hl0 & Hpos0). unfold get_tissue_mask.
  fold (gray_thumbnail image). rewrite Hth. cbn [mbind result_bind].
  fold (regions_of thumbnail).
  set (R := ravel (regions_of thumbnail)) in *.
  unfold unique_counts.
  set (P := filter (λ l, 0 < l) R).
  assert (∀ l, l ∈ unique P ↔ l ∈ R ∧ 0 < l) as HP.
  { intros l. rewrite elem_of_unique. unfold P. rewrite list_elem_of_filter. tauto. }
  assert ((λ v, count v P) <$> unique P ≠ []) as Hne.
  { intros Hnil. apply fmap_nil_inv in Hnil.
    assert (l0 ∈ unique P) as Hin by (by apply HP). rewrite Hnil in Hin.
    inversion Hin. }
  destruct (argmax_Ok _ Hne) as [k Hk]. rewrite Hk. cbn [mbind result_bind].
  destruct (argmax_spec _ _ Hk) as (m & Hm & Hmax).
  apply list_lookup_fmap_Some in Hm as (largest & -> & Hlargest).
  unfold getitem. rewrite Hlargest. cbn [mbind result_bind].
  assert (largest ∈ R ∧ 0 < largest) as [HinR Hlpos].
  { apply HP. by eapply list_elem_of_lookup_2. }
  exists largest. split; [done|]. split; [done|].
  assert (∀ l, 0 < l → l ∈ R →
               ∃ j, unique P !! j = Some l ∧
                    ((λ v, count v P) <$> unique P) !! j = Some (count l P))
    as Hidx.
  { intros l Hl Hin. assert (l ∈ unique P) as Hu by (by apply HP).
    apply list_elem_of_lookup_1 in Hu as [j Hj]. exists j. split; [done|].
    by rewrite list_lookup_fmap, Hj. }
  split; [|split].
  - intros l Hl. destruct (decide (l ∈ R)) as [Hin|Hnin].
    + destruct (Hidx l Hl Hin) as (j & _ & Hj).
      destruct (Hmax _ _ Hj) as [Hle _].
      unfold P in Hle. by rewrite !count_filter_pos in Hle.
    + assert (count l R = 0%nat) as ->; [|lia].
      destruct (count l R) eqn:Hc; [done|]. exfalso. apply Hnin.
      apply count_pos. lia.
  - intros l Hl Hin Heq. destruct (Hidx l Hl Hin) as (j & Hj & Hcj).
    destruct (Hmax _ _ Hcj) as [_ Hfirst].
    assert (k ≤ j)%nat as Hkj.
    { apply Hfirst. unfold P. by rewrite !count_filter_pos. }
    destruct (decide (k = j)) as [->|Hne'].
    + rewrite Hlargest in Hj. injection Hj as ->. lia.
    + pose proof (unique_ascending P k j largest l Hlargest Hj). lia.
  - assert (∀ l, l ∈ R →
              l ∈ (filter (λ uc : Z * nat, Z.of_nat uc.2 < min_size)
                     (zip (unique P) ((λ v, count v P) <$> unique P))).*1
              ↔ 0 < l ∧ Z.of_nat (count l R) < min_size) as Hsmall.
    { intros l Hin. rewrite list_elem_of_fmap. split.
      - intros ([u c] & -> & Huc). cbn [fst].
        apply list_elem_of_filter in Huc as [Hlt Huc]. cbn [snd] in Hlt.
        apply list_elem_of_lookup_1 in Huc as [j Hj].
        apply lookup_zip_with_Some in Hj as (u' & c' & [= <- <-] & Hu & Hc).
        rewrite list_lookup_fmap, Hu in Hc. injection Hc as <-.
        assert (u ∈ R ∧ 0 < u) as [_ Hupos].
        { apply HP. by eapply list_elem_of_lookup_2. }
        split; [done|]. unfold P in Hlt. by rewrite count_filter_pos in Hlt.
      - intros [Hl Hlt]. destruct (Hidx l Hl Hin) as (j & Hj & Hcj).
        exists (l, count l P). split; [done|].
        apply list_elem_of_filter. split.
        + cbn [snd]. unfold P. by rewrite count_filter_pos.
        + apply (list_elem_of_lookup_2 _ j). apply lookup_zip_with_Some.
          by exists l, (count l P). }
    f_equal. f_equal.
    + apply fmap2_ext_elem. intros l Hin. fold R in Hin.
      destruct (decide (0 < l ∧ Z.of_nat (count l R) < min_size)) as [Hs|Hs].
      * rewrite bool_decide_eq_true_2; [done|]. by apply Hsmall.
      * rewrite bool_decide_eq_false_2; [done|]. by rewrite Hsmall.
    + rewrite <- list_fmap_compose.
      apply list_fmap_ext. intros i row Hrow. cbn [compose].
      rewrite <- list_fmap_compose.
      apply list_fmap_ext. intros j l Hl. cbn [compose].
      assert (l ∈ R) as Hin.
      { unfold R, ravel. apply elem_of_concat. exists row.
        split; eapply list_elem_of_lookup_2; eauto. }
      pose proof (Hsmall l Hin) as Hs.
      match goal with |- context [bool_decide (l ∈ ?s)] =>
        destruct (decide (l ∈ s)) as [Hmem|Hmem];
        [rewrite (bool_decide_eq_true_2 (l ∈ s)) by done
        |rewrite (bool_decide_eq_false_2 (l ∈ s)) by done] end.
      * apply Hs in Hmem as [Hl0' Hlt].
        rewrite bool_decide_eq_false_2 by lia.
        symmetry. apply bool_decide_eq_false_2. intros [-> Hge]. lia.
      * destruct (decide (l = largest)) as [->|Hne'].
        -- rewrite bool_decide_eq_true_2 by done. symmetry.
           apply bool_decide_eq_true_2. split; [done|].
           destruct (decide (min_size ≤ Z.of_nat (count largest R))); [done|].
           exfalso. apply Hmem, Hs. lia.
        -- rewrite bool_decide_eq_false_2 by done. symmetry.
           apply bool_decide_eq_false_2. tauto.
Qed.

(** X27. When the thresholding returns and the labelling finds a region,
    [get_tissue_mask] returns. The mask marks one region: a region with the
    largest number of pixels, the one with the smallest label among
    several. When that region has fewer than [min_size] pixels the mask is
    empty; the labelled array keeps the regions of at least [min_size]
    pixels. *)
Theorem get_tissue_mask_largest_region image steps sigma min_size thumbnail :
  thresholding steps sigma (gray_thumbnail image) = Ok thumbnail →
  (∃ l, l ∈ ravel (regions_of thumbnail) ∧ 0 < l) →
  ∃ largest labeled mask,
    get_tissue_mask image steps sigma min_size = Ok (labeled, mask) ∧
    0 < largest ∧ largest ∈ ravel (regions_of thumbnail) ∧
    (∀ l, 0 < l →
          (count l (ravel (regions_of thumbnail))
           ≤ count largest (ravel (regions_of thumbnail)))%nat) ∧
    (∀ l, 0 < l → l ∈ ravel (regions_of thumbnail) →
          count l (ravel (regions_of thumbnail))
          = count largest (ravel (regions_of thumbnail)) → largest ≤ l) ∧
    (∀ r c,
       Array2.at_ labeled r c
       = (λ l, if decide (0 < l ∧
                          Z.of_nat (count l (ravel (regions_of thumbnail)))
                          < min_size)
               then 0 else l) <$> Array2.at_ (regions_of thumbnail) r c) ∧
    (∀ r c,
       Array2.at_ mask r c
       = (λ l, bool_decide
                 (l = largest ∧
                  min_size
                  ≤ Z.of_nat (count largest (ravel (regions_of thumbnail)))))
         <$> Array2.at_ (regions_of thumbnail) r c).
Proof.
  intros Hth Hregion.
  destruct (get_tissue_mask_cases image steps sigma min_size thumbnail Hth Hregion)
    as (largest & Hpos & Hin & Hmax & Hfirst & Hres).
  eexists largest, _, _. split; [exact Hres|].
  repeat (split; [done|]). split; intros r c; by rewrite at_fmap2.
Qed.

(** X28. When the thresholding returns and the labelling finds no region,
    [get_tissue_mask] raises [ValueError]: [counts] is empty and
    [np.argmax] refuses it. *)
Theorem get_tissue_mask_no_region image steps sigma min_size thumbnail :
  thresholding steps sigma (gray_thumbnail image) = Ok thumbnail →
  (∀ l, l ∈ ravel (regions_of thumbnail) → l ≤ 0) →
  get_tissue_mask image steps sigma min_size = Raise ValueError.
Proof.
  intros Hth Hnone. unfold get_tissue_mask.
  fold (gray_thumbnail image). rewrite Hth. cbn [mbind result_bind].
  fold (regions_of thumbnail).
  assert (filter (λ l, 0 < l) (ravel (regions_of thumbnail)) = []) as ->; [|done].
  induction (ravel (regions_of thumbnail)) as [|x a IH]; [done|].
  rewrite filter_cons. destruct (decide (0 < x)) as [Hx|_].
  - assert (x ≤ 0) by (apply Hnone; left). lia.
  - apply IH. intros l Hl. apply Hnone. by right.
Qed.

(** ** Tissue mask: the loop of [process] *)

Lemma shape_zip_with2 {A B C} (f : A → B → C) (a : list (list A))
    (b : list (list B)) :
  length <$> a = length <$> b →
  length <$> zip_with (zip_with f) a b = length <$> a.
Proof.
  revert b. induction a as [|ra a IH]; intros [|rb b]; try done.
  rewrite !fmap_cons. intros [= Hr Hrest]. cbn [zip_with].
  rewrite fmap_cons, length_zip_with, IH by done. f_equal. lia.
Qed.

Lemma same_shape_eq {A B} (a : list (list A)) (b : list (list B)) :
  same_shape a b = true ↔ length <$> a = length <$> b.
Proof. unfold same_shape. apply bool_decide_eq_true. Qed.

Lemma shape_at_is_Some {A B} (a : list (list A)) (b : list (list B)) r c :
  length <$> a = length <$> b →
  is_Some (Array2.at_ a r c) → is_Some (Array2.at_ b r c).
Proof.
  intros Hshape [v Hv]. unfold Array2.at_ in *.
  apply bind_Some in Hv as (ra & Hra & Hc).
  assert ((length <$> a) !! r = Some (length ra)) as Hlen
    by (by rewrite list_lookup_fmap, Hra).
  rewrite Hshape, list_lookup_fmap in Hlen.
  destruct (b !! r) as [rb|]; [|done]. injection Hlen as Hlen. simpl.
  apply lookup_lt_is_Some. apply lookup_lt_Some in Hc. lia.
Qed.

Lemma detect_invariant (self : t) (fuel : nat) (image_gray : list (list Z))
    (image : list (list (Z * Z * Z))) (tissue_mask result : list (list Z)) :
  same_shape tissue_mask image_gray = true →
  detect fuel self image_gray image tissue_mask = Some (Ok result) →
  same_shape result image_gray = true ∧
  ∀ r c v, Array2.at_ tissue_mask r c = Some v →
           Array2.at_ result r c = Some v ∨ Array2.at_ result r c = Some 1.
Proof.
  revert image tissue_mask.
  induction fuel as [|fuel IH]; intros image tissue_mask Hshape; [done|].
  cbn [detect].
  destruct (detect_step self image_gray image tissue_mask)
    as [[[image' tissue_mask']|]|e] eqn:Hstep; [| |done].
  - intros Hrest. unfold detect_step in Hstep.
    destruct (get_tissue_mask _ _ _ _) as [[labeled mask_]|e]; [|done].
    cbn [mbind result_bind] in Hstep.
    set (dilated := cv2_dilate _ _ _) in Hstep.
    destruct (same_shape dilated image_gray) eqn:Hd; [|done].
    destruct (mean_lt _ _); [|done]. injection Hstep as <- <-.
    apply same_shape_eq in Hshape, Hd.
    assert (length <$> tissue_mask = length <$> dilated) as Htd by congruence.
    destruct (IH _ _ ltac:(apply same_shape_eq;
                           rewrite shape_zip_with2 by exact Htd; exact Hshape)
                Hrest) as [Hres Hmono].
    split; [done|]. intros r c v Hv.
    assert (is_Some (Array2.at_ dilated r c)) as [m Hm].
    { by eapply (shape_at_is_Some tissue_mask). }
    specialize (Hmono r c (if decide (m ≠ 0) then 1 else v)).
    rewrite at_zip_with2, Hv, Hm in Hmono. specialize (Hmono eq_refl).
    destruct (decide (m ≠ 0)); tauto.
  - intros [= <-]. split; [done|]. intros r c v Hv. by left.
Qed.

(** X29. The loop of [process] only ever sets pixels of the tissue mask: when
    it is left with a mask, that mask has the shape of the gray image and
    each of its pixels holds the value it had before the loop or 1. *)
Theorem detect_only_sets (self : t) (fuel : nat) (image_gray : list (list Z))
    (image : list (list (Z * Z * Z))) (tissue_mask result : list (list Z)) :
  same_shape tissue_mask image_gray = true →
  detect fuel self image_gray image tissue_mask = Some (Ok result) →
  same_shape result image_gray = true ∧
  ∀ r c v, Array2.at_ tissue_mask r c = Some v →
           Array2.at_ result r c = Some v ∨ Array2.at_ result r c = Some 1.
Proof. apply detect_invariant. Qed.

End TissueMore.

Section TissueMoreExamples.
Import Numpy TissueMask Reference.

Lemma get_tissue_mask_largest_region_witness :
  let image := Color [[(100, 100, 100); (100, 100, 100); (255, 255, 255);
                       (240, 240, 240)]] in
  thresholding 1 0 (gray_thumbnail image) = Ok [[155; 155; 0; 15]]%Q ∧
  (∃ l, l ∈ ravel (regions_of [[155; 155; 0; 15]]%Q) ∧ 0 < l) ∧
  ∃ largest labeled mask,
    get_tissue_mask image 1 0 2 = Ok (labeled, mask) ∧
    0 < largest ∧ largest ∈ ravel (regions_of [[155; 155; 0; 15]]%Q).
Proof.
  intros image.
  assert (thresholding 1 0 (gray_thumbnail image) = Ok [[155; 155; 0; 15]]%Q) as Hth
    by (vm_compute; reflexivity).
  assert (∃ l, l ∈ ravel (regions_of [[155; 155; 0; 15]]%Q) ∧ 0 < l) as Hregion.
  { assert (ravel (regions_of [[155; 155; 0; 15]]%Q) = [1; 1; 0; 2]) as ->
      by (vm_compute; reflexivity).
    exists 1. split; [left | lia]. }
  split; [exact Hth|]. split; [exact Hregion|].
  destruct (get_tissue_mask_largest_region image 1 0 2 _ Hth Hregion)
    as (largest & labeled & mask & Hres & Hpos & Hin & _).
  exists largest, labeled, mask.
  split; [exact Hres|]. split; [exact Hpos | exact Hin].
Defined.

(** Two regions of 2 pixels and 1 pixel: the first one is the mask when
    [min_size] is 2, and with [min_size = 3] the mask is empty. *)
Example get_tissue_mask_region_examples :
  let image := Color [[(100, 100, 100); (100, 100, 100); (255, 255, 255);
                       (240, 240, 240)]] in
  regions_of [[155; 155; 0; 15]]%Q = [[1; 1; 0; 2]] ∧
  get_tissue_mask image 1 0 2
  = Ok ([[1; 1; 0; 0]], [[true; true; false; false]]) ∧
  get_tissue_mask image 1 0 3
  = Ok ([[0; 0; 0; 0]], [[false; false; false; false]]).
Proof. intros image. repeat split; vm_compute; reflexivity. Qed.

Lemma get_tissue_mask_no_region_witness :
  let image := Color [[(255, 255, 255); (255, 255, 255)]] in
  thresholding 1 0 (gray_thumbnail image) = Ok [[0; 0]]%Q ∧
  get_tissue_mask image 1 0 1 = Raise ValueError.
Proof.
  intros image.
  assert (thresholding 1 0 (gray_thumbnail image) = Ok [[0; 0]]%Q) as Hth
    by (vm_compute; reflexivity).
  split; [exact Hth|].
  apply (get_tissue_mask_no_region image 1 0 1 _ Hth).
  assert (ravel (regions_of [[0; 0]]%Q) = [0; 0]) as -> by (vm_compute; reflexivity).
  intros l. rewrite !elem_of_cons, elem_of_nil. lia.
Defined.

Lemma detect_only_sets_witness :
  let self := TissueMask.mk 1 0 1 1 1 228 1 in
  let image := [[(100, 100, 100); (255, 255, 255); (240, 240, 240)]] in
  let image_gray := [[100; 255; 240]] in
  detect 2 self image_gray image [[0; 0; 0]] = Some (Ok [[1; 0; 0]]) ∧
  same_shape [[1; 0; 0]] image_gray = true ∧
  ∀ r c v, Array2.at_ [[0; 0; 0]] r c = Some v →
           Array2.at_ [[1; 0; 0]] r c = Some v ∨ Array2.at_ [[1; 0; 0]] r c = Some 1.
Proof.
  intros self image image_gray.
  assert (detect 2 self image_gray image [[0; 0; 0]] = Some (Ok [[1; 0; 0]])) as Hd
    by (vm_compute; reflexivity).
  split; [exact Hd|].
  apply (detect_only_sets self 2 image_gray image [[0; 0; 0]] [[1; 0; 0]]);
    [reflexivity | exact Hd].
Defined.

End TissueMoreExamples.

(** ** Augmented deep feature extraction *)

Section AugmentedFacts.
Import InstanceMapPatchDataset DeepFeatureExtractor.
Context {T E : Type}.
Context (augmented_transform : list AugmentedDeepFeatureExtractor.transform
                               → list (list (Z * Z * Z)) → T).
Context (model : T → list E) (num_features : nat) (uninit : E).

Lemma write_column_shape (a i : nat) features items :
  Forall (λ entry, length entry = a) features →
  length (write_column model i features items) = length features ∧
  Forall (λ entry, length entry = a) (write_column model i features items).
Proof.
  revert features. induction items as [|[k t] items IH]; intros features Hall;
    [done|].
  cbn [write_column foldl fst snd].
  destruct (features !! k) as [entry|] eqn:Hk; [|by apply IH].
  destruct (IH (<[k := <[i := model t]> entry]> features)) as [Hlen Hall'].
  { apply Forall_insert; [done|]. rewrite length_insert.
    by eapply (Forall_lookup_1 _ _ _ _ Hall). }
  fold (write_column model i (<[k := <[i := model t]> entry]> features) items).
  split; [by rewrite Hlen, length_insert | done].
Qed.

Lemma at3_insert (features : list (list (list E))) k i entry row k' i' :
  features !! k = Some entry → (i < length entry)%nat →
  at3 (<[k := <[i := row]> entry]> features) k' i'
  = if decide (k' = k ∧ i' = i) then Some row else at3 features k' i'.
Proof.
  intros Hk Hi. unfold at3.
  destruct (decide (k' = k)) as [->|Hne].
  - rewrite list_lookup_insert_eq by (by eapply lookup_lt_Some).
    rewrite Hk. cbn [mbind option_bind].
    destruct (decide (i' = i)) as [->|Hne'].
    + rewrite decide_True by done. by apply list_lookup_insert_eq.
    + rewrite decide_False by (intros [_ ?]; done).
      by apply list_lookup_insert_ne.
  - rewrite decide_False by (intros [? _]; done).
    by rewrite list_lookup_insert_ne.
Qed.

Lemma write_column_other (a i : nat) features items k i' :
  Forall (λ entry, length entry = a) features → (i < a)%nat →
  i' ≠ i ∨ k ∉ items.*1 →
  at3 (write_column model i features items) k i' = at3 features k i'.
Proof.
  intros Hall Hi Hne. revert features Hall.
  induction items as [|[k0 t] items IH]; intros features Hall; [done|].
  cbn [write_column foldl fst snd].
  destruct (features !! k0) as [entry|] eqn:Hk0.
  - fold (write_column model i (<[k0 := <[i := model t]> entry]> features) items).
    assert (length entry = a) as Hlen by (by eapply (Forall_lookup_1 _ _ _ _ Hall)).
    rewrite IH.
    + rewrite at3_insert by (done || lia). rewrite decide_False; [done|].
      intros [-> ->]. destruct Hne as [?|Hnin]; [done|].
      apply Hnin. rewrite fmap_cons. left.
    + destruct Hne as [?|Hnin]; [by left|]. right.
      rewrite fmap_cons in Hnin. by apply not_elem_of_cons in Hnin as [_ ?].
    + apply Forall_insert; [done|]. by rewrite length_insert.
  - apply IH; [|done]. destruct Hne as [?|Hnin]; [by left|]. right.
    rewrite fmap_cons in Hnin. by apply not_elem_of_cons in Hnin as [_ ?].
Qed.

Lemma write_column_written (a i : nat) features items k t :
  Forall (λ entry, length entry = a) features → (i < a)%nat →
  NoDup items.*1 → (k, t) ∈ items → (k < length features)%nat →
  at3 (write_column model i features items) k i = Some (model t).
Proof.
  intros Hall Hi. revert features Hall.
  induction items as [|[k0 t0] items IH]; intros features Hall Hnd Hin Hk.
  - inversion Hin.
  - rewrite fmap_cons in Hnd. apply NoDup_cons in Hnd as [Hk0 Hnd]. cbn [fst] in Hk0.
    cbn [write_column foldl fst snd].
    apply elem_of_cons in Hin as [[= <- <-]|Hin].
    + destruct (lookup_lt_is_Some_2 features k Hk) as [entry Hentry].
      rewrite Hentry.
      fold (write_column model i (<[k := <[i := model t]> entry]> features) items).
      assert (length entry = a) as Hlen by (by eapply (Forall_lookup_1 _ _ _ _ Hall)).
      rewrite (write_column_other a); [| |done|by right].
      * rewrite at3_insert by (done || lia). by rewrite decide_True.
      * apply Forall_insert; [done|]. by rewrite length_insert.
    + destruct (features !! k0) as [entry|] eqn:Hentry; [|by apply IH].
      fold (write_column model i (<[k0 := <[i := model t0]> entry]> features) items).
      assert (length entry = a) as Hlen by (by eapply (Forall_lookup_1 _ _ _ _ Hall)).
      apply IH; [|done|done|by rewrite length_insert].
      apply Forall_insert; [done|]. by rewrite length_insert.
Qed.

Lemma augmented_store_Ok (a i : nat) features (batch : list (nat * T)) :
  (∀ t, length (model t) = num_features) →
  ¬ (num_features = 1 ∧ 1 < length batch)%nat →
  Forall (λ entry, length entry = a) features → (i < a)%nat →
  Forall (λ k, k < length features)%nat batch.*1 →
  AugmentedDeepFeatureExtractor.store num_features features batch.*1 i
    (patch_feature_extractor model batch.*2)
  = Ok (write_column model i features batch).
Proof.
  intros Hlen Hnf Hall Hi Hin.
  unfold AugmentedDeepFeatureExtractor.store, patch_feature_extractor.
  rewrite bool_decide_eq_true_2.
  2:{ apply Forall_fmap, Forall_forall. intros t _. apply Hlen. }
  rewrite bool_decide_eq_false_2 by (by rewrite length_fmap).
  clear Hnf.
  revert features Hall Hin. induction batch as [|[k t] batch IH];
    intros features Hall Hin; [done|].
  rewrite !fmap_cons in *. apply Forall_cons in Hin as [Hk Hin]. cbn [fst snd] in *.
  cbn [zip zip_with for_fold write_column foldl fst snd].
  destruct (lookup_lt_is_Some_2 features k Hk) as [entry Hentry]. rewrite Hentry.
  assert (length entry = a) as Hla by (by eapply (Forall_lookup_1 _ _ _ _ Hall)).
  rewrite decide_True by lia. cbn [mbind result_bind].
  apply IH.
  - apply Forall_insert; [done|]. by rewrite length_insert.
  - eapply Forall_impl; [exact Hin|]. intros j Hj. simpl. by rewrite length_insert.
Qed.

(** One pass over the batches writes the column of its augmentation. *)
Lemma extract_pass_Ok (h w a i : nat) (schedule : list (list nat)) (self : t)
    features transform :
  (∀ t, length (model t) = num_features) →
  ¬ (num_features = 1 ∧ Exists (λ batch, 1 < length batch) schedule)%nat →
  wf_dataset h w self → length features = __len__ self →
  Forall (λ entry, length entry = a) features → (i < a)%nat →
  Forall (λ k, k < __len__ self)%nat (concat schedule) →
  ∃ items self',
    load_batch (augmented_transform transform) self (concat schedule)
      = Ok (items, self') ∧
    items.*1 = concat schedule ∧
    wf_dataset h w self' ∧ __len__ self' = __len__ self ∧
    AugmentedDeepFeatureExtractor.extract_pass augmented_transform model
      num_features schedule (features, self) (i, transform)
    = Ok (write_column model i features items, self').
Proof.
  intros Hmodel. unfold AugmentedDeepFeatureExtractor.extract_pass.
  revert self features. induction schedule as [|indices schedule IH];
    intros self features Hnf Hwf Hlen Hall Hi Hin.
  - by exists [], self.
  - simpl concat in *. apply Forall_app in Hin as [Hin1 Hin2].
    destruct (load_batch_Ok (augmented_transform transform) h w indices self Hwf Hin1)
      as (batch & self1 & Hload & Hidx & Hwf1 & Hlen1).
    destruct (write_column_shape a i features batch Hall) as [Hlenw Hallw].
    destruct (IH self1 (write_column model i features batch))
      as (items & self2 & Hload2 & Hidx2 & Hwf2 & Hlen2 & Hloop); try done.
    { intros [Hone Hex]. apply Hnf. split; [done|]. by right. }
    { rewrite Hlenw. congruence. }
    { by rewrite Hlen1. }
    exists (batch ++ items), self2. rewrite load_batch_app, Hload.
    cbn [mbind result_bind]. rewrite Hload2. cbn [mbind result_bind].
    split; [done|]. split; [by rewrite fmap_app, Hidx, Hidx2|].
    split; [done|]. split; [congruence|].
    cbn [for_fold]. rewrite Hload. cbn [mbind result_bind].
    rewrite (augmented_store_Ok a); [|done| |done|done|].
    2:{ intros [Hone Hlong]. apply Hnf. split; [done|]. left.
        by rewrite <- Hidx, length_fmap. }
    2:{ rewrite Hidx, Hlen. done. }
    cbn [mbind result_bind]. rewrite Hloop. f_equal. f_equal.
    unfold write_column. by rewrite foldl_app.
Qed.

(** The passes over the augmentations, without masking: the dataset is
    left as it is, and each pass writes its column. *)
Lemma extract_passes_Ok (h w a : nat) (schedule : list (list nat)) (self : t)
    (transforms : list (list AugmentedDeepFeatureExtractor.transform))
    (o : nat) features :
  (∀ t, length (model t) = num_features) →
  ¬ (num_features = 1 ∧ Exists (λ batch, 1 < length batch) schedule)%nat →
  wf_dataset h w self → fill_value self = None →
  concat schedule ≡ₚ seq 0 (__len__ self) →
  length features = __len__ self →
  Forall (λ entry, length entry = a) features →
  (o + length transforms ≤ a)%nat →
  ∃ features',
    for_fold (AugmentedDeepFeatureExtractor.extract_pass augmented_transform
                model num_features schedule)
      (features, self) (imap (λ j transform, ((o + j)%nat, transform)) transforms)
    = Ok (features', self) ∧
    length features' = __len__ self ∧
    Forall (λ entry, length entry = a) features' ∧
    (∀ k i', (i' < o)%nat → at3 features' k i' = at3 features k i') ∧
    ∀ k j transform, (k < __len__ self)%nat → transforms !! j = Some transform →
      ∃ t, item_of (augmented_transform transform) self k (k, t) ∧
           at3 features' k (o + j) = Some (model t).
Proof.
  intros Hmodel Hnf Hwf Hnone Hperm.
  revert o features. induction transforms as [|transform transforms IH];
    intros o features Hlen Hall Ho.
  - exists features. repeat (split; [done|]). intros k j transform _ Hj. done.
  - cbn [length] in Ho. rewrite imap_cons. cbn [for_fold].
    assert (Forall (λ k, k < __len__ self)%nat (concat schedule)) as Hin.
    { rewrite Hperm. apply Forall_forall. intros k Hk%elem_of_seq. lia. }
    destruct (extract_pass_Ok h w a (o + 0) schedule self features transform)
      as (items & self' & Hload & Hidx & _ & _ & Hpass); try done; [lia|].
    rewrite Hpass. cbn [mbind result_bind].
    destruct (load_batch_unmasked (augmented_transform transform)
                (concat schedule) self items self' Hnone Hload) as [-> Hitems].
    destruct (write_column_shape a (o + 0) features items Hall) as [Hlenw Hallw].
    destruct (IH (S o) (write_column model (o + 0) features items))
      as (features' & Hrest & Hlen' & Hall' & Hold & Hnew);
      [congruence | done | lia |].
    exists features'. split.
    { rewrite <- Hrest. f_equal. apply imap_ext. intros j tr _. simpl.
      f_equal. lia. }
    split; [done|]. split; [done|]. split.
    + intros k i' Hi'. rewrite Hold by lia.
      apply (write_column_other a); [done|lia|left; lia].
    + intros k [|j] tr Hk Hj.
      * injection Hj as <-.
        assert (k ∈ items.*1) as Hkin.
        { rewrite Hidx, Hperm. apply elem_of_seq. lia. }
        apply list_elem_of_fmap in Hkin as ([k' t] & Heq & Hkt). simpl in Heq.
        subst k'. exists t. split; [by apply Hitems|].
        rewrite Hold by lia.
        apply (write_column_written a); [done|lia| |done|congruence].
        rewrite Hidx, Hperm. apply NoDup_seq.
      * destruct (Hnew k j tr Hk Hj) as (t & Hitem & Hat).
        exists t. split; [done|]. by replace (o + S j)%nat with (S o + j)%nat by lia.
Qed.

(** X30. Without masking, for an image and an instance map of one shape
    with [n] instances, a backbone of [num_features] values per sample and
    no batch of several samples when [num_features] is 1:
    [AugmentedDeepFeatureExtractor._extract_features] returns [n] entries
    of one row per augmentation, and the row [(k, i)] is the embedding of
    the patch of the region [k] under the transform of the augmentation
    [i]. *)
Theorem augmented_extract_features_rows (h w : nat)
    (transforms : list (list AugmentedDeepFeatureExtractor.transform))
    (size batch_size : nat) input_image instance_map :
  (∀ t, length (model t) = num_features) → (0 < batch_size)%nat →
  Array2.rect h w input_image → Array2.rect h w instance_map →
  ¬ (num_features = 1 ∧ 1 < batch_size
     ∧ 1 < length (Skimage.regionprops instance_map))%nat →
  ∃ features,
    AugmentedDeepFeatureExtractor._extract_features augmented_transform model
      num_features uninit transforms size false batch_size
      input_image instance_map = Ok features ∧
    length features = length (Skimage.regionprops instance_map) ∧
    Forall (λ entry, length entry = length transforms) features ∧
    ∀ k i transform,
      (k < length (Skimage.regionprops instance_map))%nat →
      transforms !! i = Some transform →
      ∃ t, item_of (augmented_transform transform)
             (__init__ input_image instance_map size None) k (k, t) ∧
           at3 features k i = Some (model t).
Proof.
  intros Hmodel Hb Himg Hmap Hnf.
  unfold AugmentedDeepFeatureExtractor._extract_features.
  rewrite decide_False by lia.
  unfold AugmentedDeepFeatureExtractor._extract_features_on.
  set (self := __init__ input_image instance_map size None).
  set (n := length (Skimage.regionprops instance_map)) in *.
  assert (__len__ self = n) as Hn by done.
  assert (wf_dataset h w self) as Hwf by (subst self; by apply wf_dataset_init).
  destruct (extract_passes_Ok h w (length transforms)
              (sequential_batches batch_size n) self transforms 0
              (replicate (__len__ self)
                 (replicate (length transforms) (replicate num_features uninit))))
    as (features & Hres & Hlen & Hall & _ & Hrows); try done.
  - intros [Hone Hex]. apply Hnf. split; [done|].
    by apply sequential_batches_long.
  - rewrite Hn. by rewrite concat_sequential_batches.
  - by rewrite length_replicate.
  - apply Forall_replicate, length_replicate.
  - assert (imap pair transforms
            = imap (λ j transform, ((0 + j)%nat, transform)) transforms) as ->
      by (by apply imap_ext).
    rewrite Hres. cbn [mbind result_bind].
    exists features. split; [done|]. split; [congruence|]. split; [done|].
    intros k i transform Hk Hi.
    destruct (Hrows k i transform) as (t & Hitem & Hat); [by rewrite Hn|done|].
    by exists t.
Qed.

End AugmentedFacts.

Section AugmentedExamples.
Import InstanceMapPatchDataset DeepFeatureExtractor.

Lemma augmented_extract_features_rows_witness :
  let img := [[(1, 1, 1); (2, 2, 2); (3, 3, 3)];
              [(4, 4, 4); (5, 5, 5); (6, 6, 6)];
              [(7, 7, 7); (8, 8, 8); (9, 9, 9)]] in
  let imap := [[1; 1; 2]; [1; 2; 2]; [0; 0; 2]] in
  let transforms := AugmentedDeepFeatureExtractor.__init__ (Some [0; 90]) None in
  let plain := λ (_ : list AugmentedDeepFeatureExtractor.transform)
                 (patch : list (list (Z * Z * Z))), patch in
  (∀ t, length (sum_model t) = 2%nat) ∧
  Array2.rect 3 3 img ∧ Array2.rect 3 3 imap ∧
  ∃ features,
    AugmentedDeepFeatureExtractor._extract_features plain sum_model 2 0
      transforms 2 false 2 img imap = Ok features ∧
    length features = 2%nat ∧
    Forall (λ entry, length entry = 2%nat) features ∧
    ∃ t, item_of (plain [AugmentedDeepFeatureExtractor.rotate 90])
           (__init__ img imap 2 None) 0 (0%nat, t) ∧
         at3 features 0 1 = Some (sum_model t).
Proof.
  intros img imap transforms plain.
  assert (∀ t, length (sum_model t) = 2%nat) as Hmodel by done.
  assert (Array2.rect 3 3 img) as Himg by (split; [reflexivity | repeat constructor]).
  assert (Array2.rect 3 3 imap) as Hmap by (split; [reflexivity | repeat constructor]).
  repeat (split; [assumption|]).
  destruct (augmented_extract_features_rows plain sum_model 2 0 3 3 transforms 2 2
              img imap Hmodel ltac:(lia) Himg Hmap)
    as (features & Hres & Hlen & Hall & Hrows).
  { intros [Hone _]. discriminate Hone. }
  exists features. split; [exact Hres|]. split; [exact Hlen|]. split; [exact Hall|].
  apply (Hrows 0%nat 1%nat [AugmentedDeepFeatureExtractor.rotate 90]).
  - vm_compute. lia.
  - reflexivity.
Defined.

(** Two augmentations of two instances, with a stand-in transform that
    tells the augmentations apart by the number of its entries. *)
Example augmented_extraction_example :
  let img := [[(1, 1, 1); (2, 2, 2); (3, 3, 3)];
              [(4, 4, 4); (5, 5, 5); (6, 6, 6)];
              [(7, 7, 7); (8, 8, 8); (9, 9, 9)]] in
  let imap := [[1; 1; 2]; [1; 2; 2]; [0; 0; 2]] in
  let transforms := AugmentedDeepFeatureExtractor.__init__ (Some [0]) (Some ["n"; "h"]%string) in
  let marked := λ (tr : list AugmentedDeepFeatureExtractor.transform)
                  (patch : list (list (Z * Z * Z))),
                  (λ row : list (Z * Z * Z),
                     (λ px, (px.1.1 * Z.of_nat (length tr), px.1.2, px.2)) <$> row)
                    <$> patch in
  AugmentedDeepFeatureExtractor._extract_features marked sum_model 2 0
    transforms 2 false 2 img imap
  = Ok [[[766; 766]; [1532; 766]]; [[16; 16]; [32; 16]]].
Proof. vm_compute. reflexivity. Qed.

End AugmentedExamples.
